(** * speech-to-srt: the subtitle translator of [translate-srt-v2.py]

    A shallow embedding of the subtitle reader ([SRTParser.parse_srt]), the
    subtitle writer ([SRTParser.write_srt]), the batch translation loop
    ([GroqTranslator._call_api], [translate_text], [translate_batch]) with
    [SRTTranslationManager.translate_file], and what the prompt builders
    ([create_translation_prompt], [create_batch_prompt]) compute, followed
    by the properties of the reader, the writer and the translator.

    Conventions.
    - A Python [str] is a list of Unicode code points ([list N]).
    - [\s] and [str.strip] use the interpreter's whitespace set, [\d] and
      [int] its decimal digits (general category Nd); both tables are the
      ones of Unicode 14 (CPython 3.11).
    - Regular expressions are written with backtracking matchers in
      continuation-passing style, one combinator per construct of the
      pattern, so that each pattern reads like its source text.
    - [int] is the exact conversion; the interpreter's configurable limit on
      the number of digits is not part of the model.
    - The subtitle list holds one object per position, as the reader builds
      it: a position of the list identifies the mutable object.
    - The backend is an oracle: the outcome of each call of a run. The
      calls, the waits and the log records of the translator are the events
      of a run; a log record is kept by its level.
    - The output file can always be written: [write_srt] is the text that
      is written. *)

From Stdlib Require Import ZArith NArith Lia String Ascii DecimalPos.
From stdpp Require Import base tactics option list sorting.

Local Open Scope N_scope.

(** ** Strings *)

Definition char := N.
Definition str := list char.

(** An ASCII literal as a Python string. *)
Definition lit (s : string) : str :=
  map N_of_ascii (list_ascii_of_string s).

Definition LF : char := 10.
Definition CR : char := 13.
Definition DOT : char := 46.
Definition COMMA : char := 44.

(** The code points for which [str.isspace] holds; [\s] and [strip] use
    the same set. *)
Definition whitespace : list char :=
  [9; 10; 11; 12; 13; 28; 29; 30; 31; 32; 133; 160; 5760;
   8192; 8193; 8194; 8195; 8196; 8197; 8198; 8199; 8200; 8201; 8202;
   8232; 8233; 8239; 8287; 12288].

Definition is_space (c : char) : bool := existsb (N.eqb c) whitespace.

(** The code points of digit zero of every decimal-digit block (category
    Nd); each block holds the ten digits in order. *)
Definition digit_zeros : list char :=
  [48; 1632; 1776; 1984; 2406; 2534; 2662; 2790; 2918; 3046; 3174; 3302;
   3430; 3558; 3664; 3792; 3872; 4160; 4240; 6112; 6160; 6470; 6608; 6784;
   6800; 6992; 7088; 7232; 7248; 42528; 43216; 43264; 43472; 43504; 43600;
   44016; 65296; 66720; 68912; 69734; 69872; 69942; 70096; 70384; 70736;
   70864; 71248; 71360; 71472; 71904; 72016; 72784; 73040; 73120; 92768;
   92864; 93008; 120782; 120792; 120802; 120812; 120822; 123200; 123632;
   125264; 130032].

Fixpoint digit_in (zeros : list char) (c : char) : option N :=
  match zeros with
  | [] => None
  | z :: zs => if (z <=? c) && (c <? z + 10) then Some (c - z)
               else digit_in zs c
  end.

(** The decimal value of a code point, when it is a decimal digit. *)
Definition digit_value (c : char) : option N := digit_in digit_zeros c.

Definition is_digit (c : char) : bool :=
  match digit_value c with Some _ => true | None => false end.

Definition is_lf (c : char) : bool := c =? LF.
Definition not_lf (c : char) : bool := negb (c =? LF).
Definition any_char (c : char) : bool := true.

(** Truth value of a string: non-empty. *)
Definition truthy (s : str) : bool :=
  match s with [] => false | _ => true end.

(** Truth value of an [Optional[str]]. *)
Definition truthy_opt (o : option str) : bool :=
  match o with Some s => truthy s | None => false end.

Fixpoint lstrip (s : str) : str :=
  match s with
  | c :: s' => if is_space c then lstrip s' else s
  | [] => []
  end.

Definition rstrip (s : str) : str := rev (lstrip (rev s)).

(** [str.strip()] *)
Definition strip (s : str) : str := rstrip (lstrip s).

(** [s.replace(a, b)] for one-character [a] and [b]. *)
Definition replace_char (a b : char) (s : str) : str :=
  map (fun c => if c =? a then b else c) s.

(** [content.replace('\r\n', '\n')] *)
Fixpoint replace_crlf (s : str) : str :=
  match s with
  | c :: s' =>
      match s' with
      | d :: s'' => if (c =? CR) && (d =? LF) then LF :: replace_crlf s''
                    else c :: replace_crlf s'
      | [] => [c]
      end
  | [] => []
  end.

(** [sep.join(parts)] *)
Fixpoint join (sep : str) (parts : list str) : str :=
  match parts with
  | [] => []
  | [p] => p
  | p :: ps => p ++ sep ++ join sep ps
  end.

(** [int(s)] on a string of decimal digits. *)
Definition int_of_digits (s : str) : Z :=
  fold_left (fun acc c => (10 * acc + Z.of_N (default 0%N (digit_value c)))%Z)
            s 0%Z.

(** The decimal digits of a positive number, most significant first. *)
Fixpoint uint_chars (u : Decimal.uint) : str :=
  match u with
  | Decimal.Nil => []
  | Decimal.D0 u' => 48 :: uint_chars u'
  | Decimal.D1 u' => 49 :: uint_chars u'
  | Decimal.D2 u' => 50 :: uint_chars u'
  | Decimal.D3 u' => 51 :: uint_chars u'
  | Decimal.D4 u' => 52 :: uint_chars u'
  | Decimal.D5 u' => 53 :: uint_chars u'
  | Decimal.D6 u' => 54 :: uint_chars u'
  | Decimal.D7 u' => 55 :: uint_chars u'
  | Decimal.D8 u' => 56 :: uint_chars u'
  | Decimal.D9 u' => 57 :: uint_chars u'
  end.

(** [str(n)], the text of [f"{n}"] for an [int]. *)
Definition str_of_int (n : Z) : str :=
  match n with
  | Z0 => [48]
  | Zpos p => uint_chars (Pos.to_uint p)
  | Zneg p => 45 :: uint_chars (Pos.to_uint p)
  end.

Local Close Scope N_scope.

(** ** Regular expressions

    A matcher takes the continuation for what follows it in the pattern and
    the remaining input; [None] makes the enclosing matcher try its next
    alternative, which is the backtracking of [re]. *)

Section Matchers.
Context {R : Type}.

(** One character of the class [p]. *)
Definition chr (p : char -> bool) (k : str -> option R) (s : str) : option R :=
  match s with
  | c :: s' => if p c then k s' else None
  | [] => None
  end.

(** [p*], greedy: as many characters as possible, giving them back one at
    a time while what follows fails. *)
Fixpoint star (p : char -> bool) (k : str -> option R) (s : str) : option R :=
  match s with
  | c :: s' =>
      if p c then
        match star p k s' with
        | Some r => Some r
        | None => k s
        end
      else k s
  | [] => k s
  end.

(** [p+], greedy. *)
Definition plus (p : char -> bool) (k : str -> option R) : str -> option R :=
  chr p (star p k).

(** [p*?], lazy: as few characters as possible. *)
Fixpoint lazy_star (p : char -> bool) (k : str -> option R) (s : str) : option R :=
  match k s with
  | Some r => Some r
  | None =>
      match s with
      | c :: s' => if p c then lazy_star p k s' else None
      | [] => None
      end
  end.

(** [p{n}] *)
Fixpoint rep (n : nat) (p : char -> bool) (k : str -> option R) : str -> option R :=
  match n with
  | O => k
  | S n' => chr p (rep n' p k)
  end.

(** [p{n,}], greedy. *)
Definition rep_ge (n : nat) (p : char -> bool) (k : str -> option R) : str -> option R :=
  rep n p (star p k).

(** A literal string. *)
Fixpoint literal (w : str) (k : str -> option R) : str -> option R :=
  match w with
  | [] => k
  | c :: w' => chr (N.eqb c) (literal w' k)
  end.

(** [a|b] *)
Definition alt (a b : (str -> option R) -> str -> option R)
    (k : str -> option R) (s : str) : option R :=
  match a k s with
  | Some r => Some r
  | None => b k s
  end.

(** [\Z]: the end of the input. *)
Definition eos (k : str -> option R) (s : str) : option R :=
  match s with
  | [] => k s
  | _ :: _ => None
  end.

(** A capturing group: the continuation receives the text the group
    matched. *)
Definition capture (m : (str -> option R) -> str -> option R)
    (k : str -> str -> option R) (s : str) : option R :=
  m (fun s' => k (take (length s - length s') s) s') s.
End Matchers.

(** [(?=m)]: [m] matches here; nothing is consumed. *)
Definition lookahead {R : Type}
    (m : (str -> option unit) -> str -> option unit)
    (k : str -> option R) (s : str) : option R :=
  match m (fun _ => Some tt) s with
  | Some _ => k s
  | None => None
  end.

Definition is_colon (c : char) : bool := (c =? 58)%N.
(** [[,\.]] *)
Definition is_ms_sep (c : char) : bool := ((c =? COMMA) || (c =? DOT))%N.

(** [\d{2}:\d{2}:\d{2}[,\.]\d{3}] *)
Definition timestamp {R : Type} (k : str -> option R) : str -> option R :=
  rep 2 is_digit (chr is_colon (rep 2 is_digit (chr is_colon (rep 2 is_digit
    (chr is_ms_sep (rep 3 is_digit k)))))).

(** The groups of one match of the block pattern and the input left after
    the match. *)
Record BlockMatch := {
  g_index : str;
  g_start : str;
  g_end : str;
  g_text : str;
  g_rest : str
}.

(** The block pattern of [parse_srt] after its [^]:
<<
  \s*(\d+)\s*\n
  (\d{2}:\d{2}:\d{2}[,\.]\d{3})\s*-->\s*
  (\d{2}:\d{2}:\d{2}[,\.]\d{3}).*?\n
  ([\s\S]*?)
  (?=\n{2,}\d+\s*\n|\Z)
>> *)
Definition block_pattern : str -> option BlockMatch :=
  star is_space (capture (plus is_digit) (fun g1 =>
  star is_space (chr is_lf (
  capture timestamp (fun g2 =>
  star is_space (literal (lit "-->") (star is_space (
  capture timestamp (fun g3 =>
  lazy_star not_lf (chr is_lf (
  capture (lazy_star any_char) (fun g4 =>
  lookahead
    (alt (fun k => rep_ge 2 is_lf (plus is_digit (star is_space (chr is_lf k))))
         eos)
    (fun rest => Some (Build_BlockMatch g1 g2 g3 g4 rest)))))))))))))).

(** [re.finditer(pattern, content)] for the block pattern. [bol] tells
    whether the position is at the start of a line, where [(?m)^] matches;
    [skip] counts the characters still inside the previous match. A match
    holds at least one digit, so the search resumes at its end. *)
Fixpoint finditer_blocks (bol : bool) (skip : nat) (s : str) : list BlockMatch :=
  match s with
  | [] => []
  | c :: s' =>
      match skip with
      | S n => finditer_blocks (is_lf c) n s'
      | O =>
          match (if bol then block_pattern s else None) with
          | Some m =>
              m :: finditer_blocks (is_lf c) (length s - length (g_rest m) - 1) s'
          | None => finditer_blocks (is_lf c) 0 s'
          end
      end
  end.

(** ** Subtitle blocks *)

Record SubtitleBlock := {
  index : Z;
  start_time : str;
  end_time : str;
  text : str;
  translated_text : option str
}.

Definition with_translation (t : str) (sub : SubtitleBlock) : SubtitleBlock :=
  {| index := index sub; start_time := start_time sub;
     end_time := end_time sub; text := text sub;
     translated_text := Some t |}.

(** ** The reader *)

(** The body of the loop over the matches: a block is kept when its
    stripped text is non-empty. *)
Definition block_of_match (m : BlockMatch) : option SubtitleBlock :=
  let t := strip (g_text m) in
  if truthy t then
    Some {| index := int_of_digits (g_index m);
            start_time := replace_char DOT COMMA (g_start m);
            end_time := replace_char DOT COMMA (g_end m);
            text := t;
            translated_text := None |}
  else None.

(** [content.replace('\r\n', '\n').replace('\r', '\n')] *)
Definition normalize_newlines (content : str) : str :=
  replace_char CR LF (replace_crlf content).

(** [parse_srt] from the text of the file on. *)
Definition parse_content (content : str) : list SubtitleBlock :=
  omap block_of_match (finditer_blocks true 0 (normalize_newlines content)).

(** What opening and reading the file gives: the decoded text (the codec
    has removed a leading byte-order mark), or one of the two handlers. *)
Inductive ReadResult :=
  | FileNotFound
  | ReadFailed
  | Content (content : str).

Inductive LogLevel := INFO | WARNING | ERROR.

(** [SRTParser.parse_srt]: the records logged and the list returned. *)
Definition parse_srt (file : ReadResult) : list LogLevel * list SubtitleBlock :=
  match file with
  | FileNotFound => ([ERROR], [])
  | ReadFailed => ([ERROR], [])
  | Content content =>
      let subtitles := parse_content content in
      (INFO :: (if length subtitles <? 5 then [WARNING] else []), subtitles)
  end.

(** ** The writer *)

(** [sorted(subtitles, key=lambda s: s.index)]: the stable sort, written as
    insertion from the right, an element going before the elements that do
    not have a smaller key. *)
Fixpoint insert_by_index (sub : SubtitleBlock) (l : list SubtitleBlock)
    : list SubtitleBlock :=
  match l with
  | [] => [sub]
  | d :: l' => if (index sub <=? index d)%Z then sub :: l
               else d :: insert_by_index sub l'
  end.

Definition sorted_by_index (subtitles : list SubtitleBlock) : list SubtitleBlock :=
  foldr insert_by_index [] subtitles.

(** [subtitle.translated_text or subtitle.text] *)
Definition translated_or_text (sub : SubtitleBlock) : str :=
  match translated_text sub with
  | Some t => if truthy t then t else text sub
  | None => text sub
  end.

(** The three [file.write] calls for one block. *)
Definition write_block (sub : SubtitleBlock) : str :=
  (str_of_int (index sub) ++ [LF])
  ++ (start_time sub ++ lit " --> " ++ end_time sub ++ [LF])
  ++ (strip (translated_or_text sub) ++ [LF; LF]).

(** [SRTParser.write_srt]: the text written to the output file. *)
Definition write_srt (subtitles : list SubtitleBlock) : str :=
  concat (map write_block (sorted_by_index subtitles)).

(** ** The translation backend and the effects of the translator *)

(** What a prompt is built from: [create_translation_prompt(text, context)]
    and [create_batch_prompt(texts, context)], which keeps the first 200
    characters of the context. The fixed wording of the prompts and the
    replacement of sound tags in them only reach the backend. *)
Inductive Request :=
  | SingleRequest (text context : str)
  | BatchRequest (texts : list str) (context : str).

(** What a call to the completion API gives: an exception, or the content
    of the first choice, which may be absent. *)
Inductive Completion :=
  | Raises
  | Returns (content : option str).

(** The backend: the outcome of the n-th call of the run. *)
Definition Backend := nat -> Request -> Completion.

Inductive Event :=
  | ApiCall (request : Request)
  | Sleep (milliseconds : N)
  | Log (level : LogLevel).

Record World := {
  calls : nat;
  events : list Event
}.

Definition M (A : Type) : Type := World -> A * World.

Definition ret {A : Type} (a : A) : M A := fun w => (a, w).

Definition bind {A B : Type} (m : M A) (f : A -> M B) : M B :=
  fun w => let (a, w') := m w in f a w'.

Notation "x <- m ;; f" := (bind m (fun x => f))
  (at level 100, m at next level, right associativity).
Notation "m ;;; f" := (bind m (fun _ => f))
  (at level 100, right associativity).

Definition emit (e : Event) : M unit :=
  fun w => (tt, {| calls := calls w; events := events w ++ [e] |}).

(** [time.sleep(seconds)] for a whole number of seconds. *)
Definition sleep (seconds : N) : M unit := emit (Sleep (1000 * seconds)).

(** [GroqTranslator._call_api]: the stripped content when the completion
    has content, [None] otherwise; an exception is logged. *)
Definition _call_api (backend : Backend) (request : Request) : M (option str) :=
  emit (ApiCall request) ;;;
  fun w =>
    match backend (calls w) request with
    | Returns (Some content) =>
        (if truthy content then Some (strip content) else None,
         {| calls := S (calls w); events := events w |})
    | Returns None => (None, {| calls := S (calls w); events := events w |})
    | Raises =>
        (None, {| calls := S (calls w); events := events w ++ [Log ERROR] |})
    end.

(** The two labels of the pattern of [translate_text]; their letters have
    no case, so [re.IGNORECASE] changes nothing. *)
Definition label_long : str :=
  [1578; 1585; 1580; 1605; 1607; 32; 1601; 1575; 1585; 1587; 1740; 58]%N.
Definition label_short : str :=
  [1578; 1585; 1580; 1605; 1607; 58]%N.

(** The pattern of [translate_text] after its [^]: the label, then [\s*]. *)
Definition label_pattern : str -> option str :=
  alt (literal label_long) (literal label_short)
      (star is_space (fun rest => Some rest)).

(** [re.sub(r'^(label_long|label_short)\s*', '', s)]: the pattern can only
    match at the start of the string. *)
Definition strip_label (s : str) : str :=
  match label_pattern s with
  | Some rest => rest
  | None => s
  end.

(** [if result:] for an [Optional[str]]: the string when it is set and
    non-empty. *)
Definition usable (result : option str) : option str :=
  match result with
  | Some r => if truthy r then Some r else None
  | None => None
  end.

(** The wait after the failed attempt number [attempt]: none after the
    last attempt. *)
Definition backoff (retry_count attempt : nat) : M unit :=
  if (Z.of_nat attempt <? Z.of_nat retry_count - 1)%Z then
    emit (Log WARNING) ;;; sleep (2 ^ N.of_nat attempt)
  else ret tt.

(** The loop [for attempt in range(retry_count)] of [translate_text];
    [Some] is the value of the [return] inside the loop. *)
Fixpoint translate_text_attempts (backend : Backend) (request : Request)
    (retry_count : nat) (attempts : list nat) : M (option str) :=
  match attempts with
  | [] => ret None
  | attempt :: later =>
      result <- _call_api backend request ;;
      match usable result with
      | Some r => ret (Some (strip_label (strip r)))
      | None =>
          backoff retry_count attempt ;;;
          translate_text_attempts backend request retry_count later
      end
  end.

(** [GroqTranslator.translate_text] *)
Definition translate_text (backend : Backend) (text context : str)
    (retry_count : nat) : M str :=
  r <- translate_text_attempts backend (SingleRequest text context)
         retry_count (seq 0 retry_count) ;;
  match r with
  | Some t => ret t
  | None => emit (Log ERROR) ;;; ret text
  end.

(** The default of the parameter [retry_count]. *)
Definition default_retry_count : nat := 3.

(** ** The batch loop *)

Definition is_lbracket (c : char) : bool := (c =? 91)%N.
Definition is_rbracket (c : char) : bool := (c =? 93)%N.

(** The pattern of [translate_batch], with [re.DOTALL]:
<<
  \[(\d+)\]\s*(.*?)(?=\n\s*\[\d+\]|\Z)
>>
    The result holds the two groups and the input left after the match. *)
Definition marker_pattern : str -> option (str * str * str) :=
  chr is_lbracket (capture (plus is_digit) (fun g1 =>
  chr is_rbracket (star is_space (
  capture (lazy_star any_char) (fun g2 =>
  lookahead
    (alt (fun k => chr is_lf (star is_space (chr is_lbracket
                     (plus is_digit (chr is_rbracket k)))))
         eos)
    (fun rest => Some (g1, g2, rest))))))).

(** [re.findall(pattern, result, flags=re.DOTALL)]: the pairs of groups of
    the successive matches; [skip] as in [finditer_blocks]. *)
Fixpoint findall_markers (skip : nat) (s : str) : list (str * str) :=
  match s with
  | [] => []
  | _ :: s' =>
      match skip with
      | S n => findall_markers n s'
      | O =>
          match marker_pattern s with
          | Some (g1, g2, rest) =>
              (g1, g2) :: findall_markers (length s - length rest - 1) s'
          | None => findall_markers 0 s'
          end
      end
  end.

(** [re.sub(r'\n{3,}', '\n\n', s)] *)
Fixpoint collapse_newlines (skip : nat) (s : str) : str :=
  match s with
  | [] => []
  | c :: s' =>
      match skip with
      | S n => collapse_newlines n s'
      | O =>
          match rep_ge 3 is_lf (fun rest => Some rest) s with
          | Some rest =>
              LF :: LF :: collapse_newlines (length s - length rest - 1) s'
          | None => c :: collapse_newlines 0 s'
          end
      end
  end.

(** The separator of the context parts. *)
Definition context_separator : str := [32; 8592; 32]%N.

(** The context of the batch that starts at position [i]: the translations
    of [subtitles[max(0, i - 3):i]] that are set and non-empty, 50
    characters of each. *)
Definition batch_context (subtitles : list SubtitleBlock) (i : nat) : str :=
  if 0 <? i then
    join context_separator
      (omap (fun sub =>
               match translated_text sub with
               | Some t => if truthy t then Some (take 50 t) else None
               | None => None
               end)
            (drop (i - 3) (take i subtitles)))
  else [].

(** [sub.translated_text = t] for the object at position [j]; [batch] is a
    slice of [subtitles], so [batch[k]] is the object at position [i + k]
    of [subtitles]. *)
Definition set_translated (j : nat) (t : str) (subtitles : list SubtitleBlock)
    : list SubtitleBlock :=
  alter (with_translation t) j subtitles.

Definition text_at (subtitles : list SubtitleBlock) (j : nat) : str :=
  match subtitles !! j with
  | Some sub => text sub
  | None => []
  end.

Definition translated_at (subtitles : list SubtitleBlock) (j : nat) : option str :=
  match subtitles !! j with
  | Some sub => translated_text sub
  | None => None
  end.

(** The state of the loop of [translate_batch]: the subtitles and
    [translated_count]. *)
Definition BatchState : Type := list SubtitleBlock * nat.

(** The per-item step of both fallback loops, for the block at position
    [j]:
<<
  sub.translated_text = self.translate_text(sub.text, context)
  translated_count += 1
>> *)
Definition translate_item (backend : Backend) (context : str) (j : nat)
    (st : BatchState) : M BatchState :=
  t <- translate_text backend (text_at (fst st) j) context
         default_retry_count ;;
  ret (set_translated j t (fst st), S (snd st)).

(** The loop after a failed batch call: every block of the batch goes
    through [translate_text]. [positions] are the positions of the batch. *)
Fixpoint translate_each (backend : Backend) (context : str)
    (positions : list nat) (st : BatchState) : M BatchState :=
  match positions with
  | [] => ret st
  | j :: later =>
      st' <- translate_item backend context j st ;;
      translate_each backend context later st'
  end.

(** The loop after a response without a usable marker: the blocks of the
    batch without a translation go through [translate_text]. *)
Fixpoint translate_missing (backend : Backend) (context : str)
    (positions : list nat) (st : BatchState) : M BatchState :=
  match positions with
  | [] => ret st
  | j :: later =>
      if truthy_opt (translated_at (fst st) j) then
        translate_missing backend context later st
      else
        st' <- translate_item backend context j st ;;
        translate_missing backend context later st'
  end.

(** One step of the loop over [pairs]: the subtitles, [translated_count]
    and [translations_applied]. [i] is where the batch starts and [len] its
    length. *)
Definition apply_pair (i len : nat) (st : BatchState * bool)
    (pair : str * str) : BatchState * bool :=
  let idx_local := (int_of_digits (fst pair) - 1)%Z in
  if ((0 <=? idx_local) && (idx_local <? Z.of_nat len))%Z then
    let clean_translation := collapse_newlines 0 (strip (snd pair)) in
    ((set_translated (i + Z.to_nat idx_local) clean_translation (fst (fst st)),
      S (snd (fst st))), true)
  else st.

Definition apply_pairs (i len : nat) (pairs : list (str * str))
    (st : BatchState) : BatchState * bool :=
  fold_left (apply_pair i len) pairs (st, false).

(** The length of [subtitles[i:i + batch_size]]. *)
Definition batch_length (subtitles : list SubtitleBlock) (i batch_size : nat) : nat :=
  length (take batch_size (drop i subtitles)).

(** The body of the loop of [translate_batch] for the batch that starts
    at position [i]. *)
Definition translate_one_batch (backend : Backend) (batch_size i : nat)
    (st : BatchState) : M BatchState :=
  let len := batch_length (fst st) i batch_size in
  let positions := seq i len in
  let batch_texts := map (text_at (fst st)) positions in
  let context := batch_context (fst st) i in
  result <- _call_api backend (BatchRequest batch_texts (take 200 context)) ;;
  match usable result with
  | Some r =>
      let pairs := findall_markers 0 r in
      let '(st', translations_applied) := apply_pairs i len pairs st in
      st'' <- (if translations_applied then ret st'
               else emit (Log WARNING) ;;;
                    translate_missing backend context positions st') ;;
      emit (Log INFO) ;;;
      emit (Sleep 500) ;;;
      ret st''
  | None =>
      emit (Log WARNING) ;;;
      st' <- translate_each backend context positions st ;;
      sleep 1 ;;;
      ret st'
  end.

(** [range(0, total, batch_size)] for a positive [batch_size]; [fuel]
    bounds the number of batches. *)
Fixpoint batch_starts (fuel total batch_size i : nat) : list nat :=
  match fuel with
  | O => []
  | S fuel' =>
      if i <? total then i :: batch_starts fuel' total batch_size (i + batch_size)
      else []
  end.

Fixpoint translate_batches (backend : Backend) (batch_size : nat)
    (starts : list nat) (st : BatchState) : M BatchState :=
  match starts with
  | [] => ret st
  | i :: later =>
      st' <- translate_one_batch backend batch_size i st ;;
      translate_batches backend batch_size later st'
  end.

(** [GroqTranslator.translate_batch]. [range] raises [ValueError] for a
    step of zero ([None]) and is empty for a negative step. *)
Definition translate_batch (backend : Backend) (subtitles : list SubtitleBlock)
    (batch_size : Z) : M (option (list SubtitleBlock)) :=
  match batch_size with
  | Z0 => ret None
  | Zneg _ => ret (Some subtitles)
  | Zpos p =>
      let total := length subtitles in
      st <- translate_batches backend (Pos.to_nat p)
              (batch_starts total total (Pos.to_nat p) 0) (subtitles, 0) ;;
      ret (Some (fst st))
  end.

(** The count of the final summary of [translate_file]:
    [sum(1 for s in translated_subtitles if s.translated_text)]. *)
Definition success_count (subtitles : list SubtitleBlock) : nat :=
  length (List.filter (fun s => truthy_opt (translated_text s)) subtitles).

(** What [translate_file] leaves behind: the text of the output file and
    the count of the summary. *)
Record Outcome := {
  written : str;
  summary_count : nat;
  summary_total : nat
}.

Fixpoint emit_all (evs : list Event) : M unit :=
  match evs with
  | [] => ret tt
  | e :: later => emit e ;;; emit_all later
  end.

(** [SRTTranslationManager.translate_file], for an output file that can be
    written: [None] when the reader gives no block (the function returns
    [None] before translating) or when [translate_batch] raises. *)
Definition translate_file (backend : Backend) (file : ReadResult)
    (batch_size : Z) : M (option Outcome) :=
  emit (Log INFO) ;;;
  emit (Log INFO) ;;;
  let '(records, subtitles) := parse_srt file in
  emit_all (map Log records) ;;;
  if bool_decide (subtitles = []) then emit (Log ERROR) ;;; ret None
  else
    translated <- translate_batch backend subtitles batch_size ;;
    match translated with
    | None => ret None
    | Some translated_subtitles =>
        emit (Log INFO) ;;;
        emit (Log INFO) ;;;
        emit (Log INFO) ;;;
        (if success_count translated_subtitles <? length subtitles
         then emit (Log WARNING) else ret tt) ;;;
        ret (Some {| written := write_srt translated_subtitles;
                     summary_count := success_count translated_subtitles;
                     summary_total := length subtitles |})
    end.

(** ** The prompt builders

    What [create_translation_prompt] and [create_batch_prompt] compute
    from their arguments: the text with its sound tags replaced and the
    numbered list of the batch. The fixed wording that the two functions
    put around these parts is not modelled. *)

(** [s.startswith(w)] *)
Fixpoint starts_with (w s : str) : bool :=
  match w with
  | [] => true
  | x :: w' =>
      match s with
      | c :: s' => (x =? c)%N && starts_with w' s'
      | [] => false
      end
  end.

(** The scan of [s.replace(old, new)] for a non-empty [old]: the
    occurrences of [old], found from left to right without overlap, become
    [new]; [skip] counts the characters still inside the occurrence that
    was just replaced. *)
Fixpoint replace_from (old new : str) (skip : nat) (s : str) : str :=
  match s with
  | [] => []
  | c :: s' =>
      match skip with
      | S n => replace_from old new n s'
      | O =>
          if starts_with old s then new ++ replace_from old new (length old - 1) s'
          else c :: replace_from old new 0 s'
      end
  end.

(** [s.replace(old, new)]; an empty [old] matches before every character
    and at the end. *)
Definition str_replace (old new s : str) : str :=
  match old with
  | [] => new ++ flat_map (fun c => c :: new) s
  | _ :: _ => replace_from old new 0 s
  end.

(** [self.sound_tags]: the sound tags of the source language and their
    translations, in the order of the dictionary. *)
Definition sound_tags : list (str * str) :=
  [ (lit "[musikk]", [91; 1605; 1608; 1587; 1740; 1602; 1740; 93]%N);
    (lit "[latter]", [91; 1582; 1606; 1583; 1607; 93]%N);
    (lit "[applaus]", [91; 1578; 1588; 1608; 1740; 1602; 93]%N);
    (lit "[hosting]", [91; 1587; 1585; 1601; 1607; 93]%N);
    (lit "[sukking]", [91; 1570; 1607; 32; 1705; 1588; 1740; 1583; 1606; 93]%N);
    ([91; 103; 114; 229; 116; 93]%N, [91; 1711; 1585; 1740; 1607; 93]%N);
    (lit "[hvisking]", [91; 1586; 1605; 1586; 1605; 1607; 93]%N);
    (lit "[skriking]", [91; 1580; 1740; 1594; 93]%N);
    (lit "[klapping]", [91; 1705; 1601; 32; 1586; 1583; 1606; 93]%N) ].

(** The loop of both prompt builders over the table:
<<
  for nor_tag, per_tag in self.sound_tags.items():
      text = text.replace(nor_tag, per_tag)
>> *)
Definition replace_sound_tags (text : str) : str :=
  fold_left (fun t tag => str_replace (fst tag) (snd tag) t) sound_tags text.

(** [processed_texts] of [create_batch_prompt]. *)
Definition processed_texts (texts : list str) : list str :=
  map replace_sound_tags texts.

(** One entry of a numbered list: [f"[{i+1}]"], the text [gap], then the
    text of the entry. *)
Definition numbered_item (gap : str) (i : nat) (t : str) : str :=
  [91%N] ++ str_of_int (Z.of_nat i + 1) ++ [93%N] ++ gap ++ t.

(** [numbered_texts] of [create_batch_prompt]:
<<
  "\n\n".join([f"[{i+1}]\n{text}" for i, text in enumerate(processed_texts)])
>> *)
Definition numbered_texts (processed : list str) : str :=
  join [LF; LF] (imap (numbered_item [LF]) processed).

(** ** Notions used in the statements *)

(** The waits of a run, in milliseconds, in the order they happen. *)
Definition sleeps (evs : list Event) : list N :=
  flat_map (fun e => match e with Sleep ms => [ms] | _ => [] end) evs.

(** The fields of a block other than [translated_text]. *)
Definition fixed_fields (sub : SubtitleBlock) : Z * str * str * str :=
  (index sub, start_time sub, end_time sub, text sub).

(** The block with [translated_text] unset. *)
Definition untranslated (sub : SubtitleBlock) : SubtitleBlock :=
  {| index := index sub; start_time := start_time sub;
     end_time := end_time sub; text := text sub;
     translated_text := None |}.

(** The result of [_call_api] for the call number [n]. *)
Definition api_result (backend : Backend) (n : nat) (request : Request)
    : option str :=
  fst (_call_api backend request {| calls := n; events := [] |}).

(** The events of the call number [n]. *)
Definition call_events (backend : Backend) (n : nat) (request : Request)
    : list Event :=
  events (snd (_call_api backend request {| calls := n; events := [] |})).

(** A backend that fails at every call. *)
Definition failing_backend : Backend := fun _ _ => Raises.

(** A backend that gives the same content at every call. *)
Definition constant_backend (content : str) : Backend :=
  fun _ _ => Returns (Some content).

Definition initial_world : World := {| calls := 0; events := [] |}.

(** The whole string is a timestamp [\d{2}:\d{2}:\d{2}[,\.]\d{3}]. *)
Definition is_timestamp (t : str) : bool :=
  match timestamp (fun rest => Some rest) t with
  | Some [] => true
  | _ => false
  end.

(** The events of the attempt number [attempt] of [translate_text], made
    with the call number [n], when the call gives nothing usable. *)
Definition failed_attempt_events (backend : Backend) (request : Request)
    (retry_count n attempt : nat) : list Event :=
  call_events backend n request ++
  (if (Z.of_nat attempt <? Z.of_nat retry_count - 1)%Z
   then [Log WARNING; Sleep (1000 * 2 ^ N.of_nat attempt)]
   else []).

(** The position in [subtitles] that a pair of the batch response
    addresses: the marker [m] with [1 <= m <= len] stands for the [m]-th
    block of the batch that starts at position [i]. *)
Definition marker_position (i len : nat) (pair : str * str) : option nat :=
  let m := int_of_digits (fst pair) in
  if ((1 <=? m) && (m <=? Z.of_nat len))%Z then Some (i + Z.to_nat (m - 1))
  else None.

(** The segment as it is stored: trimmed, runs of three or more newlines
    collapsed to two. *)
Definition clean_segment (segment : str) : str :=
  collapse_newlines 0 (strip segment).

(** The request of the batch that starts at position [i]. *)
Definition batch_request (subtitles : list SubtitleBlock) (batch_size i : nat)
    : Request :=
  BatchRequest
    (map (text_at subtitles) (seq i (batch_length subtitles i batch_size)))
    (take 200 (batch_context subtitles i)).

(** The order of the writer's sort. *)
Definition index_le (a b : SubtitleBlock) : Prop := (index a <= index b)%Z.

(** The input does not start with a character of the class [p]. *)
Definition head_fails (p : char -> bool) (s : str) : Prop :=
  match s with
  | c :: _ => p c = false
  | [] => True
  end.

(** The string has one character of each class, in order. *)
Fixpoint fits (classes : list (char -> bool)) (t : str) : bool :=
  match classes, t with
  | [], [] => true
  | p :: classes', c :: t' => p c && fits classes' t'
  | _, _ => false
  end.

(** The character classes of a timestamp. *)
Definition timestamp_classes : list (char -> bool) :=
  [is_digit; is_digit; is_colon; is_digit; is_digit; is_colon;
   is_digit; is_digit; is_ms_sep; is_digit; is_digit; is_digit].

(** The lookahead of the block pattern holds at this input:
    [(?=\n{2,}\d+\s*\n|\Z)]. *)
Definition boundary (s : str) : bool :=
  match alt (fun k => rep_ge 2 is_lf (plus is_digit (star is_space (chr is_lf k))))
            eos (fun _ => Some tt) s with
  | Some _ => true
  | None => false
  end.

(** The input without its leading characters of the class [p]. *)
Fixpoint drop_while (p : char -> bool) (s : str) : str :=
  match s with
  | c :: s' => if p c then drop_while p s' else s
  | [] => []
  end.

(** The text ends with two or more newlines followed by one or more
    decimal digits: its last line looks like the index line of a block
    after an empty line. *)
Definition ends_like_index (t : str) : bool :=
  match rev t with
  | d :: r =>
      is_digit d &&
      match drop_while is_digit r with
      | a :: b :: _ => is_lf a && is_lf b
      | _ => false
      end
  | [] => false
  end.

(** A non-empty string without whitespace at either end: what [strip]
    leaves of a string that is not all whitespace. *)
Definition trimmed (t : str) : Prop :=
  t <> [] /\ head_fails is_space t /\ head_fails is_space (rev t).

(** The input starts with two or more newlines, then one or more digits,
    then whitespace up to a newline: the first alternative of the
    lookahead of the block pattern. *)
Definition at_boundary (s : str) : Prop :=
  exists nl digits ws more,
    s = nl ++ digits ++ ws ++ LF :: more
    /\ 2 <= length nl /\ forallb is_lf nl = true
    /\ digits <> [] /\ forallb is_digit digits = true
    /\ forallb is_space ws = true.

(** The body text the writer emits for a block. *)
Definition body_text (sub : SubtitleBlock) : str :=
  strip (translated_or_text sub).

(** The block that its written form stands for: the body text as the
    text, no translation. *)
Definition reread (sub : SubtitleBlock) : SubtitleBlock :=
  {| index := index sub; start_time := start_time sub;
     end_time := end_time sub; text := body_text sub;
     translated_text := None |}.

(** No proper suffix of the text, followed by the empty line the writer
    adds and by whatever comes next, satisfies the lookahead of the block
    pattern. *)
Definition inner_free (t : str) : Prop :=
  forall a b tail,
    t = a ++ b -> b <> [] -> boundary (b ++ [LF; LF] ++ tail) = false.

(** A block whose written form the reader takes back as one block. *)
Definition writable (sub : SubtitleBlock) : Prop :=
  (0 <= index sub)%Z
  /\ fits timestamp_classes (start_time sub) = true
  /\ fits timestamp_classes (end_time sub) = true
  /\ ~ In DOT (start_time sub) /\ ~ In DOT (end_time sub)
  /\ trimmed (body_text sub)
  /\ inner_free (body_text sub).

(** [w in s] *)
Fixpoint contains (w s : str) : bool :=
  starts_with w s ||
  match s with
  | _ :: s' => contains w s'
  | [] => false
  end.

(** The text [w] occurs in [s]. *)
Definition occurs_in (w s : str) : Prop := exists a b, s = a ++ w ++ b.

(** The document with every line end [\n] written as [\r\n]. *)
Definition with_crlf (s : str) : str :=
  flat_map (fun c => if is_lf c then [CR; LF] else [c]) s.

(** The document with every line end [\n] written as [\r]. *)
Definition with_cr (s : str) : str := replace_char LF CR s.

(** The text has no empty line inside: no two consecutive newlines. *)
Fixpoint blank_line_free (t : str) : bool :=
  match t with
  | a :: t' =>
      match t' with
      | b :: _ => negb (is_lf a && is_lf b) && blank_line_free t'
      | [] => true
      end
  | [] => true
  end.

(** A block as a subtitle file holds it: an index that is not negative, two
    timestamps with a comma, and a body (the translation when there is one,
    the source text otherwise, trimmed) that is not empty and has neither a
    carriage return nor an empty line inside. *)
Definition well_formed (sub : SubtitleBlock) : Prop :=
  (0 <= index sub)%Z
  /\ is_timestamp (start_time sub) = true /\ ~ In DOT (start_time sub)
  /\ is_timestamp (end_time sub) = true /\ ~ In DOT (end_time sub)
  /\ body_text sub <> []
  /\ ~ In CR (body_text sub)
  /\ blank_line_free (body_text sub) = true.

(** A block as a file may hold it: the written form of the block with the
    text [extra] after the end time on the timing line. *)
Definition write_block_with (extra : str) (sub : SubtitleBlock) : str :=
  (str_of_int (index sub) ++ [LF])
  ++ (start_time sub ++ lit " --> " ++ end_time sub ++ extra ++ [LF])
  ++ (body_text sub ++ [LF; LF]).

(** The text has no three consecutive newlines. *)
Fixpoint triple_lf_free (s : str) : bool :=
  match s with
  | a :: s' =>
      match s' with
      | b :: c :: _ => negb (is_lf a && is_lf b && is_lf c) && triple_lf_free s'
      | _ => true
      end
  | [] => true
  end.

(** The time a run has waited, in milliseconds. *)
Definition total_wait (evs : list Event) : N :=
  fold_right N.add 0%N (sleeps evs).

(** The time an event waits, in milliseconds. *)
Definition wait_of (e : Event) : N :=
  match e with
  | Sleep ms => ms
  | _ => 0%N
  end.

(** The run of [m] from [w] makes between [cmin] and [cmax] calls to the
    backend and waits between [tmin] and [tmax] milliseconds. *)
Definition costs {A : Type} (m : M A) (w : World)
    (cmin cmax : nat) (tmin tmax : N) : Prop :=
  calls w + cmin <= calls (snd (m w)) <= calls w + cmax
  /\ (total_wait (events w) + tmin <= total_wait (events (snd (m w)))
      <= total_wait (events w) + tmax)%N.

(** The number of batches of [translate_batch]: the length of
    [range(0, total, batch_size)]. *)
Definition batch_count (total batch_size : nat) : nat :=
  (total + batch_size - 1) / batch_size.

(** The positions of the batches that start at [starts] in a list of
    [total] blocks, batch after batch. *)
Definition batch_positions (total batch_size : nat) (starts : list nat)
    : list nat :=
  concat (map (fun i => seq i (Nat.min batch_size (total - i))) starts).

(** The block with its own source text as its translation. *)
Definition own_text (sub : SubtitleBlock) : SubtitleBlock :=
  with_translation (text sub) sub.

(** Every block at one of the positions given its own source text as
    translation. *)
Definition own_text_at (positions : list nat) (subtitles : list SubtitleBlock)
    : list SubtitleBlock :=
  foldl (fun l j => alter own_text j l) subtitles positions.


(** A response in the format that the batch prompt asks for: the lines
    [[1] t1], [[2] t2], ... *)
Definition numbered_lines (translations : list str) : str :=
  join [LF] (imap (numbered_item [32%N]) translations).

(** The lookahead of the marker pattern holds at this input:
    [(?=\n\s*\[\d+\]|\Z)]. *)
Definition marker_ahead (s : str) : bool :=
  match alt (fun k => chr is_lf (star is_space (chr is_lbracket
                        (plus is_digit (chr is_rbracket k)))))
            eos (fun _ => Some tt) s with
  | Some _ => true
  | None => false
  end.

(** No line of the text after the first is a marker [[digits]], with or
    without whitespace before it. *)
Fixpoint marker_free (t : str) : bool :=
  match t with
  | [] => true
  | _ :: t' => negb (marker_ahead t) && marker_free t'
  end.

(** A segment that the marker pattern reads as it is: not empty, without
    whitespace at either end, and without a marker line inside. *)
Definition plain_segment (t : str) : Prop :=
  trimmed t /\ marker_free t = true.

(** The first character after the opening bracket of a tag: a tag is an
    opening bracket followed by one or more characters other than an
    opening bracket. *)
Definition tag_letter (w : str) : option char :=
  match w with
  | b :: x :: w' =>
      if is_lbracket b && negb (existsb is_lbracket (x :: w')) then Some x
      else None
  | _ => None
  end.

(** Every source tag and every translated tag of the table is a tag, and
    no source tag begins with the letter a translated tag begins with. *)
Definition tags_distinct (tags : list (str * str)) : bool :=
  forallb
    (fun tag =>
       forallb
         (fun tag' =>
            match tag_letter (fst tag), tag_letter (snd tag') with
            | Some x, Some y => negb (x =? y)%N
            | _, _ => false
            end)
         tags)
    tags.

(** The translation that the block at position [j] gets from the list
    [translations], one translation per block: the segment as it is
    stored. *)
Definition translation_at (translations : list str) (j : nat) : str :=
  collapse_newlines 0 (default [] (translations !! j)).

(** The blocks with the translations of the list at the given positions. *)
Definition translated_at_positions (translations : list str)
    (positions : list nat) (subtitles : list SubtitleBlock) (j : nat)
    : option SubtitleBlock :=
  if bool_decide (j ∈ positions)
  then with_translation (translation_at translations j) <$> subtitles !! j
  else subtitles !! j.

(** ** Inputs of the examples *)

Definition empty_translation_block : SubtitleBlock :=
  {| index := 7; start_time := lit "00:00:01,000";
     end_time := lit "00:00:02,500"; text := lit "Hei";
     translated_text := Some [] |}.

Definition three_blocks : list SubtitleBlock :=
  [ {| index := 10; start_time := lit "00:00:01,000";
       end_time := lit "00:00:02,500"; text := lit "Hei";
       translated_text := None |};
    {| index := 11; start_time := lit "00:00:03,000";
       end_time := lit "00:00:04,000"; text := lit "Takk";
       translated_text := None |};
    {| index := 12; start_time := lit "00:00:05,000";
       end_time := lit "00:00:06,000"; text := lit "Ja";
       translated_text := None |} ].

(** The response [[1] A\n[2] B\n[3] C]. *)
Definition full_response : str :=
  lit "[1] A" ++ [LF] ++ lit "[2] B" ++ [LF] ++ lit "[3] C".

(** The response [[1] A\n[3] C]. *)
Definition partial_response : str :=
  lit "[1] A" ++ [LF] ++ lit "[3] C".

(** A document of two blocks whose timing lines use [.] before the
    milliseconds. *)
Definition dotted_document : str :=
  lit "1" ++ [LF] ++ lit "00:00:01.000 --> 00:00:02.500" ++ [LF]
  ++ lit "Hei" ++ [LF; LF]
  ++ lit "2" ++ [LF] ++ lit "00:00:03.000 --> 00:00:04.000" ++ [LF]
  ++ lit "Takk" ++ [LF].

(** A document of one block whose text ends with an empty line and a
    line of digits. *)
Definition digits_at_end_document : str :=
  lit "1" ++ [LF] ++ lit "00:00:01,000 --> 00:00:02,000" ++ [LF]
  ++ lit "abc" ++ [LF; LF] ++ lit "12".

(** A document of three blocks, out of order, one of two lines. *)
Definition shuffled_document : str :=
  lit "3" ++ [LF] ++ lit "00:00:05,000 --> 00:00:06,000" ++ [LF]
  ++ lit "Ja" ++ [LF; LF]
  ++ lit "1" ++ [LF] ++ lit "00:00:01.000 --> 00:00:02.500" ++ [LF]
  ++ lit "Hei" ++ [LF] ++ lit "du" ++ [LF; LF]
  ++ lit "2" ++ [LF] ++ lit "00:00:03,000 --> 00:00:04,000" ++ [LF]
  ++ lit "Takk" ++ [LF].

(** The three blocks with the translations [A], [B] and [C]. *)
Definition translated_blocks : list SubtitleBlock :=
  zip_with with_translation [lit "A"; lit "B"; lit "C"] three_blocks.


(** A backend that gives the answers of a list, call after call, and
    fails once the list is used up. *)
Definition scripted_backend (answers : list str) : Backend :=
  fun n _ =>
    match answers !! n with
    | Some answer => Returns (Some answer)
    | None => Raises
    end.

(** * Properties *)

(** ** Characters *)

Lemma is_space_elem c : is_space c = true -> c ∈ whitespace.
Proof.
  unfold is_space. intros H. apply existsb_exists in H as (x & Hx & He).
  apply N.eqb_eq in He. subst x. by apply list_elem_of_In.
Qed.

Lemma space_not_digit c : is_space c = true -> is_digit c = false.
Proof.
  intros H. apply is_space_elem in H. unfold whitespace in H.
  repeat (apply elem_of_cons in H as [->|H]; [reflexivity|]).
  by apply elem_of_nil in H.
Qed.

Lemma digit_not_space c : is_digit c = true -> is_space c = false.
Proof.
  intros H. destruct (is_space c) eqn:Hs; [|done].
  apply space_not_digit in Hs. congruence.
Qed.

Lemma is_lf_eq c : is_lf c = true -> c = LF.
Proof. unfold is_lf. apply N.eqb_eq. Qed.

Lemma lf_is_space c : is_lf c = true -> is_space c = true.
Proof. intros ->%is_lf_eq. reflexivity. Qed.

Lemma digit_not_lf c : is_digit c = true -> is_lf c = false.
Proof.
  intros H. destruct (is_lf c) eqn:Hl; [|done].
  apply lf_is_space in Hl. apply digit_not_space in H. congruence.
Qed.

(** ** [strip] *)

Lemma lstrip_spec s :
  exists lead, s = lead ++ lstrip s
               /\ forallb is_space lead = true
               /\ head_fails is_space (lstrip s).
Proof.
  induction s as [|c s (lead & Hs & Hl & Hh)]; simpl.
  - by exists [].
  - destruct (is_space c) eqn:Hc.
    + exists (c :: lead). simpl. rewrite Hc, Hl. by rewrite <- Hs.
    + exists []. simpl. by rewrite Hc.
Qed.

Lemma lstrip_stop s : head_fails is_space s -> lstrip s = s.
Proof. destruct s as [|c s]; simpl; [done|]. by intros ->. Qed.

Lemma lstrip_spaces ws s :
  forallb is_space ws = true -> lstrip (ws ++ s) = lstrip s.
Proof.
  induction ws as [|c ws IH]; simpl; [done|].
  intros H. apply andb_true_iff in H as [-> H]. by apply IH.
Qed.

Lemma forallb_rev (p : char -> bool) s : forallb p (rev s) = forallb p s.
Proof.
  induction s as [|c s IH]; simpl; [done|].
  rewrite forallb_app, IH. simpl. rewrite andb_true_r. apply andb_comm.
Qed.

Lemma head_fails_app p (s t : str) :
  s <> [] -> head_fails p s -> head_fails p (s ++ t).
Proof. by destruct s. Qed.

Lemma strip_spec s :
  exists lead trail,
    s = lead ++ strip s ++ trail
    /\ forallb is_space lead = true /\ forallb is_space trail = true
    /\ (strip s <> [] -> trimmed (strip s)).
Proof.
  destruct (lstrip_spec s) as (lead & Hs & Hlead & Hhead).
  destruct (lstrip_spec (rev (lstrip s))) as (trail & Hr & Htrail & Hlast).
  exists lead, (rev trail). unfold strip, rstrip.
  assert (Hl : lstrip s = rev (lstrip (rev (lstrip s))) ++ rev trail).
  { rewrite <- rev_app_distr, <- Hr. by rewrite rev_involutive. }
  split; [by rewrite <- Hl|].
  split; [done|]. split; [by rewrite forallb_rev|].
  intros Hne. split; [done|]. split.
  - rewrite Hl in Hhead. 
    destruct (rev (lstrip (rev (lstrip s)))); [done|]. exact Hhead.
  - by rewrite rev_involutive.
Qed.

Lemma strip_trimmed t ws :
  trimmed t -> forallb is_space ws = true -> strip (t ++ ws) = t.
Proof.
  intros (Hne & Hh & Hl) Hws. unfold strip, rstrip.
  rewrite (lstrip_stop (t ++ ws)) by (by apply head_fails_app).
  rewrite rev_app_distr, lstrip_spaces by (by rewrite forallb_rev).
  rewrite lstrip_stop by done. apply rev_involutive.
Qed.

Lemma strip_fixed t : trimmed t -> strip t = t.
Proof.
  intros Ht. rewrite <- (app_nil_r t) at 1. by apply strip_trimmed.
Qed.

(** ** Decimal text of an index *)

Lemma uint_chars_digits u : forallb is_digit (uint_chars u) = true.
Proof.
  induction u; simpl; [done|..]; rewrite IHu; reflexivity.
Qed.

Ltac eval_digit_values :=
  repeat match goal with
         | |- context [digit_value ?c] =>
             let v := eval vm_compute in (digit_value c) in
             change (digit_value c) with v
         end.

Lemma fold_uint_chars_acc u : forall acc : positive,
  fold_left (fun a c => (10 * a + Z.of_N (default 0%N (digit_value c)))%Z)
            (uint_chars u) (Zpos acc)
  = Zpos (Pos.of_uint_acc u acc).
Proof.
  induction u; intros acc; cbn [uint_chars fold_left Pos.of_uint_acc];
    [done|..];
    eval_digit_values; cbn [default Z.of_N from_option id];
    rewrite <- IHu; f_equal; lia.
Qed.

Lemma int_of_uint_chars u :
  int_of_digits (uint_chars u) = Z.of_N (Pos.of_uint u).
Proof.
  unfold int_of_digits.
  induction u; cbn [uint_chars fold_left Pos.of_uint]; [done|exact IHu|..];
    eval_digit_values; cbn [default Z.of_N from_option id Z.add Z.mul];
    apply fold_uint_chars_acc.
Qed.

Lemma int_of_str_of_int (n : Z) :
  (0 <= n)%Z -> int_of_digits (str_of_int n) = n.
Proof.
  destruct n as [|p|p]; intros Hn; [reflexivity| |lia].
  simpl. rewrite int_of_uint_chars.
  by rewrite DecimalPos.Unsigned.of_to.
Qed.

Lemma str_of_int_digits (n : Z) :
  (0 <= n)%Z ->
  str_of_int n <> [] /\ forallb is_digit (str_of_int n) = true.
Proof.
  destruct n as [|p|p]; intros Hn; [done| |lia].
  simpl. split; [|apply uint_chars_digits].
  pose proof (DecimalPos.Unsigned.to_uint_nonnil p) as Hnil.
  by destruct (Pos.to_uint p).
Qed.

Lemma int_of_digits_nonneg s : (0 <= int_of_digits s)%Z.
Proof.
  unfold int_of_digits.
  assert (H : forall acc : Z, (0 <= acc)%Z ->
            (0 <= fold_left
                    (fun a c => 10 * a + Z.of_N (default 0%N (digit_value c)))
                    s acc)%Z).
  { induction s as [|c s IH]; intros acc Hacc; simpl; [done|].
    apply IH. lia. }
  by apply H.
Qed.

(** ** Matchers: the first choice succeeds *)

Section MatcherRuns.
Context {R : Type}.
Implicit Types (k : str -> option R) (p : char -> bool) (s : str).

Lemma star_stop p k s : head_fails p s -> star p k s = k s.
Proof. destruct s as [|c s]; simpl; [done|]. by intros ->. Qed.

Lemma star_greedy p k ws s r :
  forallb p ws = true -> head_fails p s -> k s = Some r ->
  star p k (ws ++ s) = Some r.
Proof.
  intros Hws Hs Hk. induction ws as [|c ws IH]; simpl.
  - by rewrite star_stop.
  - simpl in Hws. apply andb_true_iff in Hws as [-> Hws].
    by rewrite IH.
Qed.

Lemma plus_greedy p k c ws s r :
  p c = true -> forallb p ws = true -> head_fails p s -> k s = Some r ->
  plus p k (c :: ws ++ s) = Some r.
Proof.
  intros Hc Hws Hs Hk. unfold plus. simpl. rewrite Hc.
  by apply star_greedy.
Qed.

Lemma lazy_star_now p k s r : k s = Some r -> lazy_star p k s = Some r.
Proof. intros Hk. destruct s; simpl; by rewrite Hk. Qed.

Lemma lazy_star_skip p k pre s :
  forallb p pre = true ->
  (forall a b, pre = a ++ b -> b <> [] -> k (b ++ s) = None) ->
  lazy_star p k (pre ++ s) = lazy_star p k s.
Proof.
  induction pre as [|c pre IH]; intros Hp Hnone; [done|].
  simpl in Hp. apply andb_true_iff in Hp as [Hc Hp].
  cbn [app lazy_star].
  change (c :: pre ++ s) with ((c :: pre) ++ s).
  rewrite (Hnone [] (c :: pre)) by done. rewrite Hc.
  apply IH; [done|].
  intros a b -> Hb. by apply (Hnone (c :: a) b).
Qed.

Lemma literal_app w k s : literal w k (w ++ s) = k s.
Proof.
  induction w as [|c w IH]; simpl; [done|].
  by rewrite N.eqb_refl.
Qed.

Lemma captured pre s : take (length (pre ++ s) - length s) (pre ++ s) = pre.
Proof.
  rewrite length_app. replace (length pre + length s - length s) with (length pre) by lia.
  by rewrite take_app_length.
Qed.
End MatcherRuns.

(** ** Matchers: what a successful match has consumed *)

Section MatcherInversion.
Context {R : Type}.
Implicit Types (k : str -> option R) (p : char -> bool) (s : str).

Lemma chr_inv p k s r :
  chr p k s = Some r ->
  exists c s', s = c :: s' /\ p c = true /\ k s' = Some r.
Proof.
  destruct s as [|c s]; simpl; [done|].
  destruct (p c) eqn:Hc; [|done]. intros Hk. by exists c, s.
Qed.

Lemma star_inv p k s r :
  star p k s = Some r ->
  exists pre s', s = pre ++ s' /\ forallb p pre = true /\ k s' = Some r.
Proof.
  induction s as [|c s IH]; simpl.
  - intros Hk. by exists [], [].
  - destruct (p c) eqn:Hc.
    + destruct (star p k s) as [r'|] eqn:Hs.
      * intros [= ->]. destruct (IH eq_refl) as (pre & s' & -> & Hp & Hk).
        exists (c :: pre), s'. simpl. by rewrite Hc, Hp.
      * intros Hk. by exists [], (c :: s).
    + intros Hk. by exists [], (c :: s).
Qed.

Lemma plus_inv p k s r :
  plus p k s = Some r ->
  exists c pre s',
    s = c :: pre ++ s' /\ p c = true /\ forallb p pre = true /\ k s' = Some r.
Proof.
  unfold plus. intros (c & s0 & -> & Hc & Hs)%chr_inv.
  apply star_inv in Hs as (pre & s' & -> & Hp & Hk).
  by exists c, pre, s'.
Qed.

Lemma lazy_star_inv p k s r :
  lazy_star p k s = Some r ->
  exists pre s',
    s = pre ++ s' /\ forallb p pre = true /\ k s' = Some r
    /\ forall a b, pre = a ++ b -> b <> [] -> k (b ++ s') = None.
Proof.
  induction s as [|c s IH]; simpl.
  - destruct (k []) as [r'|] eqn:Hk; [|done]. intros [= ->].
    exists [], []. repeat split; try done.
    intros a b Hab Hb. by destruct a, b.
  - destruct (k (c :: s)) as [r'|] eqn:Hk.
    + intros [= ->]. exists [], (c :: s). repeat split; try done.
      intros a b Hab Hb. by destruct a, b.
    + destruct (p c) eqn:Hc; [|done].
      intros (pre & s' & -> & Hp & Hk' & Hmin)%IH.
      exists (c :: pre), s'. simpl. rewrite Hc, Hp. repeat split; try done.
      intros a b Hab Hb. destruct a as [|c' a]; simpl in Hab.
      * subst b. exact Hk.
      * injection Hab as -> ->. by apply (Hmin a b).
Qed.

Lemma literal_inv w k s r :
  literal w k s = Some r -> exists s', s = w ++ s' /\ k s' = Some r.
Proof.
  revert s. induction w as [|c w IH]; intros s; simpl.
  - intros Hk. by exists s.
  - intros (c' & s0 & -> & Hc & Hs)%chr_inv.
    apply N.eqb_eq in Hc as <-.
    apply IH in Hs as (s' & -> & Hk). by exists s'.
Qed.

Lemma rep_inv n p k s r :
  rep n p k s = Some r ->
  exists pre s',
    s = pre ++ s' /\ length pre = n /\ forallb p pre = true /\ k s' = Some r.
Proof.
  revert s. induction n as [|n IH]; intros s; simpl.
  - intros Hk. by exists [], s.
  - intros (c & s0 & -> & Hc & Hs)%chr_inv.
    apply IH in Hs as (pre & s' & -> & Hl & Hp & Hk).
    exists (c :: pre), s'. simpl. by rewrite Hc, Hp, Hl.
Qed.

(** A chain of single characters. *)
Lemma fits_run classes k : forall t s,
  fits classes t = true -> foldr chr k classes (t ++ s) = k s.
Proof.
  induction classes as [|p classes IH]; intros [|c t] s; simpl; try done.
  intros H. apply andb_true_iff in H as [-> Ht]. by apply IH.
Qed.

Lemma fits_inv classes k : forall s r,
  foldr chr k classes s = Some r ->
  exists t s', s = t ++ s' /\ fits classes t = true /\ k s' = Some r.
Proof.
  induction classes as [|p classes IH]; intros s r; simpl.
  - intros Hk. by exists [], s.
  - intros (c & s0 & -> & Hc & Hs)%chr_inv.
    apply IH in Hs as (t & s' & -> & Ht & Hk).
    exists (c :: t), s'. simpl. by rewrite Hc, Ht.
Qed.

Lemma timestamp_chain k : timestamp k = foldr chr k timestamp_classes.
Proof. reflexivity. Qed.

Lemma timestamp_run k t s :
  fits timestamp_classes t = true -> timestamp k (t ++ s) = k s.
Proof. rewrite timestamp_chain. apply fits_run. Qed.

Lemma timestamp_inv k s r :
  timestamp k s = Some r ->
  exists t s', s = t ++ s' /\ fits timestamp_classes t = true /\ k s' = Some r.
Proof. rewrite timestamp_chain. apply fits_inv. Qed.
End MatcherInversion.

Lemma is_timestamp_fits t : is_timestamp t = fits timestamp_classes t.
Proof.
  unfold is_timestamp.
  destruct (fits timestamp_classes t) eqn:Hf.
  - rewrite <- (app_nil_r t) at 1. by rewrite timestamp_run.
  - destruct (timestamp _ t) as [r|] eqn:Ht; [|done].
    apply timestamp_inv in Ht as (t' & s' & -> & Hf' & [= <-]).
    destruct s' as [|c s']; [|done]. rewrite app_nil_r in Hf. congruence.
Qed.

(** ** Matchers: some way to match is enough *)

Section MatcherComplete.
Context {R : Type}.
Implicit Types (k : str -> option R) (p : char -> bool) (s : str).

Lemma chr_complete p k c s :
  p c = true -> is_Some (k s) -> is_Some (chr p k (c :: s)).
Proof. simpl. by intros ->. Qed.

Lemma star_complete p k pre s :
  forallb p pre = true -> is_Some (k s) -> is_Some (star p k (pre ++ s)).
Proof.
  intros Hp Hk. induction pre as [|c pre IH]; simpl.
  - destruct s as [|c s]; simpl; [done|].
    destruct (p c); [|done]. by destruct (star p k s).
  - simpl in Hp. apply andb_true_iff in Hp as [-> Hp].
    destruct (IH Hp) as [r ->]. done.
Qed.

Lemma plus_complete p k c pre s :
  p c = true -> forallb p pre = true -> is_Some (k s) ->
  is_Some (plus p k (c :: pre ++ s)).
Proof.
  intros Hc Hp Hk. unfold plus. apply chr_complete; [done|].
  by apply star_complete.
Qed.
End MatcherComplete.

(** ** The writer sorts by index, stably *)

Lemma insert_by_index_perm sub l : insert_by_index sub l ≡ₚ sub :: l.
Proof.
  induction l as [|d l IH]; simpl; [done|].
  destruct (index sub <=? index d)%Z; [done|].
  rewrite IH. apply Permutation_swap.
Qed.

Lemma insert_by_index_sorted sub l :
  StronglySorted index_le l -> StronglySorted index_le (insert_by_index sub l).
Proof.
  induction 1 as [|d l Hs IH Hd]; simpl.
  - repeat constructor.
  - destruct (Z.leb_spec (index sub) (index d)) as [Hle|Hlt].
    + constructor; [by constructor|].
      constructor; [done|].
      eapply Forall_impl; [exact Hd|]. unfold index_le. intros; lia.
    + constructor; [done|].
      rewrite insert_by_index_perm. constructor; [|done].
      unfold index_le; lia.
Qed.

Lemma insert_by_index_filter (k : Z) sub l :
  filter (fun s => index s = k) (insert_by_index sub l)
  = filter (fun s => index s = k) (sub :: l).
Proof.
  induction l as [|d l IH]; simpl; [done|].
  destruct (Z.leb_spec (index sub) (index d)) as [Hle|Hlt]; [done|].
  rewrite !filter_cons in *.
  rewrite IH.
  repeat case_decide; try done; lia.
Qed.

Lemma sorted_by_index_perm l : sorted_by_index l ≡ₚ l.
Proof.
  induction l as [|a l IH]; simpl; [done|].
  by rewrite insert_by_index_perm, IH.
Qed.

Lemma sorted_by_index_sorted l : StronglySorted index_le (sorted_by_index l).
Proof.
  induction l as [|a l IH]; simpl; [constructor|].
  by apply insert_by_index_sorted.
Qed.

Lemma sorted_by_index_stable (k : Z) l :
  filter (fun s => index s = k) (sorted_by_index l)
  = filter (fun s => index s = k) l.
Proof.
  induction l as [|a l IH]; simpl; [done|].
  rewrite insert_by_index_filter, !filter_cons, IH. done.
Qed.

Lemma sorted_by_index_keys l :
  StronglySorted Z.le (map index (sorted_by_index l)).
Proof.
  induction (sorted_by_index_sorted l) as [|a l' _ IH Ha]; simpl;
    constructor; [done|].
  rewrite Forall_map. exact Ha.
Qed.

(** C5. For every sequence of blocks, in whatever order, the writer emits
    the blocks of the sequence ordered by ascending index, and the blocks
    with the same index keep the relative order they had in the input; the
    indices come out in the same order for every permutation of the input. *)
Theorem write_srt_sorted_stable (subtitles : list SubtitleBlock) :
  write_srt subtitles = concat (map write_block (sorted_by_index subtitles))
  /\ sorted_by_index subtitles ≡ₚ subtitles
  /\ StronglySorted index_le (sorted_by_index subtitles)
  /\ (forall k : Z,
        filter (fun s => index s = k) (sorted_by_index subtitles)
        = filter (fun s => index s = k) subtitles)
  /\ (forall shuffled : list SubtitleBlock,
        shuffled ≡ₚ subtitles ->
        map index (sorted_by_index shuffled)
        = map index (sorted_by_index subtitles)).
Proof.
  split; [reflexivity|].
  split; [apply sorted_by_index_perm|].
  split; [apply sorted_by_index_sorted|].
  split; [intros k; apply sorted_by_index_stable|].
  intros shuffled Hp.
  apply (StronglySorted_unique Z.le); try apply sorted_by_index_keys.
  apply fmap_Permutation.
  by rewrite !sorted_by_index_perm.
Qed.

(** ** An empty translation counts as no translation *)

Lemma success_count_app l1 l2 :
  success_count (l1 ++ l2) = success_count l1 + success_count l2.
Proof. unfold success_count. by rewrite List.filter_app, length_app. Qed.

(** C10. A block whose [translated_text] is the empty string is written
    with its source text, exactly as the block without a translation is,
    and the count of the final summary leaves it out. *)
Theorem empty_translation_uses_source (sub : SubtitleBlock) :
  translated_text sub = Some [] ->
  translated_or_text sub = text sub
  /\ write_block sub
     = (str_of_int (index sub) ++ [LF])
       ++ (start_time sub ++ lit " --> " ++ end_time sub ++ [LF])
       ++ (strip (text sub) ++ [LF; LF])
  /\ write_block sub = write_block (untranslated sub)
  /\ forall before after : list SubtitleBlock,
       success_count (before ++ sub :: after) = success_count (before ++ after).
Proof.
  intros He.
  assert (Hb : translated_or_text sub = text sub).
  { unfold translated_or_text. by rewrite He. }
  split; [exact Hb|].
  split; [unfold write_block; by rewrite Hb|].
  split; [unfold write_block; by rewrite Hb|].
  intros before after.
  rewrite !success_count_app. f_equal.
  change (sub :: after) with ([sub] ++ after).
  rewrite success_count_app.
  unfold success_count at 1. simpl. by rewrite He.
Qed.

Lemma empty_translation_uses_source_witness :
  write_block empty_translation_block
  = lit "7" ++ [LF] ++ lit "00:00:01,000 --> 00:00:02,500" ++ [LF]
    ++ lit "Hei" ++ [LF; LF]
  /\ success_count [empty_translation_block] = 0.
Proof.
  destruct (empty_translation_uses_source empty_translation_block eq_refl)
    as (_ & Hw & _ & Hc).
  split.
  - rewrite Hw. reflexivity.
  - apply (Hc [] []).
Defined.

(** ** A file that cannot be read *)

(** C4, as the specification states it, fails: for a missing file the
    reader returns the empty list, the very value it returns for a file
    that is read and holds no block. *)
Lemma missing_file_returns_empty_list :
  snd (parse_srt FileNotFound) = []
  /\ snd (parse_srt FileNotFound)
     = snd (parse_srt (Content (lit "no subtitle block in this text"))).
Proof. split; reflexivity. Qed.

(** C4, amended. For a missing or unreadable file the reader logs one
    error record and returns the empty list; a file that is read never
    makes the reader log an error, so the log alone tells the two cases
    apart. [translate_file] then gives no output and calls no backend. *)
Theorem unreadable_file_logged_and_empty (file : ReadResult) :
  file = FileNotFound \/ file = ReadFailed ->
  parse_srt file = ([ERROR], [])
  /\ (forall content, ~ In ERROR (fst (parse_srt (Content content))))
  /\ forall (backend : Backend) (batch_size : Z) (w : World),
       fst (translate_file backend file batch_size w) = None
       /\ calls (snd (translate_file backend file batch_size w)) = calls w.
Proof.
  intros Hf.
  assert (Hp : parse_srt file = ([ERROR], [])) by (by destruct Hf; subst).
  split; [exact Hp|].
  split.
  - intros content. simpl.
    destruct (length (parse_content content) <? 5); simpl; intuition congruence.
  - intros backend batch_size w. unfold translate_file. rewrite Hp.
    simpl. done.
Qed.

Lemma unreadable_file_logged_and_empty_witness :
  parse_srt FileNotFound = ([ERROR], [])
  /\ fst (translate_file failing_backend FileNotFound 5 initial_world) = None.
Proof.
  destruct (unreadable_file_logged_and_empty FileNotFound (or_introl eq_refl))
    as (Hp & _ & Ht).
  split; [exact Hp|]. apply Ht.
Defined.

(** ** The block pattern *)

Section Captures.
Context {R : Type}.
Implicit Types (K : str -> str -> option R) (p : char -> bool) (s : str).

Lemma capture_inv (m : (str -> option R) -> str -> option R)
    (P : str -> Prop) K s r :
  (forall k s0 r0, m k s0 = Some r0 ->
     exists pre s', s0 = pre ++ s' /\ P pre /\ k s' = Some r0) ->
  capture m K s = Some r ->
  exists pre s', s = pre ++ s' /\ P pre /\ K pre s' = Some r.
Proof.
  intros Hm Hc. unfold capture in Hc.
  apply Hm in Hc as (pre & s' & -> & HP & HK).
  rewrite captured in HK. by exists pre, s'.
Qed.

Lemma capture_plus_inv p K s r :
  capture (plus p) K s = Some r ->
  exists pre s',
    s = pre ++ s' /\ (pre <> [] /\ forallb p pre = true) /\ K pre s' = Some r.
Proof.
  apply capture_inv. intros k s0 r0 (c & pre & s' & -> & Hc & Hp & Hk)%plus_inv.
  exists (c :: pre), s'. simpl. by rewrite Hc, Hp.
Qed.

Lemma capture_timestamp_inv K s r :
  capture timestamp K s = Some r ->
  exists t s', s = t ++ s' /\ fits timestamp_classes t = true /\ K t s' = Some r.
Proof. apply capture_inv. intros k s0 r0. apply timestamp_inv. Qed.

Lemma capture_lazy_inv p K s r :
  capture (lazy_star p) K s = Some r ->
  exists pre s',
    s = pre ++ s' /\ forallb p pre = true /\ K pre s' = Some r
    /\ forall a b, pre = a ++ b -> b <> [] -> K a (b ++ s') = None.
Proof.
  unfold capture.
  intros (pre & s' & -> & Hp & HK & Hmin)%lazy_star_inv.
  rewrite captured in HK. exists pre, s'. repeat split; try done.
  intros a b -> Hb. specialize (Hmin a b eq_refl Hb).
  rewrite <- app_assoc in Hmin. by rewrite captured in Hmin.
Qed.

Lemma capture_run (m : (str -> option R) -> str -> option R) K pre s :
  (forall k, m k (pre ++ s) = k s) ->
  capture m K (pre ++ s) = K pre s.
Proof. intros Hm. unfold capture. by rewrite Hm, captured. Qed.
End Captures.

Lemma lookahead_boundary {R : Type} (k : str -> option R) s :
  lookahead
    (alt (fun k => rep_ge 2 is_lf (plus is_digit (star is_space (chr is_lf k))))
         eos) k s
  = if boundary s then k s else None.
Proof. unfold lookahead, boundary. by destruct (alt _ _ _ s). Qed.

Lemma block_pattern_inv s m :
  block_pattern s = Some m ->
  exists ws1 ws2 ws3 ws4 tl,
    s = ws1 ++ g_index m ++ ws2 ++ [LF] ++ g_start m ++ ws3 ++ lit "-->"
        ++ ws4 ++ g_end m ++ tl ++ [LF] ++ g_text m ++ g_rest m
    /\ forallb is_space ws1 = true
    /\ g_index m <> [] /\ forallb is_digit (g_index m) = true
    /\ forallb is_space ws2 = true
    /\ fits timestamp_classes (g_start m) = true
    /\ forallb is_space ws3 = true /\ forallb is_space ws4 = true
    /\ fits timestamp_classes (g_end m) = true
    /\ forallb not_lf tl = true
    /\ boundary (g_rest m) = true
    /\ forall a b, g_text m = a ++ b -> b <> [] ->
                   boundary (b ++ g_rest m) = false.
Proof.
  unfold block_pattern.
  intros (ws1 & s1 & -> & Hws1 & H)%star_inv.
  apply capture_plus_inv in H as (g1 & s2 & -> & [Hne Hg1] & H).
  apply star_inv in H as (ws2 & s3 & -> & Hws2 & H).
  apply chr_inv in H as (c & s4 & -> & ->%is_lf_eq & H).
  apply capture_timestamp_inv in H as (g2 & s5 & -> & Hg2 & H).
  apply star_inv in H as (ws3 & s6 & -> & Hws3 & H).
  apply literal_inv in H as (s7 & -> & H).
  apply star_inv in H as (ws4 & s8 & -> & Hws4 & H).
  apply capture_timestamp_inv in H as (g3 & s9 & -> & Hg3 & H).
  apply lazy_star_inv in H as (tl & s10 & -> & Htl & H & _).
  apply chr_inv in H as (c & s11 & -> & ->%is_lf_eq & H).
  apply capture_lazy_inv in H as (g4 & rest & -> & _ & H & Hmin).
  rewrite lookahead_boundary in H.
  destruct (boundary rest) eqn:Hb; [|done].
  injection H as <-. simpl.
  exists ws1, ws2, ws3, ws4, tl. repeat split; try done.
  intros a b -> Hbne. specialize (Hmin a b eq_refl Hbne).
  rewrite lookahead_boundary in Hmin.
  by destruct (boundary (b ++ rest)).
Qed.

Lemma finditer_blocks_In m : forall s bol skip,
  In m (finditer_blocks bol skip s) ->
  exists pre s', s = pre ++ s' /\ block_pattern s' = Some m.
Proof.
  induction s as [|c s IH]; intros bol skip; simpl; [done|].
  destruct skip as [|n].
  - destruct bol.
    + destruct (block_pattern (c :: s)) as [m'|] eqn:Hm.
      * intros [->|Hin]; [by exists [], (c :: s)|].
        apply IH in Hin as (pre & s' & -> & Hs'). by exists (c :: pre), s'.
      * intros (pre & s' & -> & Hs')%IH. by exists (c :: pre), s'.
    + intros (pre & s' & -> & Hs')%IH. by exists (c :: pre), s'.
  - intros (pre & s' & -> & Hs')%IH. by exists (c :: pre), s'.
Qed.

(** ** The lookahead of the block pattern *)

Lemma boundary_at s : boundary s = true <-> s = [] \/ at_boundary s.
Proof.
  unfold boundary, alt. split.
  - destruct (rep_ge 2 is_lf _ s) as [r|] eqn:Ha.
    + intros _. right. unfold rep_ge in Ha.
      apply rep_inv in Ha as (nl1 & s1 & -> & Hl1 & Hnl1 & Ha).
      apply star_inv in Ha as (nl2 & s2 & -> & Hnl2 & Ha).
      apply plus_inv in Ha as (d & ds & s3 & -> & Hd & Hds & Ha).
      apply star_inv in Ha as (ws & s4 & -> & Hws & Ha).
      apply chr_inv in Ha as (c & more & -> & ->%is_lf_eq & _).
      exists (nl1 ++ nl2), (d :: ds), ws, more.
      rewrite <- !app_assoc. repeat split; try done.
      * rewrite length_app. lia.
      * by rewrite forallb_app, Hnl1, Hnl2.
      * simpl. by rewrite Hd, Hds.
    + destruct s; [by left|done].
  - intros [->|(nl & ds & ws & more & -> & Hl & Hnl & Hne & Hds & Hws)];
      [reflexivity|].
    destruct nl as [|a [|b nl]]; simpl in Hl; [lia|lia|].
    destruct ds as [|d ds]; [done|].
    simpl in Hnl, Hds.
    apply andb_true_iff in Hnl as [Ha Hnl].
    apply andb_true_iff in Hnl as [Hb Hnl].
    apply andb_true_iff in Hds as [Hd Hds].
    assert (Hs : is_Some
              (rep_ge 2 is_lf
                 (plus is_digit (star is_space (chr is_lf (fun _ => Some tt))))
                 ((a :: b :: nl) ++ (d :: ds) ++ ws ++ LF :: more))).
    { unfold rep_ge. cbn [rep app].
      apply chr_complete; [done|]. apply chr_complete; [done|].
      apply star_complete; [done|].
      apply plus_complete; [done|done|].
      apply star_complete; [done|].
      by apply chr_complete. }
    by destruct Hs as [r ->].
Qed.

Lemma boundary_before_block digits more :
  digits <> [] -> forallb is_digit digits = true ->
  boundary ([LF; LF] ++ digits ++ LF :: more) = true.
Proof.
  intros Hne Hd. apply boundary_at. right.
  exists [LF; LF], digits, [], more. by repeat split.
Qed.

(** ** Timestamps are stored and written with a comma *)

Lemma digit_not_dot c : is_digit c = true -> (c =? DOT)%N = false.
Proof.
  intros H. destruct (N.eqb_spec c DOT) as [->|]; [|done].
  vm_compute in H. discriminate.
Qed.

Lemma colon_not_dot c : is_colon c = true -> (c =? DOT)%N = false.
Proof. unfold is_colon. intros ->%N.eqb_eq. reflexivity. Qed.

Lemma ms_sep_to_comma c :
  is_ms_sep c = true -> (if (c =? DOT)%N then COMMA else c) = COMMA.
Proof.
  unfold is_ms_sep. intros [->%N.eqb_eq| ->%N.eqb_eq]%orb_true_iff; reflexivity.
Qed.

Lemma timestamp_with_comma t :
  fits timestamp_classes t = true ->
  replace_char DOT COMMA t = take 8 t ++ COMMA :: drop 9 t
  /\ fits timestamp_classes (replace_char DOT COMMA t) = true
  /\ replace_char DOT COMMA t !! 8 = Some COMMA
  /\ ~ In DOT (replace_char DOT COMMA t).
Proof.
  intros Hf.
  unfold timestamp_classes in Hf.
  do 12 (destruct t as [|? t];
         [cbn [fits] in Hf;
          repeat (apply andb_true_iff in Hf as [_ Hf]); discriminate|]).
  cbn [fits] in Hf.
  destruct t;
    [|exfalso; repeat (apply andb_true_iff in Hf as [_ Hf]); discriminate].
  repeat (apply andb_true_iff in Hf as [? Hf]).
  unfold replace_char. cbn [map take drop app].
  repeat match goal with
         | H : is_digit ?c = true |- context [(?c =? DOT)%N] =>
             rewrite (digit_not_dot c H)
         | H : is_colon ?c = true |- context [(?c =? DOT)%N] =>
             rewrite (colon_not_dot c H)
         | H : is_ms_sep ?c = true |- context [(?c =? DOT)%N] =>
             rewrite (ms_sep_to_comma c H)
         end.
  split; [reflexivity|].
  split.
  { clear Hf. unfold timestamp_classes. cbn [fits].
    repeat match goal with H : _ = true |- _ => rewrite H; clear H end.
    reflexivity. }
  split; [reflexivity|].
  cbn [In]. intros Hin.
  repeat (destruct Hin as [Hin'|Hin];
          [first [discriminate Hin'
                 |subst;
                  match goal with
                  | H : _ DOT = true |- _ => vm_compute in H; discriminate H
                  end]|]).
  exact Hin.
Qed.

Lemma parse_content_In content sub :
  In sub (parse_content content) ->
  exists m pre s',
    normalize_newlines content = pre ++ s'
    /\ block_pattern s' = Some m
    /\ block_of_match m = Some sub.
Proof.
  unfold parse_content. intros Hin.
  apply list_elem_of_In, list_elem_of_omap in Hin as (m & Hm & Hsub).
  apply list_elem_of_In, finditer_blocks_In in Hm as (pre & s' & Hs & Hp).
  by exists m, pre, s'.
Qed.

Lemma block_of_match_fields m sub :
  block_of_match m = Some sub ->
  index sub = int_of_digits (g_index m)
  /\ start_time sub = replace_char DOT COMMA (g_start m)
  /\ end_time sub = replace_char DOT COMMA (g_end m)
  /\ text sub = strip (g_text m)
  /\ text sub <> []
  /\ translated_text sub = None.
Proof.
  unfold block_of_match. destruct (strip (g_text m)) as [|c t] eqn:Ht; [done|].
  simpl. intros [= <-]. simpl. done.
Qed.

(** C9. Every block that the reader returns comes from a timing line
    [start --> end] of the document whose two timestamps have [,] or [.]
    before the milliseconds; the block stores them with [,] in that place
    (no [.] is left), and the writer writes the stored timestamps as they
    are, so a document read with [.] is written with [,]. *)
Theorem timestamps_read_and_written_with_comma
    (content : str) (sub : SubtitleBlock) :
  In sub (parse_content content) ->
  exists (m : BlockMatch) (before ws ws' after : str),
    normalize_newlines content
    = before ++ g_start m ++ ws ++ lit "-->" ++ ws' ++ g_end m ++ after
    /\ forallb is_space ws = true /\ forallb is_space ws' = true
    /\ is_timestamp (g_start m) = true /\ is_timestamp (g_end m) = true
    /\ start_time sub = take 8 (g_start m) ++ COMMA :: drop 9 (g_start m)
    /\ end_time sub = take 8 (g_end m) ++ COMMA :: drop 9 (g_end m)
    /\ is_timestamp (start_time sub) = true
    /\ is_timestamp (end_time sub) = true
    /\ start_time sub !! 8 = Some COMMA /\ end_time sub !! 8 = Some COMMA
    /\ ~ In DOT (start_time sub) /\ ~ In DOT (end_time sub)
    /\ write_block sub
       = (str_of_int (index sub) ++ [LF])
         ++ (start_time sub ++ lit " --> " ++ end_time sub ++ [LF])
         ++ (strip (text sub) ++ [LF; LF]).
Proof.
  intros (m & pre & s' & Hn & Hp & Hb)%parse_content_In.
  apply block_pattern_inv in Hp
    as (ws1 & ws2 & ws3 & ws4 & tl & -> & _ & _ & _ & _ & Hg2 & Hws3 & Hws4
        & Hg3 & _).
  apply block_of_match_fields in Hb as (_ & Hst & Hen & _ & _ & Htr).
  destruct (timestamp_with_comma _ Hg2) as (Hs1 & Hs2 & Hs3 & Hs4).
  destruct (timestamp_with_comma _ Hg3) as (He1 & He2 & He3 & He4).
  exists m, (pre ++ ws1 ++ g_index m ++ ws2 ++ [LF]), ws3, ws4,
    (tl ++ [LF] ++ g_text m ++ g_rest m).
  rewrite !is_timestamp_fits, Hst, Hen.
  split; [by rewrite Hn, <- !app_assoc|].
  repeat (split; [done|]).
  unfold write_block, translated_or_text. by rewrite Htr, Hst, Hen.
Qed.

Lemma timestamps_read_and_written_with_comma_witness :
  exists sub : SubtitleBlock,
    In sub (parse_content dotted_document)
    /\ start_time sub = lit "00:00:01,000"
    /\ end_time sub !! 8 = Some COMMA.
Proof.
  set (sub := {| index := 1; start_time := lit "00:00:01,000";
                 end_time := lit "00:00:02,500"; text := lit "Hei";
                 translated_text := None |}).
  assert (Hin : In sub (parse_content dotted_document)).
  { vm_compute. left. reflexivity. }
  destruct (timestamps_read_and_written_with_comma dotted_document sub Hin)
    as (m & _ & _ & _ & _ & _ & _ & _ & _ & _ & _ & _ & _ & _ & He & _).
  exists sub. split; [exact Hin|]. split; [reflexivity|exact He].
Defined.

(** The example of the specification: a document with [.] before the
    milliseconds is written back with [,]. *)
Lemma dotted_document_rewritten :
  write_srt (parse_content dotted_document)
  = lit "1" ++ [LF] ++ lit "00:00:01,000 --> 00:00:02,500" ++ [LF]
    ++ lit "Hei" ++ [LF; LF]
    ++ lit "2" ++ [LF] ++ lit "00:00:03,000 --> 00:00:04,000" ++ [LF]
    ++ lit "Takk" ++ [LF; LF].
Proof. vm_compute. reflexivity. Qed.

(** ** The block pattern on a written block *)

Section CaptureRuns.
Context {R : Type}.
Implicit Types (K : str -> str -> option R) (p : char -> bool) (s : str).

Lemma capture_plus_run p K ds s r :
  ds <> [] -> forallb p ds = true -> head_fails p s ->
  K ds s = Some r ->
  capture (plus p) K (ds ++ s) = Some r.
Proof.
  intros Hne Hp Hs HK. unfold capture.
  destruct ds as [|d ds]; [done|].
  simpl in Hp. apply andb_true_iff in Hp as [Hd Hp].
  cbn [app]. apply plus_greedy; try done.
  pose proof (captured (d :: ds) s) as Hc. cbn [app] in Hc.
  by rewrite Hc.
Qed.

Lemma capture_lazy_run p K pre s r :
  forallb p pre = true ->
  (forall a b g, pre = a ++ b -> b <> [] -> K g (b ++ s) = None) ->
  K pre s = Some r ->
  capture (lazy_star p) K (pre ++ s) = Some r.
Proof.
  intros Hp Hnone HK. unfold capture.
  rewrite lazy_star_skip; [|done|].
  - apply lazy_star_now. by rewrite captured.
  - intros a b Hab Hb. by apply (Hnone a b).
Qed.

Lemma star_lf_run (k : str -> option R) s :
  head_fails is_space s ->
  star is_space (chr is_lf k) (LF :: s) = k s.
Proof.
  intros Hs. cbn [star]. change (is_space LF) with true. cbv iota.
  rewrite star_stop by done.
  assert (Hn : chr is_lf k s = None).
  { destruct s as [|c s]; [done|]. simpl in *.
    destruct (is_lf c) eqn:Hc; [|done].
    apply lf_is_space in Hc. congruence. }
  rewrite Hn. reflexivity.
Qed.
End CaptureRuns.

Lemma fits_timestamp_head t :
  fits timestamp_classes t = true ->
  exists d t', t = d :: t' /\ is_digit d = true.
Proof.
  destruct t as [|d t]; [done|]. unfold timestamp_classes. cbn [fits].
  intros H. apply andb_true_iff in H as [Hd _]. by exists d, t.
Qed.

Lemma digits_head_not_space ds s :
  ds <> [] -> forallb is_digit ds = true -> head_fails is_space (ds ++ s).
Proof.
  destruct ds as [|d ds]; [done|]. simpl. intros _ H.
  apply andb_true_iff in H as [Hd _]. by apply digit_not_space.
Qed.

Lemma timestamp_head_not_space t s :
  fits timestamp_classes t = true -> head_fails is_space (t ++ s).
Proof.
  intros (d & t' & -> & Hd)%fits_timestamp_head. simpl.
  by apply digit_not_space.
Qed.

Lemma block_pattern_run lead digits start stop g4 rest :
  forallb is_space lead = true ->
  digits <> [] -> forallb is_digit digits = true ->
  fits timestamp_classes start = true ->
  fits timestamp_classes stop = true ->
  (forall a b, g4 = a ++ b -> b <> [] -> boundary (b ++ rest) = false) ->
  boundary rest = true ->
  block_pattern
    (lead ++ digits ++ [LF] ++ start ++ lit " --> " ++ stop ++ [LF]
     ++ g4 ++ rest)
  = Some {| g_index := digits; g_start := start; g_end := stop;
            g_text := g4; g_rest := rest |}.
Proof.
  intros Hlead Hne Hds Hstart Hstop Hmin Hrest. unfold block_pattern.
  apply star_greedy; [done|by apply digits_head_not_space|].
  apply capture_plus_run; [done|done|reflexivity|].
  cbn [app]. rewrite star_lf_run by (by apply timestamp_head_not_space).
  rewrite capture_run by (intros k; by apply timestamp_run).
  change (lit " --> ") with ([32%N] ++ lit "-->" ++ [32%N]).
  rewrite <- !app_assoc.
  apply star_greedy; [done|reflexivity|].
  rewrite literal_app.
  apply star_greedy; [done|by apply timestamp_head_not_space|].
  rewrite capture_run by (intros k; by apply timestamp_run).
  apply lazy_star_now. cbn [app chr]. change (is_lf LF) with true. cbv iota.
  apply capture_lazy_run; [by apply forallb_forall| |].
  - intros a b g Hab Hb. rewrite lookahead_boundary.
    by rewrite (Hmin a b).
  - by rewrite lookahead_boundary, Hrest.
Qed.

(** ** The reader on the output of the writer *)

Lemma finditer_blocks_skip z rest : forall u bol,
  finditer_blocks bol (length (u ++ [z])) ((u ++ [z]) ++ rest)
  = finditer_blocks (is_lf z) 0 rest.
Proof.
  induction u as [|c u IH]; intros bol; simpl.
  - by destruct rest.
  - apply IH.
Qed.

Lemma finditer_blocks_match w z rest m :
  block_pattern (w ++ z :: rest) = Some m ->
  g_rest m = rest ->
  finditer_blocks true 0 (w ++ z :: rest)
  = m :: finditer_blocks (is_lf z) 0 rest.
Proof.
  intros Hm Hrest. destruct w as [|c w].
  - simpl in *. rewrite Hm, Hrest. f_equal.
    replace (S (length rest) - length rest - 1) with 0 by lia.
    by destruct rest.
  - cbn [app finditer_blocks] in *. rewrite Hm, Hrest. f_equal.
    replace (length (c :: w ++ z :: rest) - length rest - 1)
      with (length (w ++ [z])).
    + replace (w ++ z :: rest) with ((w ++ [z]) ++ rest)
        by (by rewrite <- app_assoc).
      apply finditer_blocks_skip.
    + simpl. rewrite !length_app. simpl. lia.
Qed.

Lemma replace_char_absent a b s : ~ In a s -> replace_char a b s = s.
Proof.
  unfold replace_char. induction s as [|c s IH]; simpl; [done|].
  intros Hn. destruct (N.eqb_spec c a) as [->|_]; [tauto|].
  f_equal. tauto.
Qed.

Lemma trimmed_last t :
  trimmed t -> exists t' z, t = t' ++ [z] /\ is_space z = false.
Proof.
  intros (Hne & _ & Hl).
  destruct (rev t) as [|z r] eqn:Hr.
  - apply (f_equal (@rev char)) in Hr. rewrite rev_involutive in Hr. done.
  - exists (rev r), z. split; [|done].
    apply (f_equal (@rev char)) in Hr. rewrite rev_involutive in Hr.
    by rewrite Hr.
Qed.

Lemma block_of_match_written digits start stop g4 rest sub :
  writable sub ->
  digits = str_of_int (index sub) ->
  start = start_time sub -> stop = end_time sub ->
  strip g4 = body_text sub ->
  block_of_match {| g_index := digits; g_start := start; g_end := stop;
                    g_text := g4; g_rest := rest |}
  = Some (reread sub).
Proof.
  intros (Hi & _ & _ & Hds & Hde & (Hne & _) & _) -> -> -> Hs.
  unfold block_of_match, reread. cbn [g_index g_start g_end g_text].
  rewrite Hs, int_of_str_of_int, !replace_char_absent by done.
  by destruct (body_text sub).
Qed.

Ltac norm_app := repeat (progress (rewrite <- ?app_assoc; cbn [app])).

Lemma boundary_after_last_block (t : str) :
  inner_free t ->
  forall a b, t ++ [LF; LF] = a ++ b -> b <> [] -> boundary (b ++ []) = false.
Proof.
  intros Hfree a b Hab Hb. rewrite app_nil_r.
  destruct (decide (length b <= 2)) as [Hle|Hgt].
  - assert (Hb2 : b = drop (length (t ++ [LF; LF]) - length b) (t ++ [LF; LF])).
    { rewrite Hab, length_app.
      replace (length a + length b - length b) with (length a) by lia.
      by rewrite drop_app_length. }
    rewrite length_app in Hb2. simpl in Hb2.
    rewrite drop_app_ge in Hb2 by lia.
    destruct b as [|x [|y [|? ?]]]; simpl in *; try done; try lia.
    + replace (length t + 2 - 1 - length t) with 1 in Hb2 by lia.
      by injection Hb2 as ->.
    + replace (length t + 2 - 2 - length t) with 0 in Hb2 by lia.
      by injection Hb2 as -> ->.
  - assert (Hb2 : exists b', b = b' ++ [LF; LF] /\ t = a ++ b' /\ b' <> []).
    { exists (take (length b - 2) b).
      assert (Hlen : length t = length a + (length b - 2)).
      { apply (f_equal length) in Hab. rewrite !length_app in Hab.
        simpl in Hab. lia. }
      assert (Ht : t = take (length t) (a ++ b)).
      { rewrite <- Hab. by rewrite take_app_length. }
      rewrite Hlen, take_app_add in Ht.
      assert (Hd : [LF; LF] = drop (length t) (a ++ b)).
      { rewrite <- Hab. by rewrite drop_app_length. }
      rewrite Hlen, drop_app_add in Hd.
      split; [by rewrite Hd, take_drop|]. split; [done|].
      intros Hnil. apply (f_equal length) in Hnil.
      rewrite length_take in Hnil. simpl in Hnil. lia. }
    destruct Hb2 as (b' & -> & -> & Hb').
    rewrite <- (app_nil_r (b' ++ _)), <- app_assoc.
    by apply (Hfree a b').
Qed.

Lemma read_written subs :
  Forall writable subs ->
  forall lead, lead = [] \/ lead = [LF] ->
  omap block_of_match
    (finditer_blocks true 0 (lead ++ concat (map write_block subs)))
  = map reread subs.
Proof.
  induction 1 as [|sub subs Hw Hall IH]; intros lead Hlead.
  - destruct Hlead as [-> | ->]; reflexivity.
  - assert (Hsp : forallb is_space lead = true).
    { destruct Hlead as [-> | ->]; reflexivity. }
    pose proof Hw as (Hi & Hst & Hen & Hds & Hde & Htr & Hfree).
    destruct (str_of_int_digits _ Hi) as [Hdne Hdig].
    destruct (trimmed_last _ Htr) as (t' & z & Hbody & Hz).
    cbn [map concat]. unfold write_block at 1. fold (body_text sub).
    destruct subs as [|sub' subs].
    + set (m := {| g_index := str_of_int (index sub);
                   g_start := start_time sub; g_end := end_time sub;
                   g_text := body_text sub ++ [LF; LF]; g_rest := [] |}).
      assert (Hm : block_pattern
                     (lead ++ str_of_int (index sub) ++ [LF]
                      ++ start_time sub ++ lit " --> " ++ end_time sub
                      ++ [LF] ++ (body_text sub ++ [LF; LF]) ++ [])
                   = Some m).
      { apply block_pattern_run; try done.
        by apply boundary_after_last_block. }
      cbn [map concat].
      match goal with
      | |- context [finditer_blocks true 0 ?s] =>
          replace s with
            ((lead ++ str_of_int (index sub) ++ [LF]
              ++ start_time sub ++ lit " --> " ++ end_time sub
              ++ [LF] ++ body_text sub ++ [LF]) ++ LF :: [])
            by (norm_app; reflexivity)
      end.
      rewrite (finditer_blocks_match _ LF [] m); [|
        rewrite <- Hm; f_equal; norm_app; reflexivity | reflexivity].
      cbn [finditer_blocks omap list_omap map]. subst m.
      rewrite (block_of_match_written _ _ _ _ _ sub); try done.
      by apply strip_trimmed.
    + set (T := concat (map write_block (sub' :: subs))) in *.
      pose proof (Forall_inv Hall) as Hw'.
      destruct Hw' as (Hi' & _).
      destruct (str_of_int_digits _ Hi') as [Hdne' Hdig'].
      assert (HT : exists more, T = str_of_int (index sub') ++ LF :: more).
      { subst T. cbn [map concat]. unfold write_block at 1.
        eexists. norm_app. reflexivity. }
      destruct HT as (more & HT).
      set (m := {| g_index := str_of_int (index sub);
                   g_start := start_time sub; g_end := end_time sub;
                   g_text := body_text sub; g_rest := [LF; LF] ++ T |}).
      assert (Hm : block_pattern
                     (lead ++ str_of_int (index sub) ++ [LF]
                      ++ start_time sub ++ lit " --> " ++ end_time sub
                      ++ [LF] ++ body_text sub ++ [LF; LF] ++ T)
                   = Some m).
      { apply block_pattern_run; try done.
        - intros a b Hab Hb. by apply (Hfree a b).
        - rewrite HT. by apply boundary_before_block. }
      match goal with
      | |- context [finditer_blocks true 0 ?s] =>
          replace s with
            ((lead ++ str_of_int (index sub) ++ [LF]
              ++ start_time sub ++ lit " --> " ++ end_time sub
              ++ [LF] ++ t') ++ z :: ([LF; LF] ++ T))
            by (rewrite Hbody; norm_app; reflexivity)
      end.
      rewrite (finditer_blocks_match _ z ([LF; LF] ++ T) m); [|
        rewrite <- Hm, Hbody; f_equal; norm_app; reflexivity | reflexivity].
      assert (Hzl : is_lf z = false).
      { destruct (is_lf z) eqn:Hl; [|done].
        apply lf_is_space in Hl. congruence. }
      rewrite Hzl. cbn [app finditer_blocks].
      change (is_lf LF) with true.
      change (LF :: T) with ([LF] ++ T).
      cbn [omap list_omap]. subst m.
      rewrite (block_of_match_written _ _ _ _ _ sub); try done;
        [|by apply strip_fixed].
      cbn [map]. f_equal.
      apply (IH [LF]). by right.
Qed.

(** ** What the reader guarantees about the text of a block *)

Lemma drop_while_app p pre s :
  forallb p pre = true -> head_fails p s -> drop_while p (pre ++ s) = s.
Proof.
  intros Hp Hs. induction pre as [|c pre IH]; simpl.
  - destruct s as [|c s]; simpl in *; [done|]. by rewrite Hs.
  - simpl in Hp. apply andb_true_iff in Hp as [-> Hp]. by apply IH.
Qed.

Lemma ends_like_index_intro a nl ds :
  2 <= length nl -> forallb is_lf nl = true ->
  ds <> [] -> forallb is_digit ds = true ->
  ends_like_index (a ++ nl ++ ds) = true.
Proof.
  intros Hl Hnl Hne Hds. unfold ends_like_index.
  rewrite !rev_app_distr.
  assert (Hrd : forallb is_digit (rev ds) = true) by (by rewrite forallb_rev).
  assert (Hrn : forallb is_lf (rev nl) = true) by (by rewrite forallb_rev).
  assert (Hrl : 2 <= length (rev nl)) by (by rewrite length_rev).
  destruct (rev ds) as [|d r] eqn:Hr.
  { apply (f_equal (@rev char)) in Hr. rewrite rev_involutive in Hr. done. }
  simpl in Hrd. apply andb_true_iff in Hrd as [Hd Hrd].
  cbn [app]. rewrite Hd. cbn [andb].
  destruct (rev nl) as [|x [|y nl']]; simpl in Hrl; [lia|lia|].
  simpl in Hrn. apply andb_true_iff in Hrn as [Hx Hrn].
  apply andb_true_iff in Hrn as [Hy _].
  rewrite <- app_assoc, drop_while_app; [|done|].
  - cbn [app]. by rewrite Hx, Hy.
  - simpl. destruct (is_digit x) eqn:Hdx; [|done].
    apply digit_not_lf in Hdx. congruence.
Qed.

Lemma forallb_lookup (p : char -> bool) (l : str) i c :
  forallb p l = true -> l !! i = Some c -> p c = true.
Proof.
  intros Hp Hl. rewrite forallb_forall in Hp. apply Hp.
  apply list_elem_of_In. by eapply list_elem_of_lookup_2.
Qed.

Lemma forallb_take (p : char -> bool) n (l : str) :
  forallb p l = true -> forallb p (take n l) = true.
Proof.
  revert n. induction l as [|c l IH]; intros [|n]; simpl; try done.
  intros H. apply andb_true_iff in H as [-> H]. by apply IH.
Qed.

Lemma reader_inner_free lead t trail rest :
  forallb is_space trail = true ->
  trimmed t ->
  (forall a b, lead ++ t ++ trail = a ++ b -> b <> [] ->
               boundary (b ++ rest) = false) ->
  ends_like_index t = false ->
  inner_free t.
Proof.
  intros Htrail Htr Hmin Hend a b tail Hab Hb.
  destruct (boundary (b ++ [LF; LF] ++ tail)) eqn:E; [exfalso|done].
  apply boundary_at in E
    as [E|(nl & ds & ws & more & Heq & Hl & Hnl & Hne & Hds & Hws)].
  { by destruct b. }
  destruct (trimmed_last _ Htr) as (t' & z & Ht & Hz).
  assert (Hbz : exists b', b = b' ++ [z]).
  { destruct (rev b) as [|y rb] eqn:Hrb.
    - apply (f_equal (@rev char)) in Hrb. rewrite rev_involutive in Hrb. done.
    - apply (f_equal (@rev char)) in Hrb. rewrite rev_involutive in Hrb.
      simpl in Hrb. exists (rev rb). rewrite Hrb. f_equal.
      rewrite Hab, Hrb, app_assoc in Ht.
      apply app_inj_tail in Ht as [_ ->]. done. }
  destruct Hbz as (b' & ->).
  assert (Hlook : (nl ++ ds ++ ws ++ LF :: more) !! length b' = Some z).
  { rewrite <- Heq, <- !app_assoc. cbn [app]. by rewrite list_lookup_middle. }
  assert (Hpre : b' ++ [z]
                 = take (length (b' ++ [z])) (nl ++ ds ++ ws ++ LF :: more)).
  { rewrite <- Heq. by rewrite take_app_length. }
  rewrite length_app in Hpre. simpl in Hpre.
  destruct (decide (length b' < length nl)) as [H1|H1].
  { rewrite lookup_app_l in Hlook by done.
    apply (forallb_lookup is_lf) in Hlook; [|done].
    apply lf_is_space in Hlook. congruence. }
  rewrite lookup_app_r in Hlook by lia.
  rewrite take_app_ge in Hpre by lia.
  destruct (decide (length b' - length nl < length ds)) as [H2|H2].
  { rewrite take_app_le in Hpre by lia.
    assert (He : ends_like_index (a ++ nl ++ take (length b' + 1 - length nl) ds)
                 = true).
    { apply ends_like_index_intro; try done.
      - intros Hnil. apply (f_equal length) in Hnil.
        rewrite length_take in Hnil. simpl in Hnil. lia.
      - by apply forallb_take. }
    rewrite <- Hpre, <- Hab in He. congruence. }
  rewrite lookup_app_r in Hlook by lia.
  rewrite take_app_ge in Hpre by lia.
  destruct (decide (length b' - length nl - length ds < length ws)) as [H3|H3].
  { rewrite lookup_app_l in Hlook by done.
    apply (forallb_lookup is_space) in Hlook; [|done]. congruence. }
  rewrite lookup_app_r in Hlook by lia.
  rewrite take_app_ge in Hpre by lia.
  destruct (length b' - length nl - length ds - length ws) as [|n] eqn:H4.
  { simpl in Hlook. injection Hlook as <-. done. }
  replace (length b' + 1 - length nl - length ds - length ws)
    with (S (S n)) in Hpre by lia.
  cbn [take] in Hpre.
  assert (Hb2 : boundary ((b' ++ [z]) ++ trail ++ rest) = true).
  { apply boundary_at. right.
    exists nl, ds, ws, (take (S n) more ++ trail ++ rest).
    rewrite Hpre. repeat split; try done.
    by rewrite <- !app_assoc. }
  rewrite (app_assoc _ trail rest) in Hb2.
  rewrite (Hmin (lead ++ a) ((b' ++ [z]) ++ trail)) in Hb2; [done| |].
  - rewrite Hab. by rewrite <- !app_assoc.
  - by destruct b'.
Qed.

Lemma normalize_newlines_no_cr content : ~ In CR (normalize_newlines content).
Proof.
  unfold normalize_newlines, replace_char. intros Hin.
  apply in_map_iff in Hin as (c & Hc & _).
  destruct (N.eqb_spec c CR); [discriminate|congruence].
Qed.

Lemma replace_crlf_absent s : ~ In CR s -> replace_crlf s = s.
Proof.
  induction s as [|c s IH]; [done|]. intros Hn.
  destruct s as [|d s]; [done|].
  change (replace_crlf (c :: d :: s))
    with (if (c =? CR)%N && (d =? LF)%N then LF :: replace_crlf s
          else c :: replace_crlf (d :: s)).
  destruct (N.eqb_spec c CR) as [->|_]; [exfalso; apply Hn; by left|].
  cbn [andb]. rewrite IH; [done|].
  intros Hin. apply Hn. by right.
Qed.

Lemma normalize_newlines_absent s : ~ In CR s -> normalize_newlines s = s.
Proof.
  intros Hn. unfold normalize_newlines.
  rewrite replace_crlf_absent by done. by apply replace_char_absent.
Qed.

Lemma digits_no_cr ds : forallb is_digit ds = true -> ~ In CR ds.
Proof.
  intros Hd Hin. rewrite forallb_forall in Hd. apply Hd in Hin.
  vm_compute in Hin. discriminate.
Qed.

Lemma fits_absent (c0 : char) classes : forall t,
  Forall (fun p : char -> bool => p c0 = false) classes ->
  fits classes t = true -> ~ In c0 t.
Proof.
  induction classes as [|p classes IH]; intros [|c t] Hall; simpl; try done.
  - by intros _ [].
  - intros H [->|Hin].
    + apply andb_true_iff in H as [H _].
      rewrite (Forall_inv Hall) in H. done.
    + apply andb_true_iff in H as [_ H].
      by apply (IH t (Forall_inv_tail Hall)).
Qed.

Lemma timestamp_no_cr t : fits timestamp_classes t = true -> ~ In CR t.
Proof.
  apply fits_absent. unfold timestamp_classes.
  repeat constructor.
Qed.

Lemma write_block_no_cr sub :
  (0 <= index sub)%Z ->
  fits timestamp_classes (start_time sub) = true ->
  fits timestamp_classes (end_time sub) = true ->
  ~ In CR (body_text sub) -> ~ In CR (write_block sub).
Proof.
  intros Hi Hst Hen Hbody. unfold write_block.
  fold (body_text sub).
  destruct (str_of_int_digits _ Hi) as [_ Hd].
  rewrite !in_app_iff.
  pose proof (digits_no_cr _ Hd). pose proof (timestamp_no_cr _ Hst).
  pose proof (timestamp_no_cr _ Hen).
  assert (~ In CR (lit " --> ")) by (vm_compute; intuition discriminate).
  assert (~ In CR [LF]) by (vm_compute; intuition discriminate).
  assert (~ In CR [LF; LF]) by (vm_compute; intuition discriminate).
  tauto.
Qed.

Lemma concat_no_cr (blocks : list str) :
  Forall (fun b => ~ In CR b) blocks -> ~ In CR (concat blocks).
Proof.
  induction 1 as [|b blocks Hb _ IH]; simpl; [tauto|].
  rewrite in_app_iff. tauto.
Qed.

Lemma reader_block content sub :
  In sub (parse_content content) ->
  translated_text sub = None
  /\ body_text sub = text sub
  /\ ~ In CR (text sub)
  /\ (0 <= index sub)%Z
  /\ fits timestamp_classes (start_time sub) = true
  /\ fits timestamp_classes (end_time sub) = true
  /\ (ends_like_index (text sub) = false -> writable sub).
Proof.
  intros (m & pre & s' & Hn & Hp & Hb)%parse_content_In.
  apply block_pattern_inv in Hp
    as (ws1 & ws2 & ws3 & ws4 & tl & Hs' & _ & _ & _ & _ & Hg2 & _ & _
        & Hg3 & _ & _ & Hmin).
  apply block_of_match_fields in Hb as (Hi & Hst & Hen & Ht & Hne & Htr).
  destruct (strip_spec (g_text m)) as (lead & trail & Hg4 & _ & Htrail & Htrim).
  rewrite <- Ht in Hg4, Htrim. specialize (Htrim Hne).
  assert (Hbody : body_text sub = text sub).
  { unfold body_text, translated_or_text. rewrite Htr. by apply strip_fixed. }
  destruct (timestamp_with_comma _ Hg2) as (_ & Hs2 & _ & Hs4).
  destruct (timestamp_with_comma _ Hg3) as (_ & He2 & _ & He4).
  split; [done|]. split; [done|]. split.
  { intros Hin. apply (normalize_newlines_no_cr content).
    rewrite Hn, Hs', Hg4. rewrite !in_app_iff. tauto. }
  rewrite Hi, Hst, Hen.
  split; [apply int_of_digits_nonneg|].
  split; [done|]. split; [done|].
  intros Hend. unfold writable. rewrite Hbody, Hi, Hst, Hen.
  split; [apply int_of_digits_nonneg|].
  repeat (split; [done|]).
  apply (reader_inner_free lead _ trail (g_rest m)); try done.
  by rewrite <- Hg4.
Qed.

Lemma reader_output_no_cr content :
  ~ In CR (write_srt (parse_content content)).
Proof.
  unfold write_srt. apply concat_no_cr, Forall_map.
  rewrite sorted_by_index_perm.
  apply Forall_forall. intros sub Hin%list_elem_of_In.
  destruct (reader_block content sub Hin) as (_ & Hb & Hcr & Hi & Hst & Hen & _).
  apply write_block_no_cr; try done. by rewrite Hb.
Qed.

(** ** A text that ends like an index line is not read back *)

Lemma drop_while_spec p s :
  exists pre, s = pre ++ drop_while p s /\ forallb p pre = true.
Proof.
  induction s as [|c s (pre & Hs & Hp)]; simpl; [by exists []|].
  destruct (p c) eqn:Hc.
  - exists (c :: pre). simpl. rewrite Hc, Hp. by rewrite <- Hs.
  - by exists [].
Qed.

Lemma ends_like_index_inv t :
  ends_like_index t = true ->
  exists a ds,
    t = a ++ [LF; LF] ++ ds /\ ds <> [] /\ forallb is_digit ds = true.
Proof.
  unfold ends_like_index. destruct (rev t) as [|d r] eqn:Hr; [done|].
  intros H. apply andb_true_iff in H as [Hd H].
  destruct (drop_while_spec is_digit r) as (ds & Hds & Hp).
  destruct (drop_while is_digit r) as [|x [|y rest]]; try done.
  apply andb_true_iff in H as [->%is_lf_eq ->%is_lf_eq].
  apply (f_equal (@rev char)) in Hr. rewrite rev_involutive in Hr.
  exists (rev rest), (rev ds ++ [d]).
  split; [|split].
  - rewrite Hr, Hds. cbn [rev]. rewrite !rev_app_distr. cbn [rev app].
    by rewrite <- !app_assoc.
  - by destruct (rev ds).
  - rewrite forallb_app, forallb_rev, Hp. simpl. by rewrite Hd.
Qed.

Lemma reader_text_before_newline doc sub :
  (exists w, normalize_newlines doc = w ++ [LF]) ->
  In sub (parse_content doc) ->
  ends_like_index (text sub) = false.
Proof.
  intros (w & Hw) (m & pre & s' & Hn & Hp & Hb)%parse_content_In.
  apply block_pattern_inv in Hp
    as (ws1 & ws2 & ws3 & ws4 & tl & Hs' & _ & _ & _ & _ & _ & _ & _
        & _ & _ & Hrest & Hmin).
  apply block_of_match_fields in Hb as (_ & _ & _ & Ht & _ & _).
  destruct (strip_spec (g_text m)) as (lead & trail & Hg4 & _ & Htrail & _).
  rewrite <- Ht in Hg4.
  destruct (ends_like_index (text sub)) eqn:Hend; [exfalso|done].
  apply ends_like_index_inv in Hend as (a & ds & Htext & Hne & Hds).
  assert (Hcut : forall ws more,
            forallb is_space ws = true ->
            trail ++ g_rest m = ws ++ LF :: more -> False).
  { intros ws more Hws Heq.
    assert (Hb : boundary (([LF; LF] ++ ds ++ trail) ++ g_rest m) = true).
    { apply boundary_at. right. exists [LF; LF], ds, ws, more.
      rewrite <- !app_assoc, Heq. by repeat split. }
    rewrite (Hmin (lead ++ a) ([LF; LF] ++ ds ++ trail)) in Hb; [done| |done].
    rewrite Hg4, Htext. by rewrite <- !app_assoc. }
  apply boundary_at in Hrest
    as [Hnil|(nl & ds' & ws' & more & Heq & Hl & Hnl & _)].
  - rewrite Hnil, app_nil_r in Hcut.
    rewrite Hn, Hs', Hnil, Hg4, Htext, app_nil_r in Hw.
    destruct (rev trail) as [|z rt] eqn:Hrt;
      apply (f_equal (@rev char)) in Hrt; rewrite rev_involutive in Hrt;
      simpl in Hrt.
    + subst trail. destruct (exists_last Hne) as (ds0 & dl & Hdl).
      rewrite Hdl in Hw, Hds.
      rewrite app_nil_r, !app_assoc in Hw. apply app_inj_tail in Hw as [_ ->].
      rewrite forallb_app in Hds. simpl in Hds.
      apply andb_true_iff in Hds as [_ Hds]. vm_compute in Hds. discriminate.
    + rewrite Hrt in Hw, Htrail, Hcut. rewrite !app_assoc in Hw.
      apply app_inj_tail in Hw as [_ ->].
      apply (Hcut (rev rt) []); [|done].
      rewrite forallb_app in Htrail.
      by apply andb_true_iff in Htrail as [? _].
  - destruct nl as [|c nl]; simpl in Hl; [lia|].
    simpl in Hnl. apply andb_true_iff in Hnl as [->%is_lf_eq _].
    apply (Hcut trail (nl ++ ds' ++ ws' ++ LF :: more)); [done|].
    by rewrite Heq.
Qed.

Lemma written_ends_with_newline (blocks : list SubtitleBlock) :
  blocks <> [] -> exists w, concat (map write_block blocks) = w ++ [LF].
Proof.
  induction blocks as [|sub blocks IH]; [done|]. intros _.
  destruct blocks as [|sub' blocks].
  - cbn [map concat]. unfold write_block.
    eexists. rewrite app_nil_r.
    change [LF; LF] with ([LF] ++ [LF]). rewrite !app_assoc. reflexivity.
  - destruct IH as (w & Hw); [done|].
    change (concat (map write_block (sub :: sub' :: blocks)))
      with (write_block sub ++ concat (map write_block (sub' :: blocks))).
    rewrite Hw. exists (write_block sub ++ w). by rewrite app_assoc.
Qed.

(** ** Reading back what the writer wrote *)

(** C6, as the specification states it, fails: the reader takes the
    whole text [abc], empty line, [12] for the one block of this document,
    and from the written form of that block it reads back the text [abc]
    only. *)
Lemma digits_at_end_not_reread :
  let subtitles := parse_content digits_at_end_document in
  map text subtitles = [lit "abc" ++ [LF; LF] ++ lit "12"]
  /\ map text (parse_content (write_srt subtitles)) = [lit "abc"]
  /\ parse_content (write_srt subtitles) <> sorted_by_index subtitles.
Proof.
  vm_compute. split; [reflexivity|]. split; [reflexivity|]. discriminate.
Qed.

(** The reader takes back any list of writable blocks, in the order
    written, each with its body text as text and without translation. *)
Lemma parse_written_blocks subtitles :
  Forall writable subtitles ->
  Forall (fun sub => ~ In CR (body_text sub)) subtitles ->
  parse_content (write_srt subtitles) = map reread (sorted_by_index subtitles).
Proof.
  intros Hw Hcr. unfold parse_content, write_srt.
  assert (Hw' : Forall writable (sorted_by_index subtitles)).
  { by rewrite sorted_by_index_perm. }
  assert (Hcr' : Forall (fun sub => ~ In CR (body_text sub))
                   (sorted_by_index subtitles)).
  { by rewrite sorted_by_index_perm. }
  rewrite normalize_newlines_absent.
  - by apply (read_written _ Hw' []); left.
  - apply concat_no_cr, Forall_map.
    induction Hw' as [|sub l Hs Hl IH]; [constructor|].
    constructor.
    + destruct Hs as (? & ? & ? & _).
      apply write_block_no_cr; try done. by apply (Forall_inv Hcr').
    + apply IH. by apply (Forall_inv_tail Hcr').
Qed.

(** C6, amended. For every sequence of blocks that the reader produces in
    which no text ends with an empty line followed by a last line of
    digits only, reading the output of the writer gives the same blocks
    again, in the order of the writer (sorted by index): the same indices,
    start and end times, no translation, and as text the body text that
    was written, which is the text of the block. *)
Theorem reread_written_blocks (content : str) :
  let subtitles := parse_content content in
  (forall sub, In sub subtitles -> ends_like_index (text sub) = false) ->
  parse_content (write_srt subtitles) = sorted_by_index subtitles
  /\ parse_content (write_srt subtitles) ≡ₚ subtitles
  /\ Forall (fun sub => translated_text sub = None
                        /\ strip (translated_or_text sub) = text sub)
       (parse_content (write_srt subtitles)).
Proof.
  intros subtitles Hend.
  assert (Hall : Forall (fun sub => translated_text sub = None
                                    /\ body_text sub = text sub
                                    /\ ~ In CR (text sub)
                                    /\ writable sub) subtitles).
  { apply Forall_forall. intros sub Hin%list_elem_of_In.
    destruct (reader_block content sub Hin) as (H1 & H2 & H3 & _ & _ & _ & H4).
    repeat (split; [done|]). apply H4. by apply Hend. }
  assert (Heq : parse_content (write_srt subtitles) = sorted_by_index subtitles).
  { rewrite parse_written_blocks.
    - rewrite <- (map_id (sorted_by_index subtitles)) at 2.
      apply map_ext_in. intros sub Hin.
      assert (Hs : sub ∈ subtitles).
      { rewrite <- (sorted_by_index_perm subtitles). by apply list_elem_of_In. }
      rewrite Forall_forall in Hall.
      destruct (Hall sub Hs) as (Htr & Hb & _).
      unfold reread. rewrite Hb, <- Htr. by destruct sub.
    - eapply Forall_impl; [exact Hall|]. by intros sub (_ & _ & _ & ?).
    - eapply Forall_impl; [exact Hall|]. intros sub (_ & Hb & ? & _).
      by rewrite Hb. }
  split; [exact Heq|]. rewrite Heq.
  split; [apply sorted_by_index_perm|].
  rewrite sorted_by_index_perm.
  eapply Forall_impl; [exact Hall|]. by intros sub (? & ? & _).
Qed.

Lemma reread_written_blocks_witness :
  parse_content (write_srt (parse_content shuffled_document))
  = sorted_by_index (parse_content shuffled_document)
  /\ map index (parse_content (write_srt (parse_content shuffled_document)))
     = [1; 2; 3]%Z.
Proof.
  destruct (reread_written_blocks shuffled_document) as (Heq & _).
  { intros sub Hin. vm_compute in Hin.
    destruct Hin as [<-|[<-|[<-|[]]]]; reflexivity. }
  split; [exact Heq|]. rewrite Heq. vm_compute. reflexivity.
Defined.

(** X1. A block of the reader whose text ends with an empty line followed
    by a line of digits is never among the blocks read back from the
    output of the writer, and the blocks read back are then no permutation
    of the blocks written: the condition of the amended C6 is needed for
    every block. *)
Lemma text_like_index_not_reread (content : str) (sub : SubtitleBlock) :
  let subtitles := parse_content content in
  In sub subtitles ->
  ends_like_index (text sub) = true ->
  ~ In sub (parse_content (write_srt subtitles))
  /\ ~ parse_content (write_srt subtitles) ≡ₚ subtitles.
Proof.
  intros subtitles Hin Hend.
  assert (Hno : ~ In sub (parse_content (write_srt subtitles))).
  { intros Hre. apply reader_text_before_newline in Hre; [congruence|].
    rewrite normalize_newlines_absent by apply reader_output_no_cr.
    unfold write_srt. apply written_ends_with_newline.
    intros Hnil. apply list_elem_of_In in Hin.
    rewrite <- (sorted_by_index_perm subtitles), Hnil in Hin.
    by apply elem_of_nil in Hin. }
  split; [exact Hno|].
  intros Hperm. apply Hno. apply list_elem_of_In. rewrite Hperm.
  by apply list_elem_of_In.
Qed.

(** ** Collapsing newlines *)

Lemma collapse_newlines_skip u : forall s,
  collapse_newlines (length u) (u ++ s) = collapse_newlines 0 s.
Proof.
  induction u as [|c u IH]; intros s; simpl; [by destruct s|]. apply IH.
Qed.

Lemma collapse_newlines_other c s :
  is_lf c = false ->
  collapse_newlines 0 (c :: s) = c :: collapse_newlines 0 s.
Proof.
  intros Hc. cbn [collapse_newlines]. unfold rep_ge. cbn [rep chr].
  by rewrite Hc.
Qed.

(** A run of three or more newlines becomes two newlines. *)
Lemma collapse_newlines_run n s :
  3 <= n -> head_fails is_lf s ->
  collapse_newlines 0 (replicate n LF ++ s) = LF :: LF :: collapse_newlines 0 s.
Proof.
  intros Hn Hs.
  destruct n as [|[|[|n]]]; try lia.
  assert (Hm : rep_ge 3 is_lf (fun rest => Some rest)
                 (replicate (S (S (S n))) LF ++ s) = Some s).
  { unfold rep_ge. cbn [replicate app rep chr]. change (is_lf LF) with true.
    cbv iota. apply star_greedy; [|done|done].
    apply forallb_forall. intros x Hx%list_elem_of_In.
    by apply elem_of_replicate in Hx as [-> _]. }
  change (replicate (S (S (S n))) LF ++ s)
    with (LF :: (replicate (S (S n)) LF ++ s)) in *.
  cbn [collapse_newlines]. rewrite Hm. do 2 f_equal.
  replace (length (LF :: replicate (S (S n)) LF ++ s) - length s - 1)
    with (length (replicate (S (S n)) LF)).
  - apply collapse_newlines_skip.
  - simpl. rewrite !length_app, !length_replicate. simpl. lia.
Qed.

(** One or two newlines stay. *)
Lemma collapse_newlines_short n s :
  n < 3 -> head_fails is_lf s ->
  collapse_newlines 0 (replicate n LF ++ s)
  = replicate n LF ++ collapse_newlines 0 s.
Proof.
  intros Hn Hs.
  assert (Hnone : forall k, k < 3 ->
            rep_ge 3 is_lf (fun rest => Some rest) (replicate k LF ++ s) = None).
  { intros k Hk. unfold rep_ge.
    destruct k as [|[|[|k]]]; try lia; cbn [replicate app rep chr];
      change (is_lf LF) with true; cbv iota;
      destruct s as [|c s]; simpl in *; try done; by rewrite Hs. }
  destruct n as [|[|[|n]]]; try lia.
  - reflexivity.
  - cbn [replicate app]. cbn [collapse_newlines].
    change (LF :: s) with (replicate 1 LF ++ s). by rewrite Hnone by lia.
  - cbn [replicate app]. cbn [collapse_newlines].
    change (LF :: LF :: s) with (replicate 2 LF ++ s). rewrite Hnone by lia.
    do 1 f_equal. destruct s as [|c s]; [reflexivity|].
    cbn [collapse_newlines].
    change (LF :: c :: s) with (replicate 1 LF ++ c :: s).
    by rewrite Hnone by lia.
Qed.

(** ** Effects: calls and waits *)

Lemma world_eta (w : World) : {| calls := calls w; events := events w |} = w.
Proof. by destruct w. Qed.

Lemma sleeps_app (e1 e2 : list Event) : sleeps (e1 ++ e2) = sleeps e1 ++ sleeps e2.
Proof. unfold sleeps. by rewrite flat_map_app. Qed.

Lemma call_api_result backend request w :
  _call_api backend request w
  = (api_result backend (calls w) request,
     {| calls := S (calls w);
        events := events w ++ call_events backend (calls w) request |}).
Proof.
  unfold api_result, call_events, _call_api, bind, emit. cbn [calls events].
  destruct (backend (calls w) request) as [|[content|]]; cbn [fst snd events];
    by rewrite <- ?app_assoc.
Qed.

Lemma sleeps_call_events backend n request :
  sleeps (call_events backend n request) = [].
Proof.
  unfold call_events, _call_api, bind, emit. cbn [calls events].
  by destruct (backend n request) as [|[content|]].
Qed.

Lemma attempts_all_fail backend request retry_count n :
  forall a0 w,
    (forall j, j < n ->
       usable (api_result backend (calls w + j) request) = None) ->
    translate_text_attempts backend request retry_count (seq a0 n) w
    = (None,
       {| calls := calls w + n;
          events := events w
                    ++ flat_map
                         (fun j => failed_attempt_events backend request
                                     retry_count (calls w + j) (a0 + j))
                         (seq 0 n) |}).
Proof.
  induction n as [|n IH]; intros a0 w Hfail; simpl.
  - unfold ret. rewrite Nat.add_0_r, app_nil_r. by rewrite world_eta.
  - unfold bind at 1. rewrite call_api_result.
    pose proof (Hfail 0 ltac:(lia)) as H0.
    rewrite Nat.add_0_r in H0. rewrite H0. clear H0.
    rewrite <- (seq_shift n 0), flat_map_concat_map, map_map,
      <- flat_map_concat_map.
    unfold bind at 1.
    assert (Hb : backoff retry_count a0
                   {| calls := S (calls w);
                      events := events w
                                ++ call_events backend (calls w) request |}
                 = (tt, {| calls := S (calls w);
                           events := events w
                                     ++ failed_attempt_events backend request
                                          retry_count (calls w + 0) (a0 + 0) |})).
    { unfold backoff, failed_attempt_events. rewrite !Nat.add_0_r.
      destruct (Z.of_nat a0 <? Z.of_nat retry_count - 1)%Z.
      - unfold bind, sleep, emit. simpl. by rewrite <- !app_assoc.
      - unfold ret. by rewrite app_nil_r. }
    rewrite Hb, IH; cbn [calls events].
    + rewrite <- app_assoc. do 2 f_equal; [lia|]. do 2 f_equal.
      apply flat_map_ext. intros j. f_equal; lia.
    + intros j Hj. rewrite <- (Hfail (S j)) by lia. do 2 f_equal. lia.
Qed.

Lemma attempts_succeed backend request retry_count k r later :
  forall a0 w,
    (forall j, j < k ->
       usable (api_result backend (calls w + j) request) = None) ->
    usable (api_result backend (calls w + k) request) = Some r ->
    translate_text_attempts backend request retry_count
      (seq a0 k ++ (a0 + k) :: later) w
    = (Some (strip_label (strip r)),
       {| calls := calls w + S k;
          events := events w
                    ++ flat_map
                         (fun j => failed_attempt_events backend request
                                     retry_count (calls w + j) (a0 + j))
                         (seq 0 k)
                    ++ call_events backend (calls w + k) request |}).
Proof.
  induction k as [|k IH]; intros a0 w Hfail Hok; simpl.
  - unfold bind at 1. rewrite call_api_result.
    rewrite Nat.add_0_r in Hok. rewrite Hok. unfold ret.
    rewrite Nat.add_0_r. do 2 f_equal. lia.
  - unfold bind at 1. rewrite call_api_result.
    pose proof (Hfail 0 ltac:(lia)) as H0.
    rewrite Nat.add_0_r in H0. rewrite H0. clear H0.
    replace (a0 + S k) with (S a0 + k) by lia.
    rewrite <- (seq_shift k 0), flat_map_concat_map, map_map,
      <- flat_map_concat_map.
    unfold bind at 1.
    assert (Hb : backoff retry_count a0
                   {| calls := S (calls w);
                      events := events w
                                ++ call_events backend (calls w) request |}
                 = (tt, {| calls := S (calls w);
                           events := events w
                                     ++ failed_attempt_events backend request
                                          retry_count (calls w + 0) (a0 + 0) |})).
    { unfold backoff, failed_attempt_events. rewrite !Nat.add_0_r.
      destruct (Z.of_nat a0 <? Z.of_nat retry_count - 1)%Z.
      - unfold bind, sleep, emit. simpl. by rewrite <- !app_assoc.
      - unfold ret. by rewrite app_nil_r. }
    rewrite Hb, IH; cbn [calls events].
    + rewrite <- !app_assoc. do 2 f_equal; [lia|]. do 2 f_equal.
      f_equal.
      * apply flat_map_ext. intros j. f_equal; lia.
      * f_equal. lia.
    + intros j Hj. rewrite <- (Hfail (S j)) by lia. do 2 f_equal. lia.
    + rewrite <- Hok. do 2 f_equal. lia.
Qed.

Lemma translate_text_exhausted backend text context retry_count w :
  (forall j, j < retry_count ->
     usable (api_result backend (calls w + j) (SingleRequest text context))
     = None) ->
  translate_text backend text context retry_count w
  = (text,
     {| calls := calls w + retry_count;
        events := events w
                  ++ flat_map
                       (fun j => failed_attempt_events backend
                                   (SingleRequest text context) retry_count
                                   (calls w + j) (0 + j))
                       (seq 0 retry_count)
                  ++ [Log ERROR] |}).
Proof.
  intros Hfail. unfold translate_text, bind at 1.
  rewrite attempts_all_fail by exact Hfail.
  unfold bind, emit, ret. simpl. by rewrite <- app_assoc.
Qed.

Lemma translate_text_answered backend text context retry_count k r w :
  k < retry_count ->
  (forall j, j < k ->
     usable (api_result backend (calls w + j) (SingleRequest text context))
     = None) ->
  usable (api_result backend (calls w + k) (SingleRequest text context))
  = Some r ->
  translate_text backend text context retry_count w
  = (strip_label (strip r),
     {| calls := calls w + S k;
        events := events w
                  ++ flat_map
                       (fun j => failed_attempt_events backend
                                   (SingleRequest text context) retry_count
                                   (calls w + j) (0 + j))
                       (seq 0 k)
                  ++ call_events backend (calls w + k)
                       (SingleRequest text context) |}).
Proof.
  intros Hk Hfail Hok. unfold translate_text, bind at 1.
  replace retry_count with (k + S (retry_count - S k)) at 2 by lia.
  rewrite seq_app. simpl seq.
  rewrite (attempts_succeed _ _ _ k r) by assumption.
  reflexivity.
Qed.

Lemma sleeps_failed_attempts backend request retry_count c n :
  n <= retry_count ->
  sleeps (flat_map
            (fun j => failed_attempt_events backend request retry_count
                        (c + j) (0 + j))
            (seq 0 n))
  = map (fun a => (1000 * 2 ^ N.of_nat a)%N)
        (seq 0 (Nat.min n (retry_count - 1))).
Proof.
  induction n as [|n IH]; intros Hn; [reflexivity|].
  rewrite seq_S, flat_map_app, sleeps_app, IH by lia.
  cbn [flat_map Nat.add]. rewrite app_nil_r.
  unfold failed_attempt_events. rewrite sleeps_app, sleeps_call_events.
  destruct (Z.ltb_spec (Z.of_nat n) (Z.of_nat retry_count - 1)) as [Hlt|Hge].
  - replace (Nat.min (S n) (retry_count - 1)) with (S n) by lia.
    replace (Nat.min n (retry_count - 1)) with n by lia.
    rewrite seq_S, map_app. reflexivity.
  - replace (Nat.min (S n) (retry_count - 1)) with (Nat.min n (retry_count - 1))
      by lia.
    cbn [sleeps flat_map app]. by rewrite app_nil_r.
Qed.

(** C7, as the specification states it, fails: with the ceiling of 3
    attempts and a backend that always fails, [translate_text] calls the
    backend three times and waits twice, 1 s and 2 s; no wait follows the
    last attempt. *)
Lemma three_failures_wait_twice :
  let w := snd (translate_text failing_backend (lit "Hei") [] 3 initial_world) in
  calls w = 3
  /\ sleeps (events w) = [1000; 2000]%N
  /\ sleeps (events w) <> [1000; 2000; 4000]%N.
Proof. repeat split. discriminate. Qed.

(** C7, amended. [translate_text] calls the backend until a call gives a
    usable answer, at most [retry_count] times (3 by default); after the
    failed attempt number [a], counted from 0, it waits [2 ^ a] seconds,
    except after the last attempt of the ceiling, which is followed by no
    wait. With [k] failed attempts before the first usable answer (or
    [k = retry_count] when every attempt fails) the waits are those of the
    attempts [0 .. min k (retry_count - 1) - 1]. *)
Theorem backoff_waits_between_attempts
    (backend : Backend) (text context : str) (retry_count k : nat) (w : World) :
  k <= retry_count ->
  (forall j, j < k ->
     usable (api_result backend (calls w + j) (SingleRequest text context))
     = None) ->
  (k < retry_count ->
     usable (api_result backend (calls w + k) (SingleRequest text context))
     <> None) ->
  let w' := snd (translate_text backend text context retry_count w) in
  calls w' = calls w + Nat.min (S k) retry_count
  /\ sleeps (events w')
     = sleeps (events w)
       ++ map (fun a => (1000 * 2 ^ N.of_nat a)%N)
              (seq 0 (Nat.min k (retry_count - 1))).
Proof.
  intros Hk Hfail Hok.
  destruct (decide (k < retry_count)) as [Hlt|Hge].
  - destruct (usable (api_result backend (calls w + k)
                        (SingleRequest text context))) as [r|] eqn:Hr;
      [|by destruct (Hok Hlt)].
    intros w'. subst w'.
    rewrite (translate_text_answered _ _ _ _ k r) by assumption.
    cbn [snd calls events]. split; [lia|].
    rewrite !sleeps_app, sleeps_call_events, app_nil_r.
    f_equal. apply sleeps_failed_attempts. lia.
  - assert (k = retry_count) by lia. subst k.
    intros w'. subst w'.
    rewrite translate_text_exhausted by assumption.
    cbn [snd calls events]. split; [lia|].
    rewrite !sleeps_app. cbn [sleeps flat_map app]. rewrite app_nil_r.
    f_equal. rewrite sleeps_failed_attempts by lia. reflexivity.
Qed.

Lemma backoff_waits_between_attempts_witness :
  let w' := snd (translate_text failing_backend (lit "Hei") [] 3 initial_world) in
  calls w' = 0 + Nat.min 4 3
  /\ sleeps (events w')
     = [] ++ map (fun a => (1000 * 2 ^ N.of_nat a)%N) (seq 0 (Nat.min 3 (3 - 1))).
Proof.
  apply (backoff_waits_between_attempts
           failing_backend (lit "Hei") [] 3 3 initial_world).
  - lia.
  - intros j _. reflexivity.
  - lia.
Defined.

(** ** The per-item fallback when every attempt fails *)

Lemma set_translated_lookup j t subtitles sub :
  subtitles !! j = Some sub ->
  set_translated j t subtitles !! j = Some (with_translation t sub).
Proof.
  intros Hj. unfold set_translated.
  by rewrite list_lookup_alter_eq, Hj.
Qed.

Lemma set_translated_lookup_ne j j' t subtitles :
  j <> j' -> set_translated j t subtitles !! j' = subtitles !! j'.
Proof. intros Hne. unfold set_translated. by apply list_lookup_alter_ne. Qed.

Lemma translate_item_run backend context j st w :
  translate_item backend context j st w
  = let r := translate_text backend (text_at (fst st) j) context
               default_retry_count w in
    ((set_translated j (fst r) (fst st), S (snd st)), snd r).
Proof.
  unfold translate_item, bind, ret.
  by destruct (translate_text _ _ _ _ w).
Qed.

(** C1, as the specification states it, fails: with a backend that always
    fails, the block that went through the exhausted fallback has
    [translated_text] set, to its own source text. *)
Lemma exhausted_fallback_sets_translation :
  let sub := {| index := 1; start_time := lit "00:00:01,000";
                end_time := lit "00:00:02,500"; text := lit "Hei";
                translated_text := None |} in
  fst (translate_batch failing_backend [sub] 5 initial_world)
  = Some [with_translation (lit "Hei") sub]
  /\ translated_text (with_translation (lit "Hei") sub) <> None.
Proof. split; [reflexivity|discriminate]. Qed.

(** C1, amended. When the per-item fallback of a block uses up all the
    attempts (3) without a usable answer, the block's [translated_text] is
    set to the block's own source text, and the block is then written
    exactly as the block without a translation is: with its source text. *)
Theorem exhausted_fallback_keeps_source
    (backend : Backend) (context : str) (j : nat) (sub : SubtitleBlock)
    (st : BatchState) (w : World) :
  fst st !! j = Some sub ->
  (forall a, a < default_retry_count ->
     usable (api_result backend (calls w + a)
               (SingleRequest (text sub) context)) = None) ->
  let st' := fst (translate_item backend context j st w) in
  let w' := snd (translate_item backend context j st w) in
  calls w' = calls w + default_retry_count
  /\ fst st' !! j = Some (with_translation (text sub) sub)
  /\ (forall j', j' <> j -> fst st' !! j' = fst st !! j')
  /\ translated_or_text (with_translation (text sub) sub) = text sub
  /\ write_block (with_translation (text sub) sub)
     = write_block (untranslated sub).
Proof.
  intros Hj Hfail st' w'. subst st' w'.
  rewrite translate_item_run.
  assert (Ht : text_at (fst st) j = text sub).
  { unfold text_at. by rewrite Hj. }
  rewrite Ht, translate_text_exhausted by assumption.
  cbn [fst snd calls].
  assert (Hb : translated_or_text (with_translation (text sub) sub) = text sub).
  { unfold translated_or_text. simpl. by destruct (truthy (text sub)). }
  split; [done|].
  split; [by apply set_translated_lookup|].
  split; [intros j' Hne; by apply set_translated_lookup_ne|].
  split; [exact Hb|].
  unfold write_block. by rewrite Hb.
Qed.

Lemma exhausted_fallback_keeps_source_witness :
  let sub := {| index := 1; start_time := lit "00:00:01,000";
                end_time := lit "00:00:02,500"; text := lit "Hei";
                translated_text := None |} in
  let st' := fst (translate_item failing_backend [] 0 ([sub], 0) initial_world) in
  fst st' !! 0 = Some (with_translation (lit "Hei") sub)
  /\ write_block (with_translation (lit "Hei") sub) = write_block (untranslated sub).
Proof.
  intros sub.
  destruct (exhausted_fallback_keeps_source failing_backend [] 0 sub
              ([sub], 0) initial_world eq_refl (fun a _ => eq_refl))
    as (_ & H1 & _ & _ & H2).
  split; [exact H1|exact H2].
Defined.

(** ** Reconciling a batch response *)

Lemma apply_pair_marker i len st pair :
  apply_pair i len st pair
  = match marker_position i len pair with
    | Some j =>
        ((set_translated j (clean_segment (snd pair)) (fst (fst st)),
          S (snd (fst st))), true)
    | None => st
    end.
Proof.
  unfold apply_pair, marker_position, clean_segment.
  destruct (Z.leb_spec 0 (int_of_digits (fst pair) - 1));
    destruct (Z.leb_spec 1 (int_of_digits (fst pair))); try lia;
    destruct (Z.ltb_spec (int_of_digits (fst pair) - 1) (Z.of_nat len));
    destruct (Z.leb_spec (int_of_digits (fst pair)) (Z.of_nat len)); try lia;
    reflexivity.
Qed.

Lemma fold_apply_pair_untouched i len pairs j : forall st,
  (forall p, In p pairs -> marker_position i len p <> Some j) ->
  fst (fst (fold_left (apply_pair i len) pairs st)) !! j = fst (fst st) !! j.
Proof.
  induction pairs as [|p pairs IH]; intros st Hno; simpl; [done|].
  rewrite IH by (intros q Hq; apply Hno; by right).
  rewrite apply_pair_marker.
  destruct (marker_position i len p) as [j'|] eqn:Hp; [|done].
  simpl. apply set_translated_lookup_ne.
  intros ->. by apply (Hno p); [left|].
Qed.

Lemma fold_apply_pair_flag i len pairs : forall st,
  snd (fold_left (apply_pair i len) pairs st)
  = snd st || existsb (fun p => bool_decide (marker_position i len p <> None)) pairs.
Proof.
  induction pairs as [|p pairs IH]; intros st; simpl.
  - by rewrite orb_false_r.
  - rewrite IH, apply_pair_marker.
    destruct (marker_position i len p); simpl.
    + by rewrite orb_true_r.
    + by destruct (snd st).
Qed.

Lemma apply_pairs_last i len before pair after st j sub :
  marker_position i len pair = Some j ->
  (forall p, In p after -> marker_position i len p <> Some j) ->
  fst st !! j = Some sub ->
  exists sub',
    fst (fst (apply_pairs i len (before ++ pair :: after) st)) !! j = Some sub'
    /\ translated_text sub' = Some (clean_segment (snd pair))
    /\ fixed_fields sub' = fixed_fields sub.
Proof.
  intros Hp Hafter Hj. unfold apply_pairs.
  rewrite fold_left_app. simpl.
  rewrite fold_apply_pair_untouched by exact Hafter.
  rewrite apply_pair_marker, Hp. simpl.
  set (mid := fold_left (apply_pair i len) before (st, false)).
  assert (Hmid : exists s0, fst (fst mid) !! j = Some s0
                            /\ fixed_fields s0 = fixed_fields sub).
  { subst mid. change st with (fst (st, false)) in Hj.
    generalize dependent (st, false). clear Hafter Hp. intros stf. revert stf sub.
    induction before as [|q before IH]; intros stf sub Hj; simpl; [by eauto|].
    rewrite apply_pair_marker.
    destruct (marker_position i len q) as [j'|]; [|by apply IH].
    destruct (decide (j' = j)) as [->|Hne].
    - destruct (IH (set_translated j (clean_segment (snd q)) (fst (fst stf)),
                    S (snd (fst stf)), true)
                  (with_translation (clean_segment (snd q)) sub)) as (s0 & ? & ?).
      { simpl. by apply set_translated_lookup. }
      exists s0. split; [done|]. etrans; [eassumption|reflexivity].
    - apply IH. simpl. by rewrite set_translated_lookup_ne. }
  destruct Hmid as (s0 & Hs0 & Hf).
  exists (with_translation (clean_segment (snd pair)) s0).
  split; [by apply set_translated_lookup|].
  split; [done|].
  by rewrite <- Hf.
Qed.

Lemma batch_length_bound subtitles i batch_size :
  0 < batch_length subtitles i batch_size ->
  i + batch_length subtitles i batch_size <= length subtitles.
Proof.
  unfold batch_length. rewrite length_take, length_drop. lia.
Qed.

(** The positions of a batch are positions of the list. *)
Lemma batch_positions_exist (subtitles : list SubtitleBlock) i batch_size j :
  In j (seq i (batch_length subtitles i batch_size)) ->
  is_Some (subtitles !! j).
Proof.
  intros [Hi Hj]%in_seq. apply lookup_lt_is_Some_2.
  pose proof (batch_length_bound subtitles i batch_size). lia.
Qed.

Lemma translate_one_batch_applied backend batch_size i st w r :
  usable (api_result backend (calls w) (batch_request (fst st) batch_size i))
  = Some r ->
  snd (apply_pairs i (batch_length (fst st) i batch_size)
         (findall_markers 0 r) st) = true ->
  translate_one_batch backend batch_size i st w
  = (fst (apply_pairs i (batch_length (fst st) i batch_size)
            (findall_markers 0 r) st),
     {| calls := S (calls w);
        events := events w
                  ++ call_events backend (calls w)
                       (batch_request (fst st) batch_size i)
                  ++ [Log INFO; Sleep 500] |}).
Proof.
  intros Hr Hflag. unfold translate_one_batch, bind at 1.
  rewrite call_api_result. fold (batch_request (fst st) batch_size i).
  rewrite Hr.
  destruct (apply_pairs _ _ _ st) as [st' flag]. simpl in Hflag. subst flag.
  unfold bind, emit, ret. simpl. by rewrite <- !app_assoc.
Qed.

Lemma valid_marker_position i len (pair : str * str) :
  (1 <= int_of_digits (fst pair) <= Z.of_nat len)%Z ->
  marker_position i len pair
  = Some (i + Z.to_nat (int_of_digits (fst pair) - 1)).
Proof.
  intros [H1 H2]. unfold marker_position.
  destruct (Z.leb_spec 1 (int_of_digits (fst pair))); [|lia].
  destruct (Z.leb_spec (int_of_digits (fst pair)) (Z.of_nat len)); [|lia].
  reflexivity.
Qed.

Lemma other_marker_position i len (pair : str * str) (m : Z) :
  (1 <= m)%Z ->
  int_of_digits (fst pair) <> m ->
  marker_position i len pair <> Some (i + Z.to_nat (m - 1)).
Proof.
  intros Hm Hne. unfold marker_position.
  destruct (Z.leb_spec 1 (int_of_digits (fst pair))); [|done].
  destruct (Z.leb_spec (int_of_digits (fst pair)) (Z.of_nat len)); [|done].
  simpl. intros [= Heq]. lia.
Qed.

(** C3. In a batch of [n] blocks that starts at position [i] of the list,
    a segment of the response with marker [m], [1 <= m <= n], is assigned
    (trimmed, runs of three or more newlines collapsed to two) to the
    [m]-th block of the batch, the block at position [i + m - 1], whatever
    the index of that block: the block holds it once the pair has been
    processed, and holds it at the end of the batch when no later segment
    carries the same marker. *)
Theorem marker_assigns_batch_position
    (backend : Backend) (batch_size i : nat) (st : BatchState) (w : World)
    (r : str) (before after : list (str * str)) (num segment : str) :
  usable (api_result backend (calls w) (batch_request (fst st) batch_size i))
  = Some r ->
  findall_markers 0 r = before ++ (num, segment) :: after ->
  let n := batch_length (fst st) i batch_size in
  let m := int_of_digits num in
  (1 <= m <= Z.of_nat n)%Z ->
  exists sub : SubtitleBlock,
    fst st !! (i + Z.to_nat (m - 1)) = Some sub
    /\ (exists sub',
          fst (fst (apply_pairs i n (before ++ [(num, segment)]) st))
            !! (i + Z.to_nat (m - 1)) = Some sub'
          /\ translated_text sub' = Some (collapse_newlines 0 (strip segment))
          /\ fixed_fields sub' = fixed_fields sub)
    /\ ((forall p, In p after -> int_of_digits (fst p) <> m) ->
        exists sub',
          fst (fst (translate_one_batch backend batch_size i st w))
            !! (i + Z.to_nat (m - 1)) = Some sub'
          /\ translated_text sub' = Some (collapse_newlines 0 (strip segment))
          /\ fixed_fields sub' = fixed_fields sub).
Proof.
  intros Hr Hpairs n m Hm.
  assert (Hpos : marker_position i n (num, segment)
                 = Some (i + Z.to_nat (m - 1))).
  { by apply valid_marker_position. }
  assert (Hlt : i + Z.to_nat (m - 1) < length (fst st)).
  { pose proof (batch_length_bound (fst st) i batch_size). fold n in H. lia. }
  destruct (lookup_lt_is_Some_2 _ _ Hlt) as [sub Hsub].
  exists sub. split; [exact Hsub|]. split.
  - apply (apply_pairs_last i n before (num, segment) []); try done.
  - intros Hafter.
    rewrite (translate_one_batch_applied _ _ _ _ _ r); fold n.
    + rewrite Hpairs. cbn [fst].
      apply (apply_pairs_last i n before (num, segment) after); try done.
      intros p Hp. apply other_marker_position; [lia|]. by apply Hafter.
    + exact Hr.
    + unfold apply_pairs. rewrite fold_apply_pair_flag, Hpairs. simpl.
      rewrite existsb_app. simpl. rewrite Hpos. simpl.
      by rewrite orb_true_r.
Qed.

Lemma marker_assigns_batch_position_witness :
  exists sub',
    fst (fst (translate_one_batch (constant_backend full_response) 3 0
                (three_blocks, 0) initial_world)) !! 1 = Some sub'
    /\ translated_text sub' = Some (lit "B")
    /\ index sub' = 11%Z.
Proof.
  destruct (marker_assigns_batch_position
              (constant_backend full_response) 3 0 (three_blocks, 0)
              initial_world full_response
              [(lit "1", lit "A")] [(lit "3", lit "C")] (lit "2") (lit "B")
              eq_refl eq_refl)
    as (sub & Hsub & _ & Hend).
  { vm_compute. split; discriminate. }
  destruct Hend as (sub' & Hl & Ht & Hf).
  { intros p [<-|[]]. vm_compute. discriminate. }
  exists sub'. split; [exact Hl|]. split; [exact Ht|].
  injection Hsub as <-. by injection Hf.
Defined.

(** The example of the specification: the response [[1] A\n[2] B\n[3] C]
    for a batch of three blocks. *)
Lemma full_response_translates_all :
  fst (translate_batch (constant_backend full_response) three_blocks 3
         initial_world)
  = Some (zip_with with_translation [lit "A"; lit "B"; lit "C"] three_blocks).
Proof. reflexivity. Qed.

(** C2, as the specification states it, fails: for the response
    [[1] A\n[3] C] to a batch of three blocks, the first and the third block
    get their translations, the second block stays without one, and the
    batch call is the only call to the backend: no per-item fallback runs. *)
Lemma partial_response_skips_fallback :
  let run := translate_batch (constant_backend partial_response) three_blocks 3
               initial_world in
  (fmap (map translated_text) (fst run)
   = Some [Some (lit "A"); None; Some (lit "C")])
  /\ calls (snd run) = 1.
Proof. split; reflexivity. Qed.

(** C2, amended. When the response of a batch holds at least one marker
    of a block of the batch, the blocks whose markers it holds get their
    translations from the response (the last segment with the marker), no
    per-item fallback runs (the batch call is the only call to the
    backend), and every block that no marker addresses is left as it was:
    a block without a translation stays without one. *)
Theorem partial_response_leaves_unmatched
    (backend : Backend) (batch_size i : nat) (st : BatchState) (w : World)
    (r : str) :
  usable (api_result backend (calls w) (batch_request (fst st) batch_size i))
  = Some r ->
  let n := batch_length (fst st) i batch_size in
  let pairs := findall_markers 0 r in
  (exists p, In p pairs /\ marker_position i n p <> None) ->
  let st' := fst (translate_one_batch backend batch_size i st w) in
  let w' := snd (translate_one_batch backend batch_size i st w) in
  calls w' = S (calls w)
  /\ (forall j,
        (forall p, In p pairs -> marker_position i n p <> Some j) ->
        fst st' !! j = fst st !! j)
  /\ (forall j before p after sub,
        pairs = before ++ p :: after ->
        marker_position i n p = Some j ->
        (forall q, In q after -> marker_position i n q <> Some j) ->
        fst st !! j = Some sub ->
        exists sub',
          fst st' !! j = Some sub'
          /\ translated_text sub' = Some (clean_segment (snd p))
          /\ fixed_fields sub' = fixed_fields sub).
Proof.
  intros Hr n pairs (p0 & Hin & Hp0) st' w'. subst st' w'.
  rewrite (translate_one_batch_applied _ _ _ _ _ r); fold n; fold pairs.
  - cbn [fst snd calls]. split; [done|]. split.
    + intros j Hno. unfold apply_pairs.
      by rewrite fold_apply_pair_untouched.
    + intros j before p after sub Hpairs Hp Hafter Hj. rewrite Hpairs.
      by apply apply_pairs_last.
  - exact Hr.
  - unfold apply_pairs. rewrite fold_apply_pair_flag. simpl.
    apply existsb_exists. exists p0. split; [done|].
    by apply bool_decide_eq_true.
Qed.

Lemma partial_response_leaves_unmatched_witness :
  let run := translate_one_batch (constant_backend partial_response) 3 0
               (three_blocks, 0) initial_world in
  calls (snd run) = 1
  /\ fst (fst run) !! 1 = three_blocks !! 1.
Proof.
  destruct (partial_response_leaves_unmatched
              (constant_backend partial_response) 3 0 (three_blocks, 0)
              initial_world partial_response eq_refl)
    as (Hc & Hun & _).
  { exists (lit "1", lit "A"). split; [by left|discriminate]. }
  split; [exact Hc|].
  apply Hun. intros p [<-|[<-|[]]]; vm_compute; discriminate.
Defined.

(** ** The batch loop only writes [translated_text] *)

Lemma set_translated_fixed j t subtitles :
  map fixed_fields (set_translated j t subtitles) = map fixed_fields subtitles.
Proof.
  apply list_eq. intros k. rewrite !list_lookup_fmap. unfold set_translated.
  destruct (decide (j = k)) as [->|Hne].
  - rewrite list_lookup_alter_eq. by destruct (subtitles !! k).
  - by rewrite list_lookup_alter_ne.
Qed.

Lemma translate_item_fixed backend context j st w :
  map fixed_fields (fst (fst (translate_item backend context j st w)))
  = map fixed_fields (fst st).
Proof. rewrite translate_item_run. apply set_translated_fixed. Qed.

Lemma translate_each_fixed backend context positions : forall st w,
  map fixed_fields (fst (fst (translate_each backend context positions st w)))
  = map fixed_fields (fst st).
Proof.
  induction positions as [|j positions IH]; intros st w; simpl; [done|].
  unfold bind.
  pose proof (translate_item_fixed backend context j st w) as Hi.
  destruct (translate_item backend context j st w) as [st1 w1].
  rewrite IH. exact Hi.
Qed.

Lemma translate_missing_fixed backend context positions : forall st w,
  map fixed_fields (fst (fst (translate_missing backend context positions st w)))
  = map fixed_fields (fst st).
Proof.
  induction positions as [|j positions IH]; intros st w; simpl; [done|].
  destruct (truthy_opt (translated_at (fst st) j)); [apply IH|].
  unfold bind.
  pose proof (translate_item_fixed backend context j st w) as Hi.
  destruct (translate_item backend context j st w) as [st1 w1].
  rewrite IH. exact Hi.
Qed.

Lemma apply_pairs_fixed i len pairs st :
  map fixed_fields (fst (fst (apply_pairs i len pairs st)))
  = map fixed_fields (fst st).
Proof.
  unfold apply_pairs. change (fst st) with (fst (fst (st, false))).
  generalize (st, false). clear st.
  induction pairs as [|p pairs IH]; intros stf; simpl; [done|].
  rewrite IH, apply_pair_marker.
  destruct (marker_position i len p); [|done].
  apply set_translated_fixed.
Qed.

Lemma translate_one_batch_fixed backend batch_size i st w :
  map fixed_fields (fst (fst (translate_one_batch backend batch_size i st w)))
  = map fixed_fields (fst st).
Proof.
  unfold translate_one_batch, bind at 1. rewrite call_api_result.
  destruct (usable _) as [r|].
  - pose proof (apply_pairs_fixed i (batch_length (fst st) i batch_size)
                  (findall_markers 0 r) st) as Ha.
    destruct (apply_pairs _ _ _ st) as [st1 [|]]; simpl in Ha.
    + unfold bind, emit, ret. simpl. exact Ha.
    + unfold bind at 1 2, emit at 1. 
      match goal with
      | |- context [translate_missing ?b ?c ?ps ?s ?w0] =>
          pose proof (translate_missing_fixed b c ps s w0) as Hm;
          destruct (translate_missing b c ps s w0) as [st2 w2]
      end.
      unfold bind, emit, ret. simpl. by rewrite <- Ha.
  - unfold bind at 1, emit at 1. unfold bind at 1.
    match goal with
    | |- context [translate_each ?b ?c ?ps ?s ?w0] =>
        pose proof (translate_each_fixed b c ps s w0) as Hm;
        destruct (translate_each b c ps s w0) as [st2 w2]
    end.
    unfold bind, sleep, emit, ret. simpl. exact Hm.
Qed.

Lemma translate_batches_fixed backend batch_size starts : forall st w,
  map fixed_fields (fst (fst (translate_batches backend batch_size starts st w)))
  = map fixed_fields (fst st).
Proof.
  induction starts as [|i starts IH]; intros st w; simpl; [done|].
  unfold bind.
  pose proof (translate_one_batch_fixed backend batch_size i st w) as Hb.
  destruct (translate_one_batch backend batch_size i st w) as [st1 w1].
  rewrite IH. exact Hb.
Qed.

(** The starts of the batches are the multiples of the batch size below
    the length of the list: the bound on the number of batches loses none. *)
Lemma batch_starts_multiples total batch_size :
  0 < batch_size ->
  forall fuel i, total - i <= fuel ->
  forall j, In j (batch_starts fuel total batch_size i)
            <-> i <= j < total /\ exists k, j = i + k * batch_size.
Proof.
  intros Hbs. induction fuel as [|fuel IH]; intros i Hf j; simpl.
  - split; [done|]. intros [? _]. lia.
  - destruct (Nat.ltb_spec i total) as [Hlt|Hge]; simpl.
    + rewrite IH by lia. split.
      * intros [<-|(Hj & k & ->)].
        -- split; [lia|]. exists 0. lia.
        -- split; [lia|]. exists (S k). lia.
      * intros (Hj & [|k] & ->).
        -- left. lia.
        -- right. split; [nia|]. exists k. lia.
    + split; [done|]. intros [? _]. lia.
Qed.

(** C8. For every list of blocks, every backend and every batch size
    other than zero, [translate_batch] returns a list of the same length
    whose blocks have, position by position, the index, the start time,
    the end time and the source text of the blocks it was given: nothing
    is dropped, duplicated or reordered, and [translated_text] is the only
    field that may differ. *)
Theorem translate_batch_changes_only_translations
    (backend : Backend) (subtitles : list SubtitleBlock) (batch_size : Z)
    (w : World) :
  batch_size <> 0%Z ->
  exists translated : list SubtitleBlock,
    fst (translate_batch backend subtitles batch_size w) = Some translated
    /\ length translated = length subtitles
    /\ map fixed_fields translated = map fixed_fields subtitles
    /\ forall j sub,
         subtitles !! j = Some sub ->
         exists sub',
           translated !! j = Some sub'
           /\ index sub' = index sub
           /\ start_time sub' = start_time sub
           /\ end_time sub' = end_time sub
           /\ text sub' = text sub.
Proof.
  intros Hbs.
  assert (Hframe : forall translated,
            map fixed_fields translated = map fixed_fields subtitles ->
            length translated = length subtitles
            /\ map fixed_fields translated = map fixed_fields subtitles
            /\ forall j sub,
                 subtitles !! j = Some sub ->
                 exists sub',
                   translated !! j = Some sub'
                   /\ index sub' = index sub
                   /\ start_time sub' = start_time sub
                   /\ end_time sub' = end_time sub
                   /\ text sub' = text sub).
  { intros translated Hmap. split; [|split; [done|]].
    - by rewrite <- (length_map fixed_fields), Hmap, length_map.
    - intros j sub Hj.
      assert (Hl : map fixed_fields translated !! j = Some (fixed_fields sub)).
      { rewrite Hmap. change map with (@fmap list _) at 1.
        by rewrite list_lookup_fmap, Hj. }
      change map with (@fmap list _) in Hl.
      rewrite list_lookup_fmap in Hl.
      destruct (translated !! j) as [sub'|]; [|done].
      exists sub'. split; [done|].
      unfold fixed_fields in Hl. simpl in Hl. by injection Hl. }
  destruct batch_size as [|p|p]; [done| |].
  - unfold translate_batch, bind, ret.
    pose proof (translate_batches_fixed backend (Pos.to_nat p)
                  (batch_starts (length subtitles) (length subtitles)
                     (Pos.to_nat p) 0)
                  (subtitles, 0) w) as Hb.
    destruct (translate_batches _ _ _ _ w) as [st1 w1].
    exists (fst st1). split; [done|]. by apply Hframe.
  - exists subtitles. split; [done|]. by apply Hframe.
Qed.

Lemma translate_batch_changes_only_translations_witness :
  exists translated : list SubtitleBlock,
    fst (translate_batch (constant_backend partial_response) three_blocks 2
           initial_world) = Some translated
    /\ length translated = 3.
Proof.
  destruct (translate_batch_changes_only_translations
              (constant_backend partial_response) three_blocks 2 initial_world)
    as (translated & Ht & Hl & _).
  { discriminate. }
  exists translated. split; [exact Ht|exact Hl].
Defined.

(** ** Line ends and the blocks of the reader *)

Lemma replace_crlf_with_crlf s :
  ~ In CR s -> replace_crlf (with_crlf s) = s.
Proof.
  induction s as [|c s IH]; [done|]. intros Hn.
  assert (Hc : c <> CR) by (intros ->; apply Hn; by left).
  assert (Hs : ~ In CR s) by (intros H; apply Hn; by right).
  specialize (IH Hs).
  unfold with_crlf in *. cbn [flat_map].
  destruct (is_lf c) eqn:Hl.
  - apply is_lf_eq in Hl as ->. cbn [app replace_crlf].
    change ((CR =? CR)%N && (LF =? LF)%N) with true. cbv iota.
    by rewrite IH.
  - cbn [app replace_crlf].
    destruct (flat_map _ s) as [|d r] eqn:Hf.
    + by rewrite <- IH.
    + apply N.eqb_neq in Hc. rewrite Hc. cbn [andb]. by rewrite IH.
Qed.

Lemma normalize_with_crlf s : ~ In CR s -> normalize_newlines (with_crlf s) = s.
Proof.
  intros Hn. unfold normalize_newlines.
  rewrite replace_crlf_with_crlf by done. by apply replace_char_absent.
Qed.


Lemma replace_crlf_no_lf s : ~ In LF s -> replace_crlf s = s.
Proof.
  induction s as [|c s IH]; [done|]. intros Hn.
  assert (Hs : ~ In LF s) by (intros H; apply Hn; by right).
  cbn [replace_crlf]. destruct s as [|d s']; [done|].
  assert (Hd : d <> LF) by (intros ->; apply Hn; right; by left).
  apply N.eqb_neq in Hd. rewrite Hd, andb_false_r. by rewrite IH.
Qed.

Lemma normalize_with_cr s : ~ In CR s -> normalize_newlines (with_cr s) = s.
Proof.
  intros Hn. unfold normalize_newlines, with_cr.
  rewrite replace_crlf_no_lf.
  - unfold replace_char. rewrite map_map.
    rewrite <- (map_id s) at 2. apply map_ext_in. intros c Hc.
    destruct (N.eqb_spec c LF) as [->|Hl]; [reflexivity|].
    destruct (N.eqb_spec c CR) as [->|_]; [done|reflexivity].
  - unfold replace_char. rewrite in_map_iff. intros (c & Hc & _).
    destruct (N.eqb_spec c LF) as [Heq|Hl]; [discriminate|done].
Qed.

(** X2. A document without carriage returns is read to the same blocks, with
    the same log records, when its line ends are written [\r\n] or [\r]:
    the reader turns both into [\n] before it looks for blocks. *)
Theorem line_endings_read_alike (content : str) :
  ~ In CR content ->
  parse_srt (Content (with_crlf content)) = parse_srt (Content content)
  /\ parse_srt (Content (with_cr content)) = parse_srt (Content content).
Proof.
  intros Hn. unfold parse_srt, parse_content.
  rewrite normalize_with_crlf, normalize_with_cr, normalize_newlines_absent
    by done.
  done.
Qed.

Lemma line_endings_read_alike_witness :
  parse_srt (Content (with_crlf dotted_document))
  = parse_srt (Content dotted_document)
  /\ map index (snd (parse_srt (Content (with_crlf dotted_document)))) = [1; 2]%Z.
Proof.
  destruct (line_endings_read_alike dotted_document) as [H _].
  { vm_compute. intuition discriminate. }
  split; [exact H|]. rewrite H. vm_compute. reflexivity.
Defined.

(** X3. Every block that the reader returns has a text that is not empty
    and has no whitespace at either end (a block whose text is empty or
    only whitespace is left out), no carriage return in its text, an index
    that is not negative, and no translation. *)
Theorem parsed_blocks_have_trimmed_text (content : str) (sub : SubtitleBlock) :
  In sub (parse_content content) ->
  text sub <> []
  /\ strip (text sub) = text sub
  /\ head_fails is_space (text sub)
  /\ head_fails is_space (rev (text sub))
  /\ ~ In CR (text sub)
  /\ (0 <= index sub)%Z
  /\ translated_text sub = None.
Proof.
  intros Hin.
  destruct (reader_block content sub Hin) as (Htr & _ & Hcr & Hi & _).
  apply parse_content_In in Hin as (m & pre & s' & _ & _ & Hb).
  apply block_of_match_fields in Hb as (_ & _ & _ & Ht & Hne & _).
  destruct (strip_spec (g_text m)) as (_ & _ & _ & _ & _ & Htrim).
  rewrite <- Ht in Htrim. specialize (Htrim Hne).
  split; [done|]. split; [by apply strip_fixed|].
  destruct Htrim as (_ & Hh & Hl). done.
Qed.

Lemma parsed_blocks_have_trimmed_text_witness :
  exists sub, In sub (parse_content shuffled_document)
              /\ text sub = lit "Hei" ++ [LF] ++ lit "du"
              /\ strip (text sub) = text sub.
Proof.
  set (sub := {| index := 1; start_time := lit "00:00:01,000";
                 end_time := lit "00:00:02,500";
                 text := lit "Hei" ++ [LF] ++ lit "du";
                 translated_text := None |}).
  assert (Hin : In sub (parse_content shuffled_document)).
  { vm_compute. right. left. reflexivity. }
  destruct (parsed_blocks_have_trimmed_text shuffled_document sub Hin)
    as (_ & Hs & _).
  exists sub. split; [exact Hin|]. split; [reflexivity|exact Hs].
Defined.

(** ** The order of the written blocks *)

Lemma insert_by_index_least sub l :
  Forall (index_le sub) l -> insert_by_index sub l = sub :: l.
Proof.
  destruct l as [|d l]; [done|]. intros Hall. simpl.
  apply Forall_inv in Hall. unfold index_le in Hall.
  by destruct (Z.leb_spec (index sub) (index d)); [|lia].
Qed.

Lemma sorted_by_index_fixed l :
  StronglySorted index_le l -> sorted_by_index l = l.
Proof.
  induction 1 as [|a l Hs IH Ha]; [done|].
  cbn [sorted_by_index foldr]. fold (sorted_by_index l). rewrite IH.
  by apply insert_by_index_least.
Qed.

(** X4. A list whose indices do not decrease is written in the order it
    has: the sort of the writer leaves it as it is, so the blocks of a file
    that is numbered in order come out in the order of the file. *)
Theorem sorted_blocks_written_in_order (subtitles : list SubtitleBlock) :
  StronglySorted index_le subtitles ->
  sorted_by_index subtitles = subtitles
  /\ write_srt subtitles = concat (map write_block subtitles).
Proof.
  intros Hs. unfold write_srt. by rewrite sorted_by_index_fixed.
Qed.

Lemma sorted_blocks_written_in_order_witness :
  write_srt three_blocks = concat (map write_block three_blocks).
Proof.
  apply (sorted_blocks_written_in_order three_blocks).
  repeat constructor; unfold index_le; simpl; lia.
Defined.

Lemma same_index_same_block (l : list SubtitleBlock) a b :
  NoDup (map index l) -> a ∈ l -> b ∈ l -> index a = index b -> a = b.
Proof.
  induction l as [|c l IH]; simpl; intros Hnd Ha Hb Hi.
  - by apply elem_of_nil in Ha.
  - apply NoDup_cons in Hnd as [Hc Hnd].
    apply elem_of_cons in Ha as [->|Ha]; apply elem_of_cons in Hb as [->|Hb].
    + done.
    + exfalso. apply Hc. rewrite Hi. by apply list_elem_of_fmap_2.
    + exfalso. apply Hc. rewrite <- Hi. by apply list_elem_of_fmap_2.
    + by apply IH.
Qed.

(** X5. When no two blocks share an index, the text that the writer writes
    does not depend on the order of the list: every permutation of the list
    gives the same text. *)
Theorem write_srt_order_independent (subtitles shuffled : list SubtitleBlock) :
  NoDup (map index subtitles) ->
  shuffled ≡ₚ subtitles ->
  write_srt shuffled = write_srt subtitles.
Proof.
  intros Hnd Hp. unfold write_srt. do 2 f_equal.
  apply (StronglySorted_unique_strong index_le);
    try apply sorted_by_index_sorted.
  - intros x1 x2 H1 H2 Hle Hge. unfold index_le in *.
    rewrite sorted_by_index_perm in H1, H2. rewrite Hp in H1.
    apply (same_index_same_block subtitles); try done. lia.
  - by rewrite !sorted_by_index_perm.
Qed.

Lemma write_srt_order_independent_witness :
  write_srt (rev three_blocks) = write_srt three_blocks.
Proof.
  apply write_srt_order_independent.
  - apply (bool_decide_unpack (NoDup (map index three_blocks))).
    vm_compute. reflexivity.
  - symmetry. apply Permutation_rev.
Defined.

(** ** Reading back a written file *)

Lemma blank_line_found a b : blank_line_free (a ++ LF :: LF :: b) = false.
Proof.
  induction a as [|c a IH]; [reflexivity|].
  cbn [app blank_line_free]. 
  destruct (a ++ LF :: LF :: b) as [|d r] eqn:Hr.
  - by destruct a.
  - rewrite IH. apply andb_false_r.
Qed.

Lemma blank_line_free_inner t :
  trimmed t -> blank_line_free t = true -> inner_free t.
Proof.
  intros Htr Hfree a b tail -> Hb.
  destruct (boundary (b ++ [LF; LF] ++ tail)) eqn:Hbd; [exfalso|done].
  apply boundary_at in Hbd as [Hnil|(nl & ds & ws & more & Heq & Hl & Hnl & _)].
  { by destruct b. }
  destruct nl as [|x [|y nl]]; simpl in Hl; try lia.
  simpl in Hnl.
  apply andb_true_iff in Hnl as [->%is_lf_eq Hnl].
  apply andb_true_iff in Hnl as [->%is_lf_eq _].
  destruct b as [|c [|d b]]; [done| |].
  - destruct Htr as (_ & _ & Hlast).
    rewrite rev_app_distr in Hlast. simpl in Hlast, Heq.
    injection Heq as -> _. done.
  - simpl in Heq. injection Heq as -> -> _.
    by rewrite blank_line_found in Hfree.
Qed.

Lemma body_text_trimmed sub : body_text sub <> [] -> trimmed (body_text sub).
Proof.
  unfold body_text. intros Hne.
  destruct (strip_spec (translated_or_text sub)) as (_ & _ & _ & _ & _ & H).
  by apply H.
Qed.

Lemma well_formed_writable sub : well_formed sub -> writable sub.
Proof.
  intros (Hi & Hs & Hsd & He & Hed & Hne & _ & Hfree).
  rewrite is_timestamp_fits in Hs, He.
  pose proof (body_text_trimmed sub Hne) as Htr.
  repeat (split; [done|]).
  by apply blank_line_free_inner.
Qed.

Lemma insert_by_index_map (f : SubtitleBlock -> SubtitleBlock) sub l :
  (forall s, index (f s) = index s) ->
  insert_by_index (f sub) (map f l) = map f (insert_by_index sub l).
Proof.
  intros Hf. induction l as [|d l IH]; [done|]. cbn [map insert_by_index].
  rewrite !Hf. destruct (index sub <=? index d)%Z; [done|].
  cbn [map]. by rewrite IH.
Qed.

Lemma sorted_by_index_map (f : SubtitleBlock -> SubtitleBlock) l :
  (forall s, index (f s) = index s) ->
  sorted_by_index (map f l) = map f (sorted_by_index l).
Proof.
  intros Hf. induction l as [|a l IH]; [done|].
  cbn [map sorted_by_index foldr]. fold (sorted_by_index (map f l)).
  fold (sorted_by_index l). by rewrite IH, insert_by_index_map.
Qed.

Lemma write_block_reread sub :
  body_text sub <> [] -> write_block (reread sub) = write_block sub.
Proof.
  intros Hne. unfold write_block.
  change (index (reread sub)) with (index sub).
  change (start_time (reread sub)) with (start_time sub).
  change (end_time (reread sub)) with (end_time sub).
  change (translated_or_text (reread sub)) with (body_text sub).
  fold (body_text sub).
  by rewrite (strip_fixed (body_text sub)) by (by apply body_text_trimmed).
Qed.

(** X6. The file written from well-formed blocks, translated or not, is
    itself a subtitle file for the reader: it is read back block by block,
    in index order, each block with the body that was written as its text
    and without translation, and writing what was read gives the same file
    again. *)
Theorem written_file_reads_back (subtitles : list SubtitleBlock) :
  Forall well_formed subtitles ->
  parse_content (write_srt subtitles) = map reread (sorted_by_index subtitles)
  /\ write_srt (parse_content (write_srt subtitles)) = write_srt subtitles.
Proof.
  intros Hwf.
  assert (Hread : parse_content (write_srt subtitles)
                  = map reread (sorted_by_index subtitles)).
  { apply parse_written_blocks.
    - eapply Forall_impl; [exact Hwf|]. apply well_formed_writable.
    - eapply Forall_impl; [exact Hwf|]. by intros sub (_ & _ & _ & _ & _ & _ & ? & _). }
  split; [exact Hread|].
  rewrite Hread. unfold write_srt at 1.
  rewrite (sorted_by_index_map reread) by done.
  rewrite (sorted_by_index_fixed (sorted_by_index subtitles))
    by apply sorted_by_index_sorted.
  unfold write_srt. f_equal. rewrite map_map.
  apply map_ext_in. intros sub Hin%list_elem_of_In.
  rewrite sorted_by_index_perm in Hin.
  rewrite Forall_forall in Hwf.
  apply write_block_reread. by destruct (Hwf sub Hin) as (_ & _ & _ & _ & _ & ? & _).
Qed.

Lemma written_file_reads_back_witness :
  map text (parse_content (write_srt (rev translated_blocks)))
  = [lit "A"; lit "B"; lit "C"]
  /\ write_srt (parse_content (write_srt (rev translated_blocks)))
     = write_srt (rev translated_blocks).
Proof.
  destruct (written_file_reads_back (rev translated_blocks)) as [Hr Hw].
  { repeat constructor; vm_compute; try reflexivity;
      intuition discriminate. }
  split; [|exact Hw]. rewrite Hr. vm_compute. reflexivity.
Defined.

Lemma text_like_index_not_reread_witness :
  exists sub,
    In sub (parse_content digits_at_end_document)
    /\ ~ In sub (parse_content (write_srt (parse_content digits_at_end_document))).
Proof.
  set (sub := {| index := 1; start_time := lit "00:00:01,000";
                 end_time := lit "00:00:02,000";
                 text := lit "abc" ++ [LF; LF] ++ lit "12";
                 translated_text := None |}).
  assert (Hin : In sub (parse_content digits_at_end_document)).
  { vm_compute. left. reflexivity. }
  exists sub. split; [exact Hin|].
  apply (text_like_index_not_reread digits_at_end_document sub Hin).
  reflexivity.
Defined.

(** ** Documents without a timing line *)

Lemma starts_with_app w s : starts_with w (w ++ s) = true.
Proof. induction w as [|x w IH]; simpl; [done|]. by rewrite N.eqb_refl. Qed.

Lemma starts_with_inv w : forall s,
  starts_with w s = true -> exists b, s = w ++ b.
Proof.
  induction w as [|x w IH]; intros s; simpl; [by exists s|].
  destruct s as [|c s]; [done|].
  intros [->%N.eqb_eq Hs]%andb_true_iff.
  apply IH in Hs as (b & ->). by exists b.
Qed.

Lemma contains_occurs w s : contains w s = true <-> occurs_in w s.
Proof.
  split.
  - induction s as [|c s IH]; simpl.
    + rewrite orb_false_r. intros (b & Hb)%starts_with_inv. by exists [], b.
    + intros [(b & Hb)%starts_with_inv|Hs]%orb_true_iff.
      * by exists [], b.
      * destruct (IH Hs) as (a & b & ->). by exists (c :: a), b.
  - intros (a & b & ->). induction a as [|c a IH].
    + pose proof (starts_with_app w b) as Hw. cbn [app].
      destruct (w ++ b); simpl; by rewrite Hw.
    + simpl. rewrite IH. apply orb_true_r.
Qed.

(** Every suffix of the normalized text is the normalized form of a suffix
    of the text. *)
Lemma normalize_cons c s :
  normalize_newlines (c :: s)
  = (if (c =? CR)%N then LF else c)
    :: normalize_newlines (match s with
                           | d :: s' => if ((c =? CR) && (d =? LF))%N then s' else s
                           | [] => s
                           end).
Proof.
  unfold normalize_newlines. cbn [replace_crlf].
  destruct s as [|d s']; [reflexivity|].
  destruct ((c =? CR)%N && (d =? LF)%N) eqn:H.
  - apply andb_true_iff in H as [Hc Hd]. rewrite Hc. reflexivity.
  - reflexivity.
Qed.

Lemma normalize_suffix n : forall s pre suf,
  length s <= n ->
  normalize_newlines s = pre ++ suf ->
  exists a b, s = a ++ b /\ normalize_newlines b = suf.
Proof.
  induction n as [|n IH]; intros s pre suf Hlen Hn.
  - destruct s; [|simpl in Hlen; lia]. exists [], [].
    destruct pre, suf; try done.
  - destruct pre as [|x pre]; [by exists [], s|].
    destruct s as [|c s]; [done|].
    rewrite normalize_cons in Hn. cbn [app] in Hn. injection Hn as _ Hn.
    destruct s as [|d s'].
    + apply IH in Hn as (a & b & Hab & Hb); [|simpl; lia].
      exists (c :: a), b. by rewrite Hab.
    + destruct ((c =? CR)%N && (d =? LF)%N).
      * apply IH in Hn as (a & b & Hab & Hb); [|simpl in *; lia].
        exists (c :: d :: a), b. by rewrite Hab.
      * apply IH in Hn as (a & b & Hab & Hb); [|simpl in *; lia].
        exists (c :: a), b. by rewrite Hab.
Qed.

(** A text without [\r] and [\n] at the start of the normalized text is at
    the start of the text. *)
Lemma normalize_prefix w : forall s suf,
  ~ In CR w -> ~ In LF w ->
  normalize_newlines s = w ++ suf ->
  exists b, s = w ++ b.
Proof.
  induction w as [|x w IH]; intros s suf Hcr Hlf Hn; [by exists s|].
  destruct s as [|c s]; [done|].
  rewrite normalize_cons in Hn. cbn [app] in Hn. injection Hn as Hx Hn.
  assert (Hxcr : x <> CR) by (intros ->; apply Hcr; by left).
  assert (Hxlf : x <> LF) by (intros ->; apply Hlf; by left).
  destruct (N.eqb_spec c CR) as [->|Hc]; [done|]. subst x.
  assert (Hs : normalize_newlines s = w ++ suf).
  { destruct s as [|d s']; [done|]. exact Hn. }
  apply IH in Hs as (b & ->).
  - by exists b.
  - intros H. apply Hcr. by right.
  - intros H. apply Hlf. by right.
Qed.

Lemma normalize_occurs w s :
  ~ In CR w -> ~ In LF w ->
  occurs_in w (normalize_newlines s) -> occurs_in w s.
Proof.
  intros Hcr Hlf (pre & suf & Hn).
  apply (normalize_suffix (length s)) in Hn as (a & b & -> & Hb); [|done].
  apply normalize_prefix in Hb as (b' & ->); [|done|done].
  by exists a, b'.
Qed.

(** X7. A document in which the arrow [-->] does not occur has no block:
    the reader returns the empty list, with the record of the count and the
    warning about it, and [translate_file] returns [None] without a call to
    the backend. *)
Theorem no_arrow_no_block (content : str) :
  contains (lit "-->") content = false ->
  parse_srt (Content content) = ([INFO; WARNING], [])
  /\ forall (backend : Backend) (batch_size : Z) (w : World),
       fst (translate_file backend (Content content) batch_size w) = None
       /\ calls (snd (translate_file backend (Content content) batch_size w))
          = calls w.
Proof.
  intros Hno.
  assert (Hp : parse_content content = []).
  { destruct (parse_content content) as [|sub l] eqn:Hl; [done|]. exfalso.
    assert (Hin : In sub (parse_content content)) by (rewrite Hl; by left).
    apply parse_content_In in Hin as (m & pre & s' & Hn & Hm & _).
    apply block_pattern_inv in Hm as (ws1 & ws2 & ws3 & ws4 & tl & -> & _).
    apply not_true_iff_false in Hno. apply Hno.
    apply contains_occurs, normalize_occurs.
    - vm_compute. intuition discriminate.
    - vm_compute. intuition discriminate.
    - exists (pre ++ ws1 ++ g_index m ++ ws2 ++ [LF] ++ g_start m ++ ws3),
        (ws4 ++ g_end m ++ tl ++ [LF] ++ g_text m ++ g_rest m).
      rewrite Hn. by rewrite <- !app_assoc. }
  assert (Hs : parse_srt (Content content) = ([INFO; WARNING], [])).
  { unfold parse_srt. by rewrite Hp. }
  split; [exact Hs|].
  intros backend batch_size w. unfold translate_file. rewrite Hs.
  simpl. done.
Qed.

Lemma no_arrow_no_block_witness :
  parse_srt (Content (lit "1" ++ [LF] ++ lit "00:00:01,000 -> 00:00:02,000"
                      ++ [LF] ++ lit "Hei" ++ [LF]))
  = ([INFO; WARNING], []).
Proof. apply no_arrow_no_block. vm_compute. reflexivity. Defined.

(** ** Text after the end time *)

Lemma block_pattern_run_extra lead digits start stop extra g4 rest :
  forallb is_space lead = true ->
  digits <> [] -> forallb is_digit digits = true ->
  fits timestamp_classes start = true ->
  fits timestamp_classes stop = true ->
  forallb not_lf extra = true ->
  (forall a b, g4 = a ++ b -> b <> [] -> boundary (b ++ rest) = false) ->
  boundary rest = true ->
  block_pattern
    (lead ++ digits ++ [LF] ++ start ++ lit " --> " ++ stop ++ extra ++ [LF]
     ++ g4 ++ rest)
  = Some {| g_index := digits; g_start := start; g_end := stop;
            g_text := g4; g_rest := rest |}.
Proof.
  intros Hlead Hne Hds Hstart Hstop Hextra Hmin Hrest. unfold block_pattern.
  apply star_greedy; [done|by apply digits_head_not_space|].
  apply capture_plus_run; [done|done|reflexivity|].
  cbn [app]. rewrite star_lf_run by (by apply timestamp_head_not_space).
  rewrite capture_run by (intros k; by apply timestamp_run).
  change (lit " --> ") with ([32%N] ++ lit "-->" ++ [32%N]).
  rewrite <- !app_assoc.
  apply star_greedy; [done|reflexivity|].
  rewrite literal_app.
  apply star_greedy; [done|by apply timestamp_head_not_space|].
  rewrite capture_run by (intros k; by apply timestamp_run).
  rewrite lazy_star_skip; [|done|].
  - apply lazy_star_now. cbn [app chr]. change (is_lf LF) with true. cbv iota.
    apply capture_lazy_run; [by apply forallb_forall| |].
    + intros a b g Hab Hb. rewrite lookahead_boundary.
      by rewrite (Hmin a b).
    + by rewrite lookahead_boundary, Hrest.
  - intros a b -> Hb. destruct b as [|c b]; [done|].
    rewrite forallb_app in Hextra.
    apply andb_true_iff in Hextra as [_ Hc]. simpl in Hc.
    apply andb_true_iff in Hc as [Hc _].
    cbn [app chr]. unfold not_lf in Hc. unfold is_lf.
    by apply negb_true_iff in Hc as ->.
Qed.

Lemma read_written_with (items : list (str * SubtitleBlock)) :
  Forall (fun it => forallb not_lf (fst it) = true /\ writable (snd it)) items ->
  forall lead, lead = [] \/ lead = [LF] ->
  omap block_of_match
    (finditer_blocks true 0
       (lead ++ concat (map (fun it => write_block_with (fst it) (snd it))
                          items)))
  = map (fun it => reread (snd it)) items.
Proof.
  induction 1 as [|[extra sub] items [Hextra Hw] Hall IH]; intros lead Hlead.
  - destruct Hlead as [-> | ->]; reflexivity.
  - cbn [fst snd] in *.
    assert (Hsp : forallb is_space lead = true).
    { destruct Hlead as [-> | ->]; reflexivity. }
    pose proof Hw as (Hi & Hst & Hen & Hds & Hde & Htr & Hfree).
    destruct (str_of_int_digits _ Hi) as [Hdne Hdig].
    destruct (trimmed_last _ Htr) as (t' & z & Hbody & Hz).
    cbn [map concat fst snd]. unfold write_block_with at 1.
    destruct items as [|[extra' sub'] items].
    + set (m := {| g_index := str_of_int (index sub);
                   g_start := start_time sub; g_end := end_time sub;
                   g_text := body_text sub ++ [LF; LF]; g_rest := [] |}).
      assert (Hm : block_pattern
                     (lead ++ str_of_int (index sub) ++ [LF]
                      ++ start_time sub ++ lit " --> " ++ end_time sub
                      ++ extra ++ [LF] ++ (body_text sub ++ [LF; LF]) ++ [])
                   = Some m).
      { apply block_pattern_run_extra; try done.
        by apply boundary_after_last_block. }
      cbn [map concat].
      match goal with
      | |- context [finditer_blocks true 0 ?s] =>
          replace s with
            ((lead ++ str_of_int (index sub) ++ [LF]
              ++ start_time sub ++ lit " --> " ++ end_time sub
              ++ extra ++ [LF] ++ body_text sub ++ [LF]) ++ LF :: [])
            by (norm_app; reflexivity)
      end.
      rewrite (finditer_blocks_match _ LF [] m); [|
        rewrite <- Hm; f_equal; norm_app; reflexivity | reflexivity].
      cbn [finditer_blocks omap list_omap map]. subst m.
      rewrite (block_of_match_written _ _ _ _ _ sub); try done.
      by apply strip_trimmed.
    + set (T := concat (map (fun it => write_block_with (fst it) (snd it))
                          ((extra', sub') :: items))) in *.
      pose proof (Forall_inv Hall) as [_ Hw'].
      destruct Hw' as (Hi' & _).
      destruct (str_of_int_digits _ Hi') as [Hdne' Hdig'].
      assert (HT : exists more, T = str_of_int (index sub') ++ LF :: more).
      { subst T. cbn [map concat fst snd]. unfold write_block_with at 1.
        eexists. norm_app. reflexivity. }
      destruct HT as (more & HT).
      set (m := {| g_index := str_of_int (index sub);
                   g_start := start_time sub; g_end := end_time sub;
                   g_text := body_text sub; g_rest := [LF; LF] ++ T |}).
      assert (Hm : block_pattern
                     (lead ++ str_of_int (index sub) ++ [LF]
                      ++ start_time sub ++ lit " --> " ++ end_time sub
                      ++ extra ++ [LF] ++ body_text sub ++ [LF; LF] ++ T)
                   = Some m).
      { apply block_pattern_run_extra; try done.
        - intros a b Hab Hb. by apply (Hfree a b).
        - rewrite HT. by apply boundary_before_block. }
      match goal with
      | |- context [finditer_blocks true 0 ?s] =>
          replace s with
            ((lead ++ str_of_int (index sub) ++ [LF]
              ++ start_time sub ++ lit " --> " ++ end_time sub
              ++ extra ++ [LF] ++ t') ++ z :: ([LF; LF] ++ T))
            by (rewrite Hbody; norm_app; reflexivity)
      end.
      rewrite (finditer_blocks_match _ z ([LF; LF] ++ T) m); [|
        rewrite <- Hm, Hbody; f_equal; norm_app; reflexivity | reflexivity].
      assert (Hzl : is_lf z = false).
      { destruct (is_lf z) eqn:Hl; [|done].
        apply lf_is_space in Hl. congruence. }
      rewrite Hzl. cbn [app finditer_blocks].
      change (is_lf LF) with true.
      change (LF :: T) with ([LF] ++ T).
      cbn [omap list_omap]. subst m.
      rewrite (block_of_match_written _ _ _ _ _ sub); try done;
        [|by apply strip_fixed].
      cbn [map snd]. f_equal.
      apply (IH [LF]). by right.
Qed.

Lemma write_block_with_no_cr extra sub :
  ~ In CR extra -> well_formed sub -> ~ In CR (write_block_with extra sub).
Proof.
  intros Hextra (Hi & Hst & _ & Hen & _ & _ & Hbody & _).
  rewrite is_timestamp_fits in Hst, Hen. unfold write_block_with.
  destruct (str_of_int_digits _ Hi) as [_ Hd].
  rewrite !in_app_iff.
  pose proof (digits_no_cr _ Hd). pose proof (timestamp_no_cr _ Hst).
  pose proof (timestamp_no_cr _ Hen).
  assert (~ In CR (lit " --> ")) by (vm_compute; intuition discriminate).
  assert (~ In CR [LF]) by (vm_compute; intuition discriminate).
  assert (~ In CR [LF; LF]) by (vm_compute; intuition discriminate).
  tauto.
Qed.

(** X8. Text after the end time on a timing line, up to the end of the
    line, belongs to no field: the blocks are read as if it were not there,
    and the file written from them has the timing lines without it. *)
Theorem timing_line_extras_dropped (items : list (str * SubtitleBlock)) :
  Forall (fun it => forallb not_lf (fst it) = true
                    /\ ~ In CR (fst it)
                    /\ well_formed (snd it)) items ->
  let document :=
    concat (map (fun it => write_block_with (fst it) (snd it)) items) in
  parse_content document = map (fun it => reread (snd it)) items
  /\ write_srt (parse_content document) = write_srt (map snd items).
Proof.
  intros Hall document.
  assert (Hread : parse_content document
                  = map (fun it => reread (snd it)) items).
  { unfold parse_content. rewrite normalize_newlines_absent.
    - apply (read_written_with items) with (lead := []); [|by left].
      eapply Forall_impl; [exact Hall|].
      intros it (? & _ & ?). split; [done|]. by apply well_formed_writable.
    - subst document. apply concat_no_cr, Forall_map.
      eapply Forall_impl; [exact Hall|].
      intros it (_ & ? & ?). by apply write_block_with_no_cr. }
  split; [exact Hread|]. rewrite Hread.
  rewrite <- (map_map snd reread). unfold write_srt.
  rewrite (sorted_by_index_map reread) by done.
  rewrite map_map. f_equal. apply map_ext_in.
  intros sub Hin%list_elem_of_In. rewrite sorted_by_index_perm in Hin.
  apply list_elem_of_fmap in Hin as (it & -> & Hit).
  rewrite Forall_forall in Hall.
  destruct (Hall it Hit) as (_ & _ & Hwf).
  apply write_block_reread. by destruct Hwf as (_ & _ & _ & _ & _ & ? & _).
Qed.

Lemma timing_line_extras_dropped_witness :
  let document :=
    concat (map (fun it => write_block_with (fst it) (snd it))
              [(lit " X1:40 X2:600", empty_translation_block)]) in
  document
  = lit "7" ++ [LF] ++ lit "00:00:01,000 --> 00:00:02,500 X1:40 X2:600" ++ [LF]
    ++ lit "Hei" ++ [LF; LF]
  /\ write_srt (parse_content document)
     = lit "7" ++ [LF] ++ lit "00:00:01,000 --> 00:00:02,500" ++ [LF]
       ++ lit "Hei" ++ [LF; LF].
Proof.
  split; [reflexivity|].
  destruct (timing_line_extras_dropped
              [(lit " X1:40 X2:600", empty_translation_block)]) as [_ Hw].
  - repeat constructor; vm_compute; try reflexivity; intuition discriminate.
  - cbv zeta in Hw. rewrite Hw. reflexivity.
Defined.

(** ** Usable answers and labels *)

(** X9. A call gives a usable answer exactly when the completion returns
    a content whose trimmed form is not empty, and the answer is that
    trimmed form; an exception, an absent content, an empty content and a
    content of whitespace only all count as no answer. *)
Theorem usable_answer_iff (backend : Backend) (n : nat) (request : Request)
    (r : str) :
  usable (api_result backend n request) = Some r
  <-> exists content,
        backend n request = Returns (Some content)
        /\ strip content = r /\ r <> [].
Proof.
  unfold api_result, _call_api, bind, emit. cbn [calls events fst].
  destruct (backend n request) as [|[content|]]; cbn [fst usable].
  - split; [done|]. by intros (c & ? & _).
  - destruct content as [|c content]; cbn [truthy usable].
    + split; [done|]. intros (c & [= <-] & <- & Hne). done.
    + destruct (strip (c :: content)) as [|d t] eqn:Hs; cbn [truthy].
      * split; [done|]. intros (c' & [= <-] & <- & Hne). by rewrite Hs in Hne.
      * split.
        -- intros [= <-]. by exists (c :: content).
        -- intros (c' & [= <-] & <- & _). by rewrite Hs.
  - split; [done|]. by intros (c & ? & _).
Qed.

Lemma star_space_lstrip s :
  star is_space (fun rest => Some rest) s = Some (lstrip s).
Proof.
  induction s as [|c s IH]; simpl; [done|].
  destruct (is_space c); [by rewrite IH|done].
Qed.

(** X10. The cleaning of an answer in [translate_text] removes one of the
    two labels from the start of the answer, together with the whitespace
    that follows the label, and leaves every other answer as it is; a label
    further inside the answer stays. *)
Theorem strip_label_cases (s : str) :
  strip_label s
  = if starts_with label_long s then lstrip (drop (length label_long) s)
    else if starts_with label_short s then lstrip (drop (length label_short) s)
    else s.
Proof.
  unfold strip_label, label_pattern, alt.
  destruct (starts_with label_long s) eqn:Hl.
  - apply starts_with_inv in Hl as (b & ->).
    rewrite literal_app, star_space_lstrip, drop_app_length. done.
  - assert (Hn : literal label_long (star is_space (fun rest => Some rest)) s
                 = None).
    { destruct (literal _ _ s) as [r|] eqn:H; [|done].
      apply literal_inv in H as (s' & -> & _).
      by rewrite starts_with_app in Hl. }
    rewrite Hn.
    destruct (starts_with label_short s) eqn:Hs.
    + apply starts_with_inv in Hs as (b & ->).
      rewrite literal_app, star_space_lstrip, drop_app_length. done.
    + destruct (literal label_short _ s) as [r|] eqn:H; [|done].
      apply literal_inv in H as (s' & -> & _).
      by rewrite starts_with_app in Hs.
Qed.

Lemma usable_inv backend n request r :
  usable (api_result backend n request) = Some r ->
  exists content,
    backend n request = Returns (Some content)
    /\ strip content = r /\ trimmed r.
Proof.
  unfold api_result, _call_api, bind, emit. cbn [calls events fst].
  destruct (backend n request) as [|[content|]]; cbn [fst usable]; try done.
  destruct (truthy content); cbn [usable]; [|done].
  destruct (truthy (strip content)) eqn:Ht; [|done].
  intros [= <-]. exists content. split; [done|]. split; [done|].
  destruct (strip_spec content) as (_ & _ & _ & _ & _ & Htr).
  apply Htr. by destruct (strip content).
Qed.

(** X11. [translate_text] returns the first usable answer, with a label
    at its start removed; the attempts after it are not made. What it
    returns has no whitespace at either end (it may be empty, when the
    answer is a label only). *)
Theorem translate_text_returns_first_answer
    (backend : Backend) (text context : str) (retry_count k : nat) (r : str)
    (w : World) :
  k < retry_count ->
  (forall j, j < k ->
     usable (api_result backend (calls w + j) (SingleRequest text context))
     = None) ->
  usable (api_result backend (calls w + k) (SingleRequest text context))
  = Some r ->
  fst (translate_text backend text context retry_count w) = strip_label r
  /\ strip (strip_label r) = strip_label r.
Proof.
  intros Hk Hfail Hr.
  rewrite (translate_text_answered _ _ _ _ k r) by assumption.
  cbn [fst].
  apply usable_inv in Hr as (content & _ & _ & Htr).
  rewrite (strip_fixed r) by done. split; [done|].
  unfold strip_label, label_pattern, alt.
  assert (Hsuffix : forall w0 rest,
            r = w0 ++ rest -> strip (lstrip rest) = lstrip rest).
  { intros w0 rest Heq.
    destruct (lstrip_spec rest) as (lead & Hrest & _ & Hhead).
    destruct (lstrip rest) as [|c t] eqn:Hl; [done|].
    apply strip_fixed. split; [done|]. split; [done|].
    destruct Htr as (_ & _ & Hlast).
    rewrite Heq, Hrest, !rev_app_distr in Hlast.
    destruct (rev (c :: t)) as [|z u] eqn:Hrev; [|done].
    apply (f_equal (@rev char)) in Hrev. by rewrite rev_involutive in Hrev. }
  destruct (literal label_long _ r) as [rest|] eqn:Hl.
  - apply literal_inv in Hl as (s' & Heq & Hs).
    rewrite star_space_lstrip in Hs. injection Hs as <-.
    by apply (Hsuffix label_long s').
  - destruct (literal label_short _ r) as [rest|] eqn:Hs.
    + apply literal_inv in Hs as (s' & Heq & Hs).
      rewrite star_space_lstrip in Hs. injection Hs as <-.
      by apply (Hsuffix label_short s').
    + by apply strip_fixed.
Qed.

Lemma translate_text_returns_first_answer_witness :
  fst (translate_text
         (fun n _ => if n =? 0 then Raises
                     else Returns (Some (label_short ++ lit "  Hei ")))
         (lit "Hallo") [] 3 initial_world)
  = lit "Hei".
Proof.
  destruct (translate_text_returns_first_answer
              (fun n _ => if n =? 0 then Raises
                          else Returns (Some (label_short ++ lit "  Hei ")))
              (lit "Hallo") [] 3 1 (label_short ++ lit "  Hei") initial_world)
    as [Hr _].
  - lia.
  - intros j Hj. assert (j = 0) as -> by lia. reflexivity.
  - reflexivity.
  - rewrite Hr. reflexivity.
Defined.

(** ** The context of a batch *)

Lemma join_length sep (parts : list str) m :
  Forall (fun p => length p <= m) parts ->
  length (join sep parts)
  <= length parts * m + (length parts - 1) * length sep.
Proof.
  induction 1 as [|p parts Hp Hall IH]; [done|].
  destruct parts as [|q parts].
  - simpl. lia.
  - change (join sep (p :: q :: parts)) with (p ++ sep ++ join sep (q :: parts)).
    rewrite !length_app.
    set (j := length (join sep (q :: parts))) in *.
    change (length (p :: q :: parts)) with (S (length (q :: parts))).
    change (length (q :: parts)) with (S (length parts)) in *.
    set (k := length parts) in *.
    replace (S k - 1) with k in IH by lia.
    replace (S (S k) - 1) with (S k) by lia.
    lia.
Qed.

Lemma omap_length_le {A B : Type} (f : A -> option B) (l : list A) :
  length (omap f l) <= length l.
Proof.
  induction l as [|a l IH]; [done|].
  cbn [omap list_omap]. fold (omap f l).
  destruct (f a); cbn [length]; lia.
Qed.

(** X12. The context of a batch is at most 156 characters long (three
    parts of at most 50 characters and two separators), so the cut of the
    batch prompt to the first 200 characters never removes anything; the
    first batch has an empty context. *)
Theorem batch_context_short (subtitles : list SubtitleBlock) (i : nat) :
  length (batch_context subtitles i) <= 156
  /\ take 200 (batch_context subtitles i) = batch_context subtitles i
  /\ batch_context subtitles 0 = [].
Proof.
  assert (Hlen : length (batch_context subtitles i) <= 156).
  { unfold batch_context. destruct (0 <? i); [|simpl; lia].
    set (prev := drop (i - 3) (take i subtitles)).
    assert (Hprev : length prev <= 3).
    { subst prev. rewrite length_drop, length_take. lia. }
    set (parts := omap _ prev).
    assert (Hparts : length parts <= 3).
    { subst parts. etrans; [apply omap_length_le|exact Hprev]. }
    assert (Hall : Forall (fun p : str => length p <= 50) parts).
    { subst parts. apply Forall_forall. intros p Hp.
      apply list_elem_of_omap in Hp as (sub & _ & Hsub).
      destruct (translated_text sub) as [t|]; [|done].
      destruct (truthy t); [|done]. injection Hsub as <-.
      rewrite length_take. lia. }
    pose proof (join_length context_separator parts 50 Hall) as Hj.
    change (length context_separator) with 3 in Hj. unfold str, char in *. lia. }
  split; [exact Hlen|]. split; [|reflexivity].
  apply take_ge. lia.
Qed.

(** ** Runs of newlines *)

Lemma lf_run (s : str) :
  exists n s', s = replicate n LF ++ s' /\ head_fails is_lf s'.
Proof.
  induction s as [|c s (n & s' & -> & Hs')].
  - by exists 0, [].
  - destruct (is_lf c) eqn:Hc.
    + apply is_lf_eq in Hc as ->. by exists (S n), s'.
    + by exists 0, (c :: replicate n LF ++ s').
Qed.

Lemma triple_lf_free_other c s :
  is_lf c = false -> triple_lf_free (c :: s) = triple_lf_free s.
Proof.
  intros Hc. cbn [triple_lf_free]. destruct s as [|b [|d s]]; try done.
  by rewrite Hc.
Qed.

Lemma triple_lf_free_short n s :
  n < 3 -> head_fails is_lf s ->
  triple_lf_free (replicate n LF ++ s) = triple_lf_free s.
Proof.
  intros Hn Hs. destruct n as [|[|[|n]]]; try lia; [done| |].
  - cbn [replicate app triple_lf_free].
    destruct s as [|c [|d s]]; try done. simpl in Hs.
    by rewrite Hs.
  - cbn [replicate app]. destruct s as [|c s]; [done|]. simpl in Hs.
    cbn [triple_lf_free]. rewrite Hs.
    destruct s as [|d s]; [done|]. by rewrite andb_false_r.
Qed.

Lemma triple_lf_found n s :
  3 <= n -> triple_lf_free (replicate n LF ++ s) = false.
Proof.
  intros Hn. destruct n as [|[|[|n]]]; try lia. reflexivity.
Qed.

Lemma collapse_newlines_head s :
  head_fails is_lf s -> head_fails is_lf (collapse_newlines 0 s).
Proof.
  destruct s as [|c s]; [done|]. simpl. intros Hc.
  unfold rep_ge. cbn [rep chr]. by rewrite Hc.
Qed.

(** X13. The substitution applied to every segment of a batch response
    leaves no three consecutive newlines, changes nothing in a text that
    has none, and never makes the text longer. *)
Theorem collapse_newlines_result (s : str) :
  triple_lf_free (collapse_newlines 0 s) = true
  /\ (triple_lf_free s = true -> collapse_newlines 0 s = s)
  /\ length (collapse_newlines 0 s) <= length s.
Proof.
  remember (length s) as n eqn:Hlen.
  revert s Hlen. induction n as [n IH] using lt_wf_ind. intros s ->.
  destruct (lf_run s) as ([|k] & s' & -> & Hs').
  - destruct s' as [|c s']; [done|]. cbn [replicate app] in *.
    simpl in Hs'. rewrite collapse_newlines_other by done.
    destruct (IH (length s') ltac:(simpl; lia) s' eq_refl) as (H1 & H2 & H3).
    rewrite !triple_lf_free_other by done.
    split; [done|]. split; [|simpl; lia].
    intros Hf. by rewrite H2.
  - destruct (IH (length s')
                ltac:(rewrite length_app, length_replicate; simpl; lia)
                s' eq_refl) as (H1 & H2 & H3).
    pose proof (collapse_newlines_head s' Hs') as Hh.
    destruct (decide (3 <= S k)) as [Hge|Hlt].
    + rewrite collapse_newlines_run by done.
      rewrite triple_lf_found by done.
      change (LF :: LF :: collapse_newlines 0 s')
        with (replicate 2 LF ++ collapse_newlines 0 s').
      rewrite triple_lf_free_short by (done || lia).
      split; [done|]. split; [done|].
      rewrite !length_app, !length_replicate. simpl.
      unfold str, char in *. lia.
    + rewrite collapse_newlines_short by (done || lia).
      rewrite !triple_lf_free_short by (done || lia).
      split; [done|]. split.
      * intros Hf. by rewrite H2.
      * rewrite !length_app. unfold str, char in *. lia.
Qed.

(** ** The arguments of [int] *)

Lemma marker_pattern_inv s g1 g2 rest :
  marker_pattern s = Some (g1, g2, rest) ->
  g1 <> [] /\ forallb is_digit g1 = true.
Proof.
  unfold marker_pattern.
  intros (c & s1 & -> & _ & H)%chr_inv.
  apply capture_plus_inv in H as (d & s2 & -> & [Hne Hd] & H).
  apply chr_inv in H as (c' & s3 & -> & _ & H).
  apply star_inv in H as (ws & s4 & -> & _ & H).
  apply capture_lazy_inv in H as (t & s5 & -> & _ & H & _).
  unfold lookahead in H. destruct (alt _ _ _ s5); [|done].
  by injection H as <- _ _.
Qed.

Lemma findall_markers_In pair : forall s skip,
  In pair (findall_markers skip s) ->
  exists pre s' rest, s = pre ++ s'
                      /\ marker_pattern s' = Some (fst pair, snd pair, rest).
Proof.
  induction s as [|c s IH]; intros skip; cbn [findall_markers]; [done|].
  destruct skip as [|n].
  - destruct (marker_pattern (c :: s)) as [[[g1 g2] rest]|] eqn:Hm.
    + cbn [In]. intros [<-|Hin]; [by exists [], (c :: s), rest|].
      apply IH in Hin as (pre & s' & rest' & -> & Hs').
      by exists (c :: pre), s', rest'.
    + intros (pre & s' & rest' & -> & Hs')%IH. by exists (c :: pre), s', rest'.
  - intros (pre & s' & rest' & -> & Hs')%IH. by exists (c :: pre), s', rest'.
Qed.

(** X14. [int] is only applied to the first group of a match of the block
    pattern or of the marker pattern, which is a string of one or more
    decimal digits: the conversion never meets a sign, a space or an empty
    string. *)
Theorem int_reads_digits_only :
  (forall (content : str) (m : BlockMatch),
     In m (finditer_blocks true 0 (normalize_newlines content)) ->
     g_index m <> [] /\ forallb is_digit (g_index m) = true)
  /\ (forall (result num segment : str),
        In (num, segment) (findall_markers 0 result) ->
        num <> [] /\ forallb is_digit num = true).
Proof.
  split.
  - intros content m (pre & s' & _ & Hm)%finditer_blocks_In.
    by apply block_pattern_inv in Hm as (? & ? & ? & ? & ? & _ & _ & ? & ? & _).
  - intros result num segment (pre & s' & rest & _ & Hm)%findall_markers_In.
    by apply marker_pattern_inv in Hm.
Qed.

(** ** Batch sizes that are not positive *)

Lemma success_count_untranslated (subtitles : list SubtitleBlock) :
  Forall (fun sub => translated_text sub = None) subtitles ->
  success_count subtitles = 0.
Proof.
  unfold success_count. induction 1 as [|sub l Hs _ IH]; [done|].
  simpl. by rewrite Hs.
Qed.

Lemma success_count_parsed content : success_count (parse_content content) = 0.
Proof.
  apply success_count_untranslated, Forall_forall.
  intros sub Hin%list_elem_of_In.
  by destruct (reader_block content sub Hin) as (? & _).
Qed.

(** X15. With a batch size that is not positive, [translate_file] makes no
    call to the backend on a document with blocks. With the size 0,
    [range] raises and no file is written; with a negative size the loop
    runs over no batch, the file is written from the source texts and the
    summary counts no block as translated. *)
Theorem nonpositive_batch_size_calls_nothing
    (backend : Backend) (content : str) (batch_size : Z) (w : World) :
  (batch_size <= 0)%Z ->
  parse_content content <> [] ->
  let run := translate_file backend (Content content) batch_size w in
  calls (snd run) = calls w
  /\ (batch_size = 0%Z -> fst run = None)
  /\ ((batch_size < 0)%Z ->
      fst run
      = Some {| written := write_srt (parse_content content);
                summary_count := 0;
                summary_total := length (parse_content content) |}).
Proof.
  intros Hbs Hne run. subst run.
  unfold translate_file, parse_srt.
  pose proof (success_count_parsed content) as Hsc.
  destruct (parse_content content) as [|sub l] eqn:Hp; [done|].
  rewrite bool_decide_eq_false_2 by done.
  destruct batch_size as [|p|p]; [| lia |].
  - unfold translate_batch, bind, ret, emit.
    destruct (length (sub :: l) <? 5); cbn [emit_all map fst snd calls events];
      unfold bind, ret, emit; cbn [fst snd calls events];
      (split; [|split; [|lia]]; reflexivity).
  - unfold translate_batch, bind, ret, emit.
    destruct (length (sub :: l) <? 5); cbn [emit_all map fst snd calls events];
      unfold bind, ret, emit; cbn [fst snd calls events];
      rewrite Hsc; cbn [Nat.ltb Nat.leb length fst snd calls events];
      (split; [|split; [done|]]; reflexivity).
Qed.

Lemma nonpositive_batch_size_calls_nothing_witness :
  calls (snd (translate_file (constant_backend full_response)
                (Content dotted_document) (-1) initial_world)) = 0
  /\ fmap summary_count
       (fst (translate_file (constant_backend full_response)
               (Content dotted_document) (-1) initial_world)) = Some 0.
Proof.
  destruct (nonpositive_batch_size_calls_nothing
              (constant_backend full_response) dotted_document (-1)
              initial_world) as (Hc & _ & Hneg).
  - lia.
  - vm_compute. discriminate.
  - split; [exact Hc|]. rewrite Hneg by lia. reflexivity.
Defined.

(** ** The batches of a run *)

Lemma batch_length_min (subtitles : list SubtitleBlock) i batch_size :
  batch_length subtitles i batch_size
  = Nat.min batch_size (length subtitles - i).
Proof. unfold batch_length. by rewrite length_take, length_drop. Qed.

Lemma batch_starts_cover total batch_size :
  0 < batch_size ->
  forall fuel i, total - i <= fuel ->
  concat (map (fun j => seq j (Nat.min batch_size (total - j)))
              (batch_starts fuel total batch_size i))
  = seq i (total - i).
Proof.
  intros Hbs. induction fuel as [|fuel IH]; intros i Hf.
  - simpl. by replace (total - i) with 0 by lia.
  - cbn [batch_starts]. destruct (Nat.ltb_spec i total) as [Hlt|Hge].
    + cbn [map concat]. rewrite IH by lia.
      destruct (Nat.min_spec batch_size (total - i)) as [[Hm ->]|[Hm ->]].
      * rewrite <- seq_app. f_equal. lia.
      * replace (total - (i + batch_size)) with 0 by lia.
        cbn [seq]. by rewrite app_nil_r.
    + simpl. by replace (total - i) with 0 by lia.
Qed.

Lemma batch_starts_length total batch_size :
  0 < batch_size ->
  forall fuel i, total - i <= fuel ->
  length (batch_starts fuel total batch_size i)
  = batch_count (total - i) batch_size.
Proof.
  intros Hbs. unfold batch_count.
  induction fuel as [|fuel IH]; intros i Hf.
  - simpl. replace (total - i) with 0 by lia.
    symmetry. apply Nat.div_small. lia.
  - cbn [batch_starts]. destruct (Nat.ltb_spec i total) as [Hlt|Hge].
    + cbn [length]. rewrite IH by lia.
      destruct (decide (total - i <= batch_size)) as [Hle|Hgt].
      * replace (total - (i + batch_size)) with 0 by lia.
        rewrite (Nat.div_small (0 + batch_size - 1)) by lia.
        apply (Nat.div_unique _ _ 1 (total - i - 1)); lia.
      * replace (total - i + batch_size - 1)
          with ((total - (i + batch_size) + batch_size - 1) + 1 * batch_size)
          by lia.
        rewrite Nat.div_add by lia. lia.
    + simpl. replace (total - i) with 0 by lia.
      symmetry. apply Nat.div_small. lia.
Qed.

(** X16. The batches of a run partition the positions of the list, in
    order: every block is in exactly one batch, every batch holds between
    one and [batch_size] blocks, and their number is the quotient of the
    length by the batch size, rounded up. *)
Theorem batches_partition_positions
    (subtitles : list SubtitleBlock) (batch_size : nat) :
  0 < batch_size ->
  let total := length subtitles in
  let starts := batch_starts total total batch_size 0 in
  concat (map (fun i => seq i (batch_length subtitles i batch_size)) starts)
  = seq 0 total
  /\ length starts = batch_count total batch_size
  /\ Forall (fun i => 0 < batch_length subtitles i batch_size <= batch_size)
       starts.
Proof.
  intros Hbs total starts. subst total starts. split; [|split].
  - rewrite <- (Nat.sub_0_r (length subtitles)) at 3.
    rewrite <- (batch_starts_cover (length subtitles) batch_size Hbs
                  (length subtitles) 0) by lia.
    f_equal. apply map_ext. intros i. by rewrite batch_length_min.
  - rewrite batch_starts_length by lia. by rewrite Nat.sub_0_r.
  - apply Forall_forall. intros i Hi%list_elem_of_In.
    apply (batch_starts_multiples _ _ Hbs) in Hi as [Hi _]; [|lia].
    rewrite batch_length_min. lia.
Qed.

Lemma batches_partition_positions_witness :
  map (fun i => seq i (batch_length three_blocks i 2))
      (batch_starts 3 3 2 0) = [[0; 1]; [2]]
  /\ concat (map (fun i => seq i (batch_length three_blocks i 2))
               (batch_starts 3 3 2 0)) = seq 0 3.
Proof.
  split; [reflexivity|].
  apply (batches_partition_positions three_blocks 2). lia.
Defined.

(** ** What a run costs *)

Lemma first_usable (f : nat -> option str) n :
  (forall j, j < n -> f j = None)
  \/ exists k r, k < n /\ (forall j, j < k -> f j = None) /\ f k = Some r.
Proof.
  induction n as [|n [Hall|(k & r & Hk & Hbefore & Hr)]].
  - left. intros j Hj. lia.
  - destruct (f n) as [r|] eqn:Hn.
    + right. exists n, r. split; [lia|]. split; [|done].
      intros j Hj. apply Hall. lia.
    + left. intros j Hj. destruct (decide (j = n)) as [->|]; [done|].
      apply Hall. lia.
  - right. exists k, r. split; [lia|done].
Qed.

Lemma total_wait_app e1 e2 :
  total_wait (e1 ++ e2) = (total_wait e1 + total_wait e2)%N.
Proof.
  unfold total_wait. rewrite sleeps_app.
  induction (sleeps e1) as [|x l IH]; simpl; [done|]. rewrite IH. lia.
Qed.

Lemma sum_backoff m :
  fold_right N.add 0%N (map (fun a => (1000 * 2 ^ N.of_nat a)%N) (seq 0 m))
  = (1000 * (2 ^ N.of_nat m - 1))%N.
Proof.
  induction m as [|m IH]; [reflexivity|].
  rewrite seq_S, map_app, fold_right_app. cbn [map fold_right Nat.add].
  assert (Hacc : forall (l : list N) (x : N),
            fold_right N.add x l = (fold_right N.add 0 l + x)%N).
  { induction l as [|y l IHl]; intros x; simpl; [lia|]. rewrite IHl. lia. }
  rewrite Hacc, IH.
  rewrite Nat2N.inj_succ, N.pow_succ_r'.
  assert (0 < 2 ^ N.of_nat m)%N by (apply N.neq_0_lt_0, N.pow_nonzero; lia).
  lia.
Qed.

Lemma bind_run {A B : Type} (m : M A) (f : A -> M B) w :
  bind m f w = f (fst (m w)) (snd (m w)).
Proof. unfold bind. by destruct (m w). Qed.

Lemma costs_ret {A : Type} (a : A) w : costs (ret a) w 0 0 0 0.
Proof. unfold costs, ret. simpl. lia. Qed.

Lemma costs_emit e w : costs (emit e) w 0 0 (wait_of e) (wait_of e).
Proof.
  unfold costs, emit. cbn [snd calls events]. rewrite total_wait_app.
  split; [lia|]. destruct e; unfold total_wait; simpl; lia.
Qed.

Lemma costs_bind {A B : Type} (m : M A) (f : A -> M B) w
    c1 C1 t1 T1 c2 C2 t2 T2 :
  costs m w c1 C1 t1 T1 ->
  costs (f (fst (m w))) (snd (m w)) c2 C2 t2 T2 ->
  costs (bind m f) w (c1 + c2) (C1 + C2) (t1 + t2) (T1 + T2).
Proof. unfold costs. rewrite bind_run. lia. Qed.

Lemma costs_weaken {A : Type} (m : M A) w c C t T c' C' t' T' :
  costs m w c C t T ->
  c' <= c -> C <= C' -> (t' <= t)%N -> (T <= T')%N ->
  costs m w c' C' t' T'.
Proof. unfold costs. lia. Qed.

Lemma total_wait_call_events backend n request :
  total_wait (call_events backend n request) = 0%N.
Proof. unfold total_wait. by rewrite sleeps_call_events. Qed.

Lemma costs_call_api backend request w :
  costs (_call_api backend request) w 1 1 0 0.
Proof.
  unfold costs. rewrite call_api_result. cbn [snd calls events].
  rewrite total_wait_app, total_wait_call_events. lia.
Qed.

Lemma total_wait_failed_attempts backend request retry_count c n :
  n <= retry_count ->
  total_wait (flat_map
                (fun j => failed_attempt_events backend request retry_count
                            (c + j) (0 + j))
                (seq 0 n))
  = (1000 * (2 ^ N.of_nat (Nat.min n (retry_count - 1)) - 1))%N.
Proof.
  intros Hn. unfold total_wait.
  rewrite sleeps_failed_attempts by done. apply sum_backoff.
Qed.

Lemma backoff_mono m n :
  m <= n -> (1000 * (2 ^ N.of_nat m - 1) <= 1000 * (2 ^ N.of_nat n - 1))%N.
Proof.
  intros Hm. apply N.mul_le_mono_l, N.sub_le_mono_r.
  apply N.pow_le_mono_r; lia.
Qed.

(** What [translate_text] costs, whatever the backend answers. *)
Lemma costs_translate_text backend text context retry_count w :
  costs (translate_text backend text context retry_count) w
    (Nat.min 1 retry_count) retry_count
    0 (1000 * (2 ^ N.of_nat (retry_count - 1) - 1)).
Proof.
  unfold costs.
  set (request := SingleRequest text context).
  destruct (first_usable
              (fun j => usable (api_result backend (calls w + j) request))
              retry_count) as [Hall|(k & r & Hk & Hbefore & Hr)].
  - rewrite translate_text_exhausted by exact Hall.
    cbn [fst snd calls events].
    split; [lia|].
    rewrite !total_wait_app, total_wait_failed_attempts by lia.
    change (total_wait [Log ERROR]) with 0%N.
    pose proof (backoff_mono (Nat.min retry_count (retry_count - 1))
                  (retry_count - 1) ltac:(lia)). lia.
  - rewrite (translate_text_answered _ _ _ _ k r) by assumption.
    cbn [fst snd calls events].
    split; [lia|].
    rewrite !total_wait_app, total_wait_failed_attempts,
      total_wait_call_events by lia.
    pose proof (backoff_mono (Nat.min k (retry_count - 1))
                  (retry_count - 1) ltac:(lia)). lia.
Qed.

(** What [translate_text] gives and costs when no call is usable. *)
Lemma translate_text_all_fail backend text context w :
  (forall n request, usable (api_result backend n request) = None) ->
  fst (translate_text backend text context default_retry_count w) = text
  /\ costs (translate_text backend text context default_retry_count) w
       3 3 3000 3000.
Proof.
  intros Hfail. unfold costs.
  rewrite translate_text_exhausted by (intros j _; apply Hfail).
  cbn [fst snd calls events]. split; [done|].
  unfold default_retry_count. split; [lia|].
  rewrite !total_wait_app, total_wait_failed_attempts by lia.
  change (total_wait [Log ERROR]) with 0%N.
  change (1000 * (2 ^ N.of_nat (Nat.min 3 (3 - 1)) - 1))%N with 3000%N. lia.
Qed.


Lemma translate_item_costs backend context j st w :
  costs (translate_item backend context j st) w 1 3 0 3000.
Proof.
  pose proof (costs_translate_text backend (text_at (fst st) j) context
                default_retry_count w) as H.
  unfold costs in *. rewrite translate_item_run. cbn [snd].
  unfold default_retry_count in *.
  change (1000 * (2 ^ N.of_nat (3 - 1) - 1))%N with 3000%N in H.
  simpl Nat.min in H. exact H.
Qed.

Lemma translate_each_costs backend context positions : forall st w,
  costs (translate_each backend context positions st) w
    (length positions) (3 * length positions)
    0 (3000 * N.of_nat (length positions)).
Proof.
  induction positions as [|j positions IH]; intros st w.
  - apply costs_ret.
  - cbn [translate_each].
    eapply costs_weaken;
      [eapply costs_bind; [apply translate_item_costs|apply IH]|..];
      cbn [length]; lia.
Qed.

Lemma translate_missing_costs backend context positions : forall st w,
  costs (translate_missing backend context positions st) w
    0 (3 * length positions) 0 (3000 * N.of_nat (length positions)).
Proof.
  induction positions as [|j positions IH]; intros st w.
  - apply costs_ret.
  - cbn [translate_missing].
    destruct (truthy_opt (translated_at (fst st) j)).
    + eapply costs_weaken; [apply IH|..]; cbn [length]; lia.
    + eapply costs_weaken;
        [eapply costs_bind; [apply translate_item_costs|apply IH]|..];
        cbn [length]; lia.
Qed.

Lemma fallback_missing_costs backend context positions st (flag : bool) w :
  costs (if flag then ret st
         else emit (Log WARNING) ;;;
              translate_missing backend context positions st) w
    0 (3 * length positions) 0 (3000 * N.of_nat (length positions)).
Proof.
  destruct flag.
  - eapply costs_weaken; [apply costs_ret|..]; lia.
  - eapply costs_weaken;
      [eapply costs_bind; [apply costs_emit|apply translate_missing_costs]|..];
      cbn [wait_of]; lia.
Qed.

Ltac costs_seq :=
  repeat first
    [ apply costs_ret | apply costs_emit | apply costs_call_api
    | apply translate_each_costs | apply fallback_missing_costs
    | eapply costs_bind ].

Lemma translate_one_batch_costs backend batch_size i st w :
  let len := batch_length (fst st) i batch_size in
  costs (translate_one_batch backend batch_size i st) w
    1 (1 + 3 * len) 500 (1000 + 3000 * N.of_nat len).
Proof.
  intros len. unfold translate_one_batch. fold len.
  set (positions := seq i len).
  assert (Hlen : length positions = len) by apply length_seq.
  eapply costs_weaken;
    [apply (costs_bind _ _ w 1 1 0 0 0 (3 * len) 500
              (1000 + 3000 * N.of_nat len));
     [apply costs_call_api|]
    |lia..].
  destruct (usable _) as [r|].
  - destruct (apply_pairs _ _ _ st) as [st' flag].
    eapply costs_weaken; [costs_seq|..]; rewrite ?Hlen; cbn [wait_of]; lia.
  - eapply costs_weaken; [unfold sleep; costs_seq|..];
      rewrite ?Hlen; cbn [wait_of]; lia.
Qed.

Lemma translate_one_batch_length backend batch_size i st w :
  length (fst (fst (translate_one_batch backend batch_size i st w)))
  = length (fst st).
Proof.
  rewrite <- !(length_map fixed_fields).
  by rewrite translate_one_batch_fixed.
Qed.

Lemma translate_batches_costs backend batch_size starts : forall st w,
  let handled :=
    length (batch_positions (length (fst st)) batch_size starts) in
  costs (translate_batches backend batch_size starts st) w
    (length starts) (length starts + 3 * handled)
    (500 * N.of_nat (length starts))
    (1000 * N.of_nat (length starts) + 3000 * N.of_nat handled).
Proof.
  induction starts as [|i starts IH]; intros st w handled.
  - apply costs_ret.
  - subst handled. cbn [translate_batches].
    eapply costs_weaken;
      [eapply costs_bind; [apply translate_one_batch_costs|apply IH]|..];
      rewrite ?translate_one_batch_length, ?batch_length_min;
      unfold batch_positions; cbn [map concat length];
      rewrite ?length_app, ?length_seq; lia.
Qed.

Lemma batch_positions_all total batch_size :
  0 < batch_size ->
  batch_positions total batch_size (batch_starts total total batch_size 0)
  = seq 0 total.
Proof.
  intros Hbs. unfold batch_positions.
  rewrite batch_starts_cover by lia. by rewrite Nat.sub_0_r.
Qed.

(** X17. Whatever the backend answers, [translate_batch] makes at least
    one call per batch and at most one call per batch and three per block,
    and it waits at least half a second per batch and at most a second per
    batch and three seconds per block. *)
Theorem translate_batch_cost
    (backend : Backend) (subtitles : list SubtitleBlock) (batch_size : positive)
    (w : World) :
  let run := translate_batch backend subtitles (Zpos batch_size) w in
  let total := length subtitles in
  let batches := batch_count total (Pos.to_nat batch_size) in
  calls w + batches <= calls (snd run) <= calls w + batches + 3 * total
  /\ (total_wait (events w) + 500 * N.of_nat batches
      <= total_wait (events (snd run))
      <= total_wait (events w) + 1000 * N.of_nat batches
         + 3000 * N.of_nat total)%N.
Proof.
  intros run total batches. subst run.
  assert (Hbs : 0 < Pos.to_nat batch_size) by lia.
  pose proof (translate_batches_costs backend (Pos.to_nat batch_size)
                (batch_starts total total (Pos.to_nat batch_size) 0)
                (subtitles, 0) w) as Hc.
  cbn [fst] in Hc. fold total in Hc.
  rewrite batch_positions_all, length_seq, batch_starts_length in Hc by lia.
  rewrite Nat.sub_0_r in Hc. fold batches in Hc.
  unfold costs in Hc. unfold translate_batch. rewrite bind_run.
  unfold ret. cbn [snd]. fold total. lia.
Qed.

(** X18. Whatever the backend answers, [translate_text] makes at most
    [retry_count] calls, at least one when [retry_count] is positive, and
    waits at most [2 ^ (retry_count - 1) - 1] seconds in all (3 seconds for
    the default of 3 attempts); with [retry_count = 0] it returns the
    source text without a call. *)
Theorem translate_text_cost (backend : Backend) (text context : str)
    (retry_count : nat) (w : World) :
  let run := translate_text backend text context retry_count w in
  calls w <= calls (snd run) <= calls w + retry_count
  /\ (0 < retry_count -> calls w < calls (snd run))
  /\ (retry_count = 0 -> fst run = text)
  /\ (total_wait (events (snd run))
      <= total_wait (events w) + 1000 * (2 ^ N.of_nat (retry_count - 1) - 1))%N.
Proof.
  intros run. subst run.
  destruct (costs_translate_text backend text context retry_count w)
    as [Hc Hw].
  split; [lia|]. split; [lia|]. split; [by intros ->|]. lia.
Qed.

(** ** A backend that never answers *)

Lemma set_translated_own j (subtitles : list SubtitleBlock) :
  set_translated j (text_at subtitles j) subtitles = alter own_text j subtitles.
Proof.
  unfold set_translated, text_at. apply list_eq. intros k.
  destruct (decide (j = k)) as [->|Hne].
  - rewrite !list_lookup_alter_eq. by destruct (subtitles !! k).
  - by rewrite !list_lookup_alter_ne.
Qed.

Lemma own_text_at_length positions : forall subtitles,
  length (own_text_at positions subtitles) = length subtitles.
Proof.
  unfold own_text_at.
  induction positions as [|j positions IH]; intros subtitles; [done|].
  cbn [foldl]. by rewrite IH, length_alter.
Qed.

Lemma own_text_at_app p1 p2 subtitles :
  own_text_at (p1 ++ p2) subtitles = own_text_at p2 (own_text_at p1 subtitles).
Proof. unfold own_text_at. by rewrite foldl_app. Qed.

Lemma own_text_idemp sub : own_text (own_text sub) = own_text sub.
Proof. reflexivity. Qed.

Lemma own_text_at_lookup positions k : forall subtitles,
  own_text_at positions subtitles !! k
  = if bool_decide (k ∈ positions) then own_text <$> subtitles !! k
    else subtitles !! k.
Proof.
  unfold own_text_at.
  induction positions as [|j positions IH]; intros subtitles; [done|].
  cbn [foldl]. rewrite IH.
  destruct (decide (j = k)) as [->|Hne].
  - rewrite list_lookup_alter_eq.
    rewrite (bool_decide_eq_true_2 (k ∈ k :: positions)) by left.
    case_bool_decide; [|done].
    destruct (subtitles !! k); [|done]. simpl. by rewrite own_text_idemp.
  - rewrite list_lookup_alter_ne by done.
    case_bool_decide as Hin.
    + by rewrite bool_decide_eq_true_2 by (by right).
    + rewrite bool_decide_eq_false_2; [done|].
      intros [?|?]%elem_of_cons; [congruence|done].
Qed.

Lemma own_text_at_all (subtitles : list SubtitleBlock) :
  own_text_at (seq 0 (length subtitles)) subtitles = map own_text subtitles.
Proof.
  apply list_eq. intros k. rewrite own_text_at_lookup.
  change map with (@fmap list _). rewrite list_lookup_fmap.
  case_bool_decide as Hin; [done|].
  rewrite lookup_ge_None_2; [done|].
  destruct (decide (k < length subtitles)); [|lia].
  exfalso. apply Hin. apply list_elem_of_In, in_seq. lia.
Qed.

Section AllFail.
Context (backend : Backend).
Hypothesis Hfail : forall n request, usable (api_result backend n request) = None.

Lemma translate_item_all_fail context j st w :
  fst (translate_item backend context j st w)
  = (own_text_at [j] (fst st), S (snd st))
  /\ costs (translate_item backend context j st) w 3 3 3000 3000.
Proof.
  destruct (translate_text_all_fail backend (text_at (fst st) j) context w Hfail)
    as [Hr Hc].
  unfold costs in *. rewrite translate_item_run. cbn [fst snd].
  rewrite Hr, set_translated_own. done.
Qed.

Lemma translate_each_all_fail context positions : forall st w,
  fst (translate_each backend context positions st w)
  = (own_text_at positions (fst st), snd st + length positions)
  /\ costs (translate_each backend context positions st) w
       (3 * length positions) (3 * length positions)
       (3000 * N.of_nat (length positions))
       (3000 * N.of_nat (length positions)).
Proof.
  induction positions as [|j positions IH]; intros st w.
  - split; [|apply costs_ret]. destruct st. simpl. f_equal. lia.
  - cbn [translate_each].
    destruct (translate_item_all_fail context j st w) as [Hi Hci].
    destruct (IH (fst (translate_item backend context j st w))
                 (snd (translate_item backend context j st w))) as [He Hce].
    split.
    + rewrite bind_run, He, Hi. cbn [fst snd length].
      change (j :: positions) with ([j] ++ positions).
      rewrite own_text_at_app. f_equal. lia.
    + eapply costs_weaken; [eapply costs_bind; [exact Hci|exact Hce]|..];
        cbn [length]; lia.
Qed.

Lemma translate_one_batch_all_fail batch_size i st w :
  let len := batch_length (fst st) i batch_size in
  fst (fst (translate_one_batch backend batch_size i st w))
  = own_text_at (seq i len) (fst st)
  /\ costs (translate_one_batch backend batch_size i st) w
       (1 + 3 * len) (1 + 3 * len)
       (1000 + 3000 * N.of_nat len) (1000 + 3000 * N.of_nat len).
Proof.
  intros len. unfold translate_one_batch. fold len.
  set (positions := seq i len).
  assert (Hlen : length positions = len) by apply length_seq.
  set (request := BatchRequest _ _).
  pose proof (Hfail (calls w) request) as Hn.
  assert (Hres : usable (fst (_call_api backend request w)) = None).
  { by rewrite call_api_result. }
  destruct (translate_each_all_fail (batch_context (fst st) i) positions st
              (snd (emit (Log WARNING) (snd (_call_api backend request w)))))
    as [He Hce].
  split.
  - rewrite bind_run, Hres. rewrite !bind_run. unfold ret. cbn [fst snd].
    by rewrite He.
  - eapply costs_weaken;
      [apply (costs_bind _ _ w 1 1 0 0 (3 * len) (3 * len)
                (1000 + 3000 * N.of_nat len) (1000 + 3000 * N.of_nat len));
       [apply costs_call_api|]
      |lia..].
    rewrite Hres.
    eapply costs_weaken;
      [eapply costs_bind; [apply costs_emit|];
       eapply costs_bind; [exact Hce|];
       unfold sleep; costs_seq|..];
      rewrite ?Hlen; cbn [wait_of]; lia.
Qed.

Lemma translate_batches_all_fail batch_size starts : forall st w,
  let positions := batch_positions (length (fst st)) batch_size starts in
  fst (fst (translate_batches backend batch_size starts st w))
  = own_text_at positions (fst st)
  /\ costs (translate_batches backend batch_size starts st) w
       (length starts + 3 * length positions)
       (length starts + 3 * length positions)
       (1000 * N.of_nat (length starts) + 3000 * N.of_nat (length positions))
       (1000 * N.of_nat (length starts) + 3000 * N.of_nat (length positions)).
Proof.
  induction starts as [|i starts IH]; intros st w positions.
  - split; [done|apply costs_ret].
  - subst positions. cbn [translate_batches].
    destruct (translate_one_batch_all_fail batch_size i st w) as [Hb Hcb].
    destruct (IH (fst (translate_one_batch backend batch_size i st w))
                 (snd (translate_one_batch backend batch_size i st w)))
      as [Hr Hcr].
    rewrite Hb, own_text_at_length in Hr, Hcr.
    unfold batch_positions in *. cbn [map concat].
    rewrite <- batch_length_min.
    split.
    + by rewrite bind_run, Hr, own_text_at_app.
    + eapply costs_weaken; [eapply costs_bind; [exact Hcb|exact Hcr]|..];
        cbn [length]; rewrite ?length_app, ?length_seq; lia.
Qed.

Lemma translate_batch_all_fail subtitles (batch_size : positive) w :
  let total := length subtitles in
  let batches := batch_count total (Pos.to_nat batch_size) in
  fst (translate_batch backend subtitles (Zpos batch_size) w)
  = Some (map own_text subtitles)
  /\ costs (translate_batch backend subtitles (Zpos batch_size)) w
       (batches + 3 * total) (batches + 3 * total)
       (1000 * N.of_nat batches + 3000 * N.of_nat total)
       (1000 * N.of_nat batches + 3000 * N.of_nat total).
Proof.
  intros total batches.
  assert (Hbs : 0 < Pos.to_nat batch_size) by lia.
  destruct (translate_batches_all_fail (Pos.to_nat batch_size)
              (batch_starts total total (Pos.to_nat batch_size) 0)
              (subtitles, 0) w) as [Hr Hc].
  cbn [fst] in Hr, Hc. fold total in Hr, Hc.
  rewrite batch_positions_all, length_seq, batch_starts_length in Hc by lia.
  rewrite batch_positions_all in Hr by lia.
  rewrite Nat.sub_0_r in Hc. fold batches in Hc.
  unfold translate_batch. fold total. split.
  - rewrite bind_run. unfold ret. cbn [fst]. rewrite Hr.
    unfold total. by rewrite own_text_at_all.
  - unfold costs in *. rewrite bind_run. unfold ret. cbn [snd]. exact Hc.
Qed.
End AllFail.

Lemma write_block_own_text sub :
  write_block (own_text sub) = write_block (untranslated sub).
Proof.
  unfold write_block, own_text, translated_or_text. simpl.
  by destruct (truthy (text sub)).
Qed.

Lemma write_srt_own_text subtitles :
  write_srt (map own_text subtitles) = write_srt (map untranslated subtitles).
Proof.
  unfold write_srt.
  rewrite (sorted_by_index_map own_text), (sorted_by_index_map untranslated)
    by done.
  rewrite !map_map. f_equal. apply map_ext. intros sub.
  apply write_block_own_text.
Qed.

Lemma success_count_own_text subtitles :
  Forall (fun sub => text sub <> []) subtitles ->
  success_count (map own_text subtitles) = length subtitles.
Proof.
  unfold success_count. induction 1 as [|sub l Hs _ IH]; [done|].
  simpl. destruct (text sub); [done|]. simpl. by rewrite IH.
Qed.

(** X19. With a backend that never gives a usable answer,
    [translate_batch] sets the translation of every block to the source
    text of the block, after one call per batch and three calls per block,
    having waited a second per batch and three seconds per block. The text
    written for the result is the one written for the list without
    translations, and the count of the summary takes every block with a
    source text as translated. *)
Theorem unusable_backend_keeps_source
    (backend : Backend) (subtitles : list SubtitleBlock) (batch_size : positive)
    (w : World) :
  (forall n request, usable (api_result backend n request) = None) ->
  let run := translate_batch backend subtitles (Zpos batch_size) w in
  let total := length subtitles in
  let batches := batch_count total (Pos.to_nat batch_size) in
  fst run = Some (map own_text subtitles)
  /\ calls (snd run) = calls w + batches + 3 * total
  /\ total_wait (events (snd run))
     = (total_wait (events w) + 1000 * N.of_nat batches
        + 3000 * N.of_nat total)%N
  /\ write_srt (map own_text subtitles) = write_srt (map untranslated subtitles)
  /\ (Forall (fun sub => text sub <> []) subtitles ->
      success_count (map own_text subtitles) = total).
Proof.
  intros Hfail run total batches. subst run.
  destruct (translate_batch_all_fail backend Hfail subtitles batch_size w)
    as [Hr Hc].
  fold total batches in Hc. unfold costs in Hc.
  split; [exact Hr|]. split; [lia|]. split; [lia|].
  split; [apply write_srt_own_text|apply success_count_own_text].
Qed.

Lemma unusable_backend_keeps_source_witness :
  let run := translate_batch failing_backend three_blocks 2 initial_world in
  fmap (map translated_text) (fst run)
  = Some [Some (lit "Hei"); Some (lit "Takk"); Some (lit "Ja")]
  /\ calls (snd run) = 0 + 2 + 3 * 3
  /\ total_wait (events (snd run)) = 11000%N.
Proof.
  destruct (unusable_backend_keeps_source failing_backend three_blocks 2
              initial_world (fun _ _ => eq_refl)) as (Hr & Hc & Hw & _).
  split; [by rewrite Hr|]. split; [exact Hc|exact Hw].
Defined.

Lemma untranslated_parsed content :
  map untranslated (parse_content content) = parse_content content.
Proof.
  rewrite <- (map_id (parse_content content)) at 2.
  apply map_ext_in. intros sub Hin.
  destruct (reader_block content sub Hin) as (Htr & _).
  unfold untranslated. rewrite <- Htr. by destruct sub.
Qed.

(** X20. With a backend that never gives a usable answer,
    [translate_file] still writes the output file for a document with
    blocks: the file is the one written from the blocks as they were read,
    and the summary reports every block as translated. *)
Theorem unusable_backend_file_reports_success
    (backend : Backend) (content : str) (batch_size : positive) (w : World) :
  (forall n request, usable (api_result backend n request) = None) ->
  parse_content content <> [] ->
  let subtitles := parse_content content in
  fst (translate_file backend (Content content) (Zpos batch_size) w)
  = Some {| written := write_srt subtitles;
            summary_count := length subtitles;
            summary_total := length subtitles |}.
Proof.
  intros Hfail Hne subtitles.
  assert (Hr : forall w0,
            fst (translate_batch backend subtitles (Zpos batch_size) w0)
            = Some (map own_text subtitles)).
  { intros w0. apply (translate_batch_all_fail backend Hfail). }
  assert (Htext : Forall (fun sub => text sub <> []) subtitles).
  { apply Forall_forall. intros sub Hin%list_elem_of_In.
    apply parse_content_In in Hin as (m & _ & _ & _ & _ & Hb).
    by apply block_of_match_fields in Hb as (_ & _ & _ & _ & ? & _). }
  unfold translate_file, parse_srt. fold subtitles.
  rewrite bool_decide_eq_false_2 by done.
  rewrite !bind_run, Hr.
  rewrite !bind_run. unfold ret. cbn [fst].
  rewrite write_srt_own_text, success_count_own_text by done.
  unfold subtitles. by rewrite untranslated_parsed.
Qed.

Lemma unusable_backend_file_reports_success_witness :
  fmap summary_count
    (fst (translate_file failing_backend (Content dotted_document) 5
            initial_world)) = Some 2
  /\ fmap written
       (fst (translate_file failing_backend (Content dotted_document) 5
               initial_world))
     = Some (write_srt (parse_content dotted_document)).
Proof.
  rewrite (unusable_backend_file_reports_success failing_backend
             dotted_document 5 initial_world (fun _ _ => eq_refl)).
  - split; [|reflexivity]. vm_compute. reflexivity.
  - vm_compute. discriminate.
Defined.

(** ** The output file keeps the timing *)

(** X21. For a document with blocks and a batch size other than zero,
    [translate_file] writes a file, whatever the backend answers. The file
    is the written form of a list that has, position by position, the
    index, the times and the source text of the blocks that were read, so
    it holds the same index and timing lines in index order; the summary
    counts the blocks with a translation that is not empty, out of the
    number of blocks that were read. *)
Theorem translate_file_keeps_timing
    (backend : Backend) (content : str) (batch_size : Z) (w : World) :
  parse_content content <> [] ->
  batch_size <> 0%Z ->
  exists (outcome : Outcome) (translated : list SubtitleBlock),
    fst (translate_file backend (Content content) batch_size w) = Some outcome
    /\ written outcome = write_srt translated
    /\ map fixed_fields translated = map fixed_fields (parse_content content)
    /\ map index (sorted_by_index translated)
       = map index (sorted_by_index (parse_content content))
    /\ summary_total outcome = length (parse_content content)
    /\ summary_count outcome = success_count translated
    /\ summary_count outcome <= summary_total outcome.
Proof.
  intros Hne Hbs.
  set (subtitles := parse_content content) in *.
  assert (Hrun : forall w0, exists translated,
            fst (translate_batch backend subtitles batch_size w0)
            = Some translated
            /\ map fixed_fields translated = map fixed_fields subtitles).
  { intros w0. destruct batch_size as [|p|p]; [done| |].
    - unfold translate_batch. rewrite bind_run. unfold ret. cbn [fst].
      eexists. split; [reflexivity|]. apply translate_batches_fixed.
    - by exists subtitles. }
  unfold translate_file, parse_srt. fold subtitles.
  rewrite bool_decide_eq_false_2 by done.
  rewrite !bind_run.
  match goal with
  | |- context [translate_batch backend subtitles batch_size ?w0] =>
      destruct (Hrun w0) as (translated & Ht & Hf)
  end.
  rewrite Ht. rewrite !bind_run. unfold ret. cbn [fst].
  eexists _, translated. split; [reflexivity|]. cbn [written summary_count
    summary_total].
  assert (Hlen : length translated = length subtitles).
  { by rewrite <- (length_map fixed_fields), Hf, length_map. }
  split; [done|]. split; [done|]. split.
  - assert (Hi : map index translated = map index subtitles).
    { apply (f_equal (map (fun f : Z * str * str * str => fst (fst (fst f)))))
        in Hf.
      by rewrite !map_map in Hf. }
    apply (StronglySorted_unique Z.le); try apply sorted_by_index_keys.
    change map with (@fmap list _).
    rewrite !sorted_by_index_perm. change (@fmap list _) with map.
    by rewrite Hi.
  - split; [done|]. split; [done|].
    rewrite <- Hlen. unfold success_count. apply List.filter_length_le.
Qed.

Lemma translate_file_keeps_timing_witness :
  exists (outcome : Outcome) (translated : list SubtitleBlock),
    fst (translate_file (constant_backend partial_response)
           (Content shuffled_document) 5 initial_world) = Some outcome
    /\ written outcome = write_srt translated
    /\ map index (sorted_by_index translated) = [1; 2; 3]%Z.
Proof.
  destruct (translate_file_keeps_timing (constant_backend partial_response)
              shuffled_document 5 initial_world)
    as (outcome & translated & Ho & Hw & _ & Hi & _).
  - vm_compute. discriminate.
  - discriminate.
  - exists outcome, translated. split; [exact Ho|]. split; [exact Hw|].
    rewrite Hi. vm_compute. reflexivity.
Defined.

(** ** Responses in the requested format *)

Lemma lookahead_marker_ahead {R : Type} (k : str -> option R) s :
  lookahead
    (alt (fun k => chr is_lf (star is_space (chr is_lbracket
                     (plus is_digit (chr is_rbracket k)))))
         eos) k s
  = if marker_ahead s then k s else None.
Proof. unfold lookahead, marker_ahead. by destruct (alt _ _ _ s). Qed.

Lemma marker_ahead_at s :
  marker_ahead s = true
  <-> s = [] \/ exists ws ds more,
                  s = [LF] ++ ws ++ [91%N] ++ ds ++ [93%N] ++ more
                  /\ forallb is_space ws = true
                  /\ ds <> [] /\ forallb is_digit ds = true.
Proof.
  unfold marker_ahead, alt. split.
  - destruct (chr is_lf _ s) as [r|] eqn:Ha.
    + intros _. right.
      apply chr_inv in Ha as (c & s1 & -> & ->%is_lf_eq & Ha).
      apply star_inv in Ha as (ws & s2 & -> & Hws & Ha).
      apply chr_inv in Ha as (c & s3 & -> & Hc & Ha).
      apply plus_inv in Ha as (d & ds & s4 & -> & Hd & Hds & Ha).
      apply chr_inv in Ha as (c' & more & -> & Hc' & _).
      apply N.eqb_eq in Hc as ->. apply N.eqb_eq in Hc' as ->.
      exists ws, (d :: ds), more. repeat split; try done.
      simpl. by rewrite Hd, Hds.
    + destruct s; [by left|done].
  - intros [->|(ws & ds & more & -> & Hws & Hne & Hds)]; [reflexivity|].
    destruct ds as [|d ds]; [done|]. simpl in Hds.
    apply andb_true_iff in Hds as [Hd Hds].
    assert (Hs : is_Some
              (chr is_lf (star is_space (chr is_lbracket
                 (plus is_digit (chr is_rbracket (fun _ => Some tt)))))
                 ([LF] ++ ws ++ [91%N] ++ (d :: ds) ++ [93%N] ++ more))).
    { cbn [app]. apply chr_complete; [done|].
      apply star_complete; [done|]. apply chr_complete; [done|].
      apply plus_complete; [done|done|]. by apply chr_complete. }
    by destruct Hs as [r ->].
Qed.

Lemma lbracket_not_space c : is_lbracket c = true -> is_space c = false.
Proof. unfold is_lbracket. intros ->%N.eqb_eq. reflexivity. Qed.

Lemma spaces_before (X Y b l : str) h :
  b ++ h :: l = X ++ Y ->
  forallb is_space X = true ->
  forallb (fun c => negb (is_space c)) Y = true ->
  is_space h = true ->
  forallb is_space b = true.
Proof.
  intros Heq HX HY Hh. apply app_eq_app in Heq as (m & [[-> HYm]|[-> Hm]]).
  - exfalso. rewrite HYm, forallb_app in HY. simpl in HY. rewrite Hh in HY.
    simpl in HY. by rewrite andb_false_r in HY.
  - rewrite forallb_app in HX. by apply andb_true_iff in HX as [? _].
Qed.

(** The lookahead does not reach past a segment that ends with a character
    other than whitespace, when whitespace (or nothing) follows it. *)
Lemma marker_ahead_within b rest :
  b <> [] -> head_fails is_space (rev b) ->
  match rest with c :: _ => is_space c = true | [] => True end ->
  marker_ahead (b ++ rest) = true -> marker_ahead b = true.
Proof.
  intros Hne Hlast Hrest [Hnil|(ws & ds & more & Heq & Hws & Hds & Hdig)]%marker_ahead_at.
  { by destruct b. }
  apply marker_ahead_at. right.
  set (P := [LF] ++ ws ++ [91%N] ++ ds ++ [93%N]).
  assert (Heq' : b ++ rest = P ++ more).
  { subst P. rewrite Heq. by rewrite <- !app_assoc. }
  apply app_eq_app in Heq' as (m & [[-> _]|[HP Hm]]).
  - exists ws, ds, (m ++ []). subst P. rewrite app_nil_r.
    by rewrite <- !app_assoc.
  - destruct m as [|h m].
    + rewrite app_nil_r in HP. exists ws, ds, []. by rewrite <- HP.
    + exfalso. rewrite Hm in Hrest. cbn [app] in Hrest.
      assert (Hb : forallb is_space b = true).
      { assert (H1 : b ++ h :: m = ([LF] ++ ws) ++ [91%N] ++ ds ++ [93%N]).
        { etrans; [symmetry; exact HP|]. subst P. by rewrite <- !app_assoc. }
        assert (H2 : forallb is_space ([LF] ++ ws) = true).
        { rewrite forallb_app, Hws. reflexivity. }
        assert (H3 : forallb (fun c => negb (is_space c))
                       ([91%N] ++ ds ++ [93%N]) = true).
        { rewrite !forallb_app. simpl. rewrite andb_true_r.
          apply forallb_forall. intros x Hx.
          rewrite forallb_forall in Hdig.
          by rewrite (digit_not_space x (Hdig x Hx)). }
        exact (spaces_before _ _ b m h H1 H2 H3 Hrest). }
      rewrite <- forallb_rev in Hb.
      destruct (rev b) as [|z r] eqn:Hr.
      * apply (f_equal (@rev char)) in Hr. rewrite rev_involutive in Hr. done.
      * simpl in Hb, Hlast. by rewrite Hlast in Hb.
Qed.

Lemma marker_free_suffix a b :
  marker_free (a ++ b) = true -> b <> [] -> marker_ahead b = false.
Proof.
  induction a as [|c a IH]; cbn [app].
  - destruct b as [|c b]; [done|]. cbn [marker_free].
    intros [H _]%andb_true_iff _. by apply negb_true_iff in H.
  - cbn [marker_free]. intros [_ H]%andb_true_iff. by apply IH.
Qed.

Lemma suffix_last (a b : str) :
  b <> [] -> head_fails is_space (rev (a ++ b)) -> head_fails is_space (rev b).
Proof.
  intros Hb. rewrite rev_app_distr.
  destruct (rev b) as [|z r] eqn:Hr; [|done].
  apply (f_equal (@rev char)) in Hr. rewrite rev_involutive in Hr. done.
Qed.

Lemma findall_markers_skip u : forall s,
  findall_markers (length u) (u ++ s) = findall_markers 0 s.
Proof.
  induction u as [|c u IH]; intros s; simpl; [by destruct s|]. apply IH.
Qed.

Lemma marker_pattern_no_bracket c s :
  is_lbracket c = false -> marker_pattern (c :: s) = None.
Proof. intros Hc. unfold marker_pattern. cbn [chr]. by rewrite Hc. Qed.

Lemma findall_markers_spaces ws s :
  forallb is_space ws = true ->
  findall_markers 0 (ws ++ s) = findall_markers 0 s.
Proof.
  induction ws as [|c ws IH]; [done|]. simpl forallb.
  intros [Hc Hws]%andb_true_iff. cbn [app findall_markers].
  rewrite marker_pattern_no_bracket; [by apply IH|].
  destruct (is_lbracket c) eqn:Hl; [|done].
  apply lbracket_not_space in Hl. congruence.
Qed.

Lemma marker_pattern_run d gap t rest :
  d <> [] -> forallb is_digit d = true ->
  forallb is_space gap = true ->
  plain_segment t ->
  marker_ahead rest = true ->
  marker_pattern ([91%N] ++ d ++ [93%N] ++ gap ++ t ++ rest)
  = Some (d, t, rest).
Proof.
  intros Hne Hd Hgap [Htr Hfree] Hrest. unfold marker_pattern.
  cbn [app chr]. change (is_lbracket 91%N) with true. cbv iota.
  apply capture_plus_run; [done|done|reflexivity|].
  cbn [chr]. change (is_rbracket 93%N) with true. cbv iota.
  destruct Htr as (Htne & Hhead & Hlast).
  apply star_greedy; [done|by apply head_fails_app|].
  apply capture_lazy_run; [by apply forallb_forall| |].
  - intros a b g -> Hb. rewrite lookahead_marker_ahead.
    destruct (marker_ahead (b ++ rest)) eqn:Hm; [exfalso|done].
    apply marker_ahead_within in Hm; [|done|by apply (suffix_last a)|].
    + by rewrite (marker_free_suffix a b) in Hm.
    + apply marker_ahead_at in Hrest as [->|(ws & ds & more & -> & _)]; done.
  - by rewrite lookahead_marker_ahead, Hrest.
Qed.

Lemma findall_markers_item d gap t rest :
  d <> [] -> forallb is_digit d = true ->
  forallb is_space gap = true ->
  plain_segment t ->
  marker_ahead rest = true ->
  findall_markers 0 ([91%N] ++ d ++ [93%N] ++ gap ++ t ++ rest)
  = (d, t) :: findall_markers 0 rest.
Proof.
  intros Hne Hd Hgap Ht Hrest.
  pose proof (marker_pattern_run d gap t rest Hne Hd Hgap Ht Hrest) as Hm.
  cbn [app] in *. cbn [findall_markers]. rewrite Hm. f_equal.
  replace (d ++ 93%N :: gap ++ t ++ rest)
    with ((d ++ 93%N :: gap ++ t) ++ rest)
    by (by rewrite <- !app_assoc, <- app_comm_cons, <- !app_assoc).
  match goal with
  | |- findall_markers ?n _ = _ =>
      replace n with (length (d ++ 93%N :: gap ++ t))
        by (cbn [length]; rewrite (length_app _ rest); lia)
  end.
  apply findall_markers_skip.
Qed.

Lemma numbered_item_digits i :
  str_of_int (Z.of_nat i + 1) <> []
  /\ forallb is_digit (str_of_int (Z.of_nat i + 1)) = true.
Proof. apply str_of_int_digits. lia. Qed.

Lemma join_cons sep (x : str) l :
  l <> [] -> join sep (x :: l) = x ++ sep ++ join sep l.
Proof. by destruct l. Qed.

Lemma findall_markers_numbered gap ws ts : forall k,
  forallb is_space gap = true ->
  forallb is_space ws = true ->
  Forall plain_segment ts ->
  findall_markers 0
    (join (LF :: ws) (imap (fun i => numbered_item gap (k + i)) ts))
  = imap (fun i t => (str_of_int (Z.of_nat (k + i) + 1), t)) ts.
Proof.
  induction ts as [|t ts IH]; intros k Hgap Hws Hall; [done|].
  apply Forall_cons in Hall as [Ht Hall].
  destruct (numbered_item_digits (k + 0)) as [Hne Hd].
  cbn [imap].
  rewrite (imap_ext _ (fun i => numbered_item gap (S k + i)) ts)
    by (intros i x _; unfold compose; f_equal; lia).
  rewrite (imap_ext (_ ∘ S)
             (fun i t0 => (str_of_int (Z.of_nat (S k + i) + 1), t0)) ts)
    by (intros i x _; unfold compose; do 2 f_equal; lia).
  rewrite <- (IH (S k)) by done.
  destruct ts as [|t' ts].
  - cbn [imap join]. unfold numbered_item.
    replace (gap ++ t) with (gap ++ t ++ []) by (by rewrite app_nil_r).
    by rewrite findall_markers_item.
  - rewrite join_cons by done.
    unfold numbered_item at 1. rewrite <- !app_assoc.
    rewrite findall_markers_item; try done.
    + f_equal. change (LF :: ws) with ([LF] ++ ws). rewrite <- app_assoc.
      apply (findall_markers_spaces ([LF] ++ ws)).
      rewrite forallb_app, Hws. reflexivity.
    + apply marker_ahead_at. right.
      destruct (numbered_item_digits (S k + 0)) as [Hne' Hd'].
      cbn [imap]. 
      assert (Hj : exists more,
                join (LF :: ws)
                  (numbered_item gap (S k + 0) t'
                   :: imap ((fun i => numbered_item gap (S k + i)) ∘ S) ts)
                = [91%N] ++ str_of_int (Z.of_nat (S k + 0) + 1) ++ [93%N]
                  ++ more).
      { destruct (imap _ ts) as [|y l].
        - cbn [join]. unfold numbered_item. by eexists.
        - rewrite join_cons by done. unfold numbered_item.
          eexists. rewrite <- !app_assoc. reflexivity. }
      destruct Hj as (more & ->).
      exists ws, (str_of_int (Z.of_nat (S k + 0) + 1)), more. done.
Qed.

Lemma marker_position_range i len pair j :
  marker_position i len pair = Some j -> i <= j < i + len.
Proof.
  unfold marker_position.
  destruct (Z.leb_spec 1 (int_of_digits (fst pair))); [|done].
  destruct (Z.leb_spec (int_of_digits (fst pair)) (Z.of_nat len)); [|done].
  simpl. intros [= <-]. lia.
Qed.

Lemma numbered_pair_position i len k (t : str) :
  k < len ->
  marker_position i len (str_of_int (Z.of_nat k + 1), t) = Some (i + k).
Proof.
  intros Hk. rewrite valid_marker_position; cbn [fst];
    rewrite int_of_str_of_int by lia; [|lia].
  do 2 f_equal. lia.
Qed.

(** X22. The numbered list of the batch prompt is in the format that the
    pattern of the batch response reads: for texts without whitespace at
    either end and without a marker line inside, the pattern finds in the
    list exactly one pair per text, the number of the text and the text. *)
Theorem numbered_texts_read_back (processed : list str) :
  Forall plain_segment processed ->
  findall_markers 0 (numbered_texts processed)
  = imap (fun i t => (str_of_int (Z.of_nat i + 1), t)) processed.
Proof.
  intros Hall. unfold numbered_texts.
  exact (findall_markers_numbered [LF] [LF] processed 0 eq_refl eq_refl
           Hall).
Qed.

Lemma numbered_texts_read_back_witness :
  numbered_texts [lit "Hei"; lit "Takk" ++ [LF] ++ lit "Ja"]
  = lit "[1]" ++ [LF] ++ lit "Hei" ++ [LF; LF]
    ++ lit "[2]" ++ [LF] ++ lit "Takk" ++ [LF] ++ lit "Ja"
  /\ findall_markers 0
       (numbered_texts [lit "Hei"; lit "Takk" ++ [LF] ++ lit "Ja"])
     = [(lit "1", lit "Hei"); (lit "2", lit "Takk" ++ [LF] ++ lit "Ja")].
Proof.
  split; [reflexivity|].
  apply (numbered_texts_read_back [lit "Hei"; lit "Takk" ++ [LF] ++ lit "Ja"]).
  repeat constructor; try discriminate; reflexivity.
Defined.

(** X23. When the answer to a batch is in the format that the prompt asks
    for, one line [[k] text] per block of the batch, every block of the
    batch gets its line as its translation (runs of three or more newlines
    collapsed to two), in one call to the backend and with a wait of half a
    second; the blocks outside the batch are left as they were. *)
Theorem numbered_response_translates_batch
    (backend : Backend) (batch_size i : nat) (st : BatchState) (w : World)
    (translations : list str) :
  usable (api_result backend (calls w) (batch_request (fst st) batch_size i))
  = Some (numbered_lines translations) ->
  Forall plain_segment translations ->
  length translations = batch_length (fst st) i batch_size ->
  0 < length translations ->
  let run := translate_one_batch backend batch_size i st w in
  calls (snd run) = S (calls w)
  /\ total_wait (events (snd run)) = (total_wait (events w) + 500)%N
  /\ (forall k t,
        translations !! k = Some t ->
        exists sub sub',
          fst st !! (i + k) = Some sub
          /\ fst (fst run) !! (i + k) = Some sub'
          /\ translated_text sub' = Some (collapse_newlines 0 t)
          /\ fixed_fields sub' = fixed_fields sub)
  /\ (forall j, j < i \/ i + length translations <= j ->
        fst (fst run) !! j = fst st !! j).
Proof.
  intros Hr Hall Hlen Hpos run. subst run.
  set (len := batch_length (fst st) i batch_size) in *.
  assert (Hpairs : findall_markers 0 (numbered_lines translations)
                   = imap (fun k t => (str_of_int (Z.of_nat k + 1), t))
                       translations).
  { exact (findall_markers_numbered [32%N] [] translations 0 eq_refl eq_refl
             Hall). }
  assert (Hflag : snd (apply_pairs i len
                         (findall_markers 0 (numbered_lines translations)) st)
                  = true).
  { unfold apply_pairs. rewrite fold_apply_pair_flag, Hpairs. simpl.
    destruct translations as [|t ts]; [simpl in Hpos; lia|].
    cbn [imap existsb]. rewrite (numbered_pair_position i len 0) by lia.
    reflexivity. }
  rewrite (translate_one_batch_applied _ _ _ _ _ _ Hr Hflag).
  fold len. cbn [fst snd calls events]. rewrite Hpairs.
  split; [done|]. split.
  { rewrite !total_wait_app, total_wait_call_events. reflexivity. }
  split.
  - intros k t Hk.
    assert (Hklen : k < len).
    { rewrite <- Hlen. by apply lookup_lt_Some in Hk. }
    assert (Hin : i + k < length (fst st)).
    { pose proof (batch_length_bound (fst st) i batch_size). fold len in H.
      lia. }
    destruct (lookup_lt_is_Some_2 _ _ Hin) as [sub Hsub].
    rewrite <- (take_drop_middle translations k t Hk), imap_app.
    cbn [imap].
    destruct (apply_pairs_last i len
                (imap (fun k0 t0 => (str_of_int (Z.of_nat k0 + 1), t0))
                   (take k translations))
                (str_of_int (Z.of_nat (length (take k translations) + 0) + 1), t)
                (imap ((fun n t0 =>
                          (str_of_int
                             (Z.of_nat (length (take k translations) + n) + 1),
                           t0)) ∘ S)
                   (drop (S k) translations))
                st (i + k) sub) as (sub' & Hl & Ht & Hf).
    + rewrite length_take, Nat.min_l, Nat.add_0_r by lia.
      by apply numbered_pair_position.
    + intros q Hq%list_elem_of_In.
      apply elem_of_lookup_imap_1 in Hq as (n & y & -> & _).
      unfold compose. rewrite length_take, Nat.min_l by lia.
      replace (i + k) with (i + Z.to_nat ((Z.of_nat k + 1) - 1)) by lia.
      apply other_marker_position; [lia|]. cbn [fst].
      rewrite int_of_str_of_int by lia. lia.
    + done.
    + exists sub, sub'. split; [done|]. split; [exact Hl|]. split; [|done].
      rewrite Ht. cbn [snd]. unfold clean_segment.
      rewrite Forall_forall in Hall.
      destruct (Hall t) as [Htr _]; [by eapply list_elem_of_lookup_2|].
      by rewrite strip_fixed.
  - intros j Hj. unfold apply_pairs. apply fold_apply_pair_untouched.
    intros p _ Hp%marker_position_range. lia.
Qed.

Lemma numbered_response_translates_batch_witness :
  let run := translate_one_batch (constant_backend full_response) 3 0
               (three_blocks, 0) initial_world in
  calls (snd run) = 1
  /\ map translated_text (fst (fst run))
     = [Some (lit "A"); Some (lit "B"); Some (lit "C")].
Proof.
  destruct (numbered_response_translates_batch (constant_backend full_response)
              3 0 (three_blocks, 0) initial_world [lit "A"; lit "B"; lit "C"])
    as (Hc & _ & _ & _).
  - reflexivity.
  - repeat constructor; try discriminate; reflexivity.
  - reflexivity.
  - simpl. lia.
  - split; [exact Hc|]. reflexivity.
Defined.

(** ** Responses without a usable marker *)










(** ** Sound tags *)

Lemma replace_from_skip old new u : forall s,
  replace_from old new (length u) (u ++ s) = replace_from old new 0 s.
Proof.
  induction u as [|c u IH]; intros s; simpl; [by destruct s|]. apply IH.
Qed.

Lemma replace_from_match old new s :
  old <> [] ->
  replace_from old new 0 (old ++ s) = new ++ replace_from old new 0 s.
Proof.
  intros Hne. destruct old as [|c old]; [done|].
  cbn [app replace_from].
  change (c :: old ++ s) with ((c :: old) ++ s).
  rewrite starts_with_app. f_equal.
  replace (length (c :: old) - 1) with (length old) by (simpl; lia).
  apply replace_from_skip.
Qed.

Lemma replace_from_other old new c s :
  starts_with old (c :: s) = false ->
  replace_from old new 0 (c :: s) = c :: replace_from old new 0 s.
Proof. intros H. cbn [replace_from]. by rewrite H. Qed.

Lemma tag_letter_inv w x :
  tag_letter w = Some x ->
  exists w', w = 91%N :: x :: w' /\ existsb is_lbracket (x :: w') = false.
Proof.
  destruct w as [|b [|y w']]; try done. unfold tag_letter.
  destruct (is_lbracket b) eqn:Hb; [|done].
  destruct (existsb is_lbracket (y :: w')) eqn:He; [done|].
  simpl. intros [= ->]. apply N.eqb_eq in Hb as ->. by exists w'.
Qed.

Section Replace.
Context (old : str) (x y : char) (w' new' : str).
Hypothesis Hold : old <> [].
Hypothesis Hw : existsb is_lbracket (x :: w') = false.
Hypothesis Hnew' : existsb is_lbracket (y :: new') = false.
Hypothesis Hxy : x <> y.

Local Abbreviation new := (91%N :: y :: new').
Local Abbreviation R := (replace_from old new 0).

(** A text without an opening bracket at the start of the result is at
    the start of the text. *)
Lemma replaced_starts_plain u : forall s,
  existsb is_lbracket u = false ->
  starts_with u (R s) = true -> starts_with u s = true.
Proof.
  induction u as [|c u IH]; intros s Hu; [done|].
  simpl in Hu. apply orb_false_iff in Hu as [Hc Hu].
  destruct s as [|d s]; [done|].
  destruct (starts_with old (d :: s)) eqn:Ho.
  - apply starts_with_inv in Ho as (b & Hb). rewrite Hb.
    rewrite replace_from_match by done. cbn [app starts_with].
    intros [Hc' _]%andb_true_iff. apply N.eqb_eq in Hc' as ->. done.
  - rewrite replace_from_other by done. cbn [starts_with].
    intros [-> Hs]%andb_true_iff. simpl. by apply IH.
Qed.

Lemma replaced_starts_tag s :
  starts_with (91%N :: x :: w') (R s) = true ->
  starts_with (91%N :: x :: w') s = true /\ starts_with old s = false.
Proof.
  destruct s as [|d s]; [done|].
  destruct (starts_with old (d :: s)) eqn:Ho.
  - apply starts_with_inv in Ho as (b & Hb). rewrite Hb.
    rewrite replace_from_match by done. cbn [app starts_with].
    intros [_ [Hx _]%andb_true_iff]%andb_true_iff.
    by apply N.eqb_eq in Hx.
  - rewrite replace_from_other by done.
    change (starts_with (91%N :: x :: w') (d :: ?t))
      with ((91 =? d)%N && starts_with (x :: w') t).
    intros [Hd Hs]%andb_true_iff. split; [|done].
    change (starts_with (91%N :: x :: w') (d :: s))
      with ((91 =? d)%N && starts_with (x :: w') s).
    rewrite Hd. by apply replaced_starts_plain.
Qed.

Lemma contains_after_plain u s :
  existsb is_lbracket u = false ->
  contains (91%N :: x :: w') (u ++ s) = contains (91%N :: x :: w') s.
Proof.
  induction u as [|c u IH]; [done|]. simpl existsb.
  intros [Hc Hu]%orb_false_iff. cbn [app contains].
  rewrite IH by done.
  change (starts_with (91%N :: x :: w') (c :: ?t))
    with ((91 =? c)%N && starts_with (x :: w') t).
  unfold is_lbracket in Hc. rewrite N.eqb_sym in Hc. by rewrite Hc.
Qed.

Lemma contains_cons w c s :
  contains w (c :: s) = starts_with w (c :: s) || contains w s.
Proof. reflexivity. Qed.

(** An occurrence of the tag in the result is an occurrence in the text,
    at a place where [old] does not start. *)
Lemma replaced_contains_tag n : forall s,
  length s <= n ->
  contains (91%N :: x :: w') (R s) = true ->
  exists a b, s = a ++ b
              /\ starts_with (91%N :: x :: w') b = true
              /\ starts_with old b = false.
Proof.
  induction n as [|n IH]; intros s Hlen Hc.
  { destruct s; [done|simpl in Hlen; lia]. }
  destruct (starts_with (91%N :: x :: w') (R s)) eqn:Hs.
  { apply replaced_starts_tag in Hs as [? ?]. by exists [], s. }
  destruct s as [|d s]; [done|].
  destruct (starts_with old (d :: s)) eqn:Ho.
  - apply starts_with_inv in Ho as (b & Hb). rewrite Hb in *.
    rewrite replace_from_match in Hc, Hs by done.
    cbn [app] in Hc, Hs. rewrite contains_cons, Hs in Hc. cbn [orb] in Hc.
    change (y :: new' ++ ?t) with ((y :: new') ++ t) in Hc.
    rewrite contains_after_plain in Hc by done.
    apply IH in Hc as (a & b' & -> & H1 & H2).
    + exists (old ++ a), b'. by rewrite <- app_assoc.
    + rewrite length_app in Hlen.
      destruct old; [done|]. simpl in Hlen. lia.
  - rewrite replace_from_other in Hc, Hs by done.
    rewrite contains_cons, Hs in Hc. cbn [orb] in Hc.
    apply IH in Hc as (a & b' & -> & H1 & H2); [|simpl in Hlen; lia].
    by exists (d :: a), b'.
Qed.

Lemma replaced_keeps_absent s :
  contains (91%N :: x :: w') s = false ->
  contains (91%N :: x :: w') (R s) = false.
Proof.
  intros Hno. destruct (contains _ (R s)) eqn:Hc; [exfalso|done].
  apply (replaced_contains_tag (length s)) in Hc as (a & b & -> & Hb & _);
    [|done].
  apply starts_with_inv in Hb as (b' & ->).
  apply not_true_iff_false in Hno. apply Hno, contains_occurs.
  by exists a, b'.
Qed.
End Replace.

Lemma tags_distinct_inv tags tag tag' :
  tags_distinct tags = true -> In tag tags -> In tag' tags ->
  exists x y w' new',
    fst tag = 91%N :: x :: w' /\ existsb is_lbracket (x :: w') = false
    /\ snd tag' = 91%N :: y :: new' /\ existsb is_lbracket (y :: new') = false
    /\ x <> y.
Proof.
  unfold tags_distinct. intros Hall Hin Hin'.
  rewrite forallb_forall in Hall. specialize (Hall tag Hin).
  rewrite forallb_forall in Hall. specialize (Hall tag' Hin').
  destruct (tag_letter (fst tag)) as [x|] eqn:Hx; [|done].
  destruct (tag_letter (snd tag')) as [y|] eqn:Hy; [|done].
  apply tag_letter_inv in Hx as (w' & Hw & Hw').
  apply tag_letter_inv in Hy as (new' & Hn & Hn').
  exists x, y, w', new'. repeat split; try done.
  intros ->. by rewrite N.eqb_refl in Hall.
Qed.

Lemma str_replace_tag old new s :
  old <> [] -> str_replace old new s = replace_from old new 0 s.
Proof. by destruct old. Qed.

Lemma replace_from_absent old new s :
  contains old s = false -> replace_from old new 0 s = s.
Proof.
  induction s as [|c s IH]; [done|]. rewrite contains_cons.
  intros [Hs Hc]%orb_false_iff.
  rewrite replace_from_other by done. by rewrite IH.
Qed.

Section Table.
Context (tags : list (str * str)).
Hypothesis Htags : tags_distinct tags = true.

Local Abbreviation step := (fun (t : str) (tag : str * str) =>
                              str_replace (fst tag) (snd tag) t).

Lemma tag_not_empty tag : In tag tags -> fst tag <> [].
Proof.
  intros Hin.
  destruct (tags_distinct_inv tags tag tag Htags Hin Hin)
    as (x & y & w' & new' & -> & _). done.
Qed.

Lemma step_keeps_absent tag tag' t :
  In tag tags -> In tag' tags ->
  contains (fst tag) t = false ->
  contains (fst tag) (step t tag') = false.
Proof.
  intros Hin Hin' Hno.
  destruct (tags_distinct_inv tags tag tag' Htags Hin Hin')
    as (x & y & w' & new' & Hw & Hw' & Hn & Hn' & Hxy).
  rewrite str_replace_tag by (by apply tag_not_empty).
  rewrite Hw, Hn in *.
  apply replaced_keeps_absent; try done.
  by apply tag_not_empty.
Qed.

Lemma step_removes tag t :
  In tag tags -> contains (fst tag) (step t tag) = false.
Proof.
  intros Hin.
  destruct (tags_distinct_inv tags tag tag Htags Hin Hin)
    as (x & y & w' & new' & Hw & Hw' & Hn & Hn' & Hxy).
  rewrite str_replace_tag by (by apply tag_not_empty).
  rewrite Hn.
  destruct (contains (fst tag) _) eqn:Hc; [exfalso|done].
  rewrite Hw in Hc at 1.
  apply (replaced_contains_tag (fst tag) x y w' new') with (n := length t)
    in Hc as (a & b & _ & Hb & Hb'); try done.
  - rewrite Hw in Hb'. unfold str, char in *. congruence.
  - by apply tag_not_empty.
Qed.

Lemma fold_keeps_absent tag later : forall t,
  In tag tags -> (forall tag', In tag' later -> In tag' tags) ->
  contains (fst tag) t = false ->
  contains (fst tag) (fold_left step later t) = false.
Proof.
  induction later as [|tag' later IH]; intros t Hin Hsub Hno; [done|].
  cbn [fold_left]. apply IH; [done|intros; apply Hsub; by right|].
  apply step_keeps_absent; [done|apply Hsub; by left|done].
Qed.

Lemma fold_removes tag before later t :
  tags = before ++ tag :: later ->
  contains (fst tag) (fold_left step tags t) = false.
Proof.
  intros Heq.
  assert (Hin : In tag tags) by (rewrite Heq, in_app_iff; right; by left).
  rewrite Heq at 1. rewrite fold_left_app. cbn [fold_left].
  apply fold_keeps_absent; [done| |by apply step_removes].
  intros tag' Hin'. rewrite Heq, in_app_iff. right. by right.
Qed.

Lemma fold_absent later : forall t,
  (forall tag, In tag later -> contains (fst tag) t = false) ->
  fold_left step later t = t.
Proof.
  induction later as [|tag later IH]; intros t Hno; [done|].
  cbn [fold_left].
  assert (Hs : step t tag = t).
  { unfold str_replace. destruct (fst tag) as [|c old] eqn:Ho.
    - specialize (Hno tag (or_introl eq_refl)). rewrite Ho in Hno.
      by destruct t.
    - rewrite <- Ho. apply replace_from_absent. apply Hno. by left. }
  rewrite Hs. apply IH. intros tag' Hin. apply Hno. by right.
Qed.
End Table.

(** X25. After the replacement of the sound tags, none of the sound tags
    of the source language occurs in the text, and a text in which none
    occurs is left as it is. *)
Theorem sound_tags_replaced (text : str) :
  (forall tag, In tag sound_tags ->
     contains (fst tag) (replace_sound_tags text) = false)
  /\ ((forall tag, In tag sound_tags -> contains (fst tag) text = false) ->
      replace_sound_tags text = text).
Proof.
  split.
  - intros tag Hin. destruct (in_split _ _ Hin) as (before & later & Heq).
    unfold replace_sound_tags.
    by apply (fold_removes sound_tags eq_refl tag before later).
  - intros Hno. by apply fold_absent.
Qed.

(** ** A run answered in the requested format *)

Lemma with_translation_eta (sub sub' : SubtitleBlock) t :
  translated_text sub' = Some t ->
  fixed_fields sub' = fixed_fields sub ->
  sub' = with_translation t sub.
Proof.
  destruct sub, sub'. unfold fixed_fields, with_translation. simpl.
  by intros -> [= -> -> -> ->].
Qed.

Lemma numbered_batch_run backend batch_size i st w translations :
  let len := batch_length (fst st) i batch_size in
  usable (api_result backend (calls w) (batch_request (fst st) batch_size i))
  = Some (numbered_lines (take len (drop i translations))) ->
  Forall plain_segment translations ->
  length translations = length (fst st) ->
  0 < len ->
  let run := translate_one_batch backend batch_size i st w in
  (forall j, fst (fst run) !! j
             = translated_at_positions translations (seq i len) (fst st) j)
  /\ costs (translate_one_batch backend batch_size i st) w 1 1 500 500.
Proof.
  intros len Hr Hall Hlen Hpos run. subst run.
  set (chunk := take len (drop i translations)) in *.
  assert (Hbound : i + len <= length (fst st)).
  { by apply batch_length_bound. }
  assert (Hchunk : length chunk = len).
  { subst chunk. rewrite length_take, length_drop. lia. }
  assert (Hck : forall k, k < len -> chunk !! k = translations !! (i + k)).
  { intros k Hk. subst chunk. by rewrite lookup_take_lt, lookup_drop. }
  assert (Hplain : Forall plain_segment chunk).
  { subst chunk. by apply Forall_take, Forall_drop. }
  assert (Hpairs : findall_markers 0 (numbered_lines chunk)
                   = imap (fun k t => (str_of_int (Z.of_nat k + 1), t)) chunk).
  { exact (findall_markers_numbered [32%N] [] chunk 0 eq_refl eq_refl Hplain). }
  assert (Hflag : snd (apply_pairs i len
                         (findall_markers 0 (numbered_lines chunk)) st) = true).
  { unfold apply_pairs. rewrite fold_apply_pair_flag, Hpairs. simpl.
    destruct chunk as [|t ts]; [simpl in Hchunk; lia|].
    cbn [imap existsb]. rewrite (numbered_pair_position i len 0) by lia.
    reflexivity. }
  unfold costs.
  rewrite (translate_one_batch_applied _ _ _ _ _ _ Hr Hflag).
  fold len. cbn [fst snd calls events]. rewrite Hpairs.
  split.
  - intros j. unfold translated_at_positions.
    case_bool_decide as Hj.
    + apply list_elem_of_In, in_seq in Hj.
      assert (Hk : j - i < len) by lia.
      destruct (lookup_lt_is_Some_2 chunk (j - i)) as [t Ht]; [lia|].
      destruct (lookup_lt_is_Some_2 (fst st) j) as [sub Hsub]; [lia|].
      rewrite <- (take_drop_middle chunk (j - i) t Ht), imap_app.
      cbn [imap].
      destruct (apply_pairs_last i len
                  (imap (fun k0 t0 => (str_of_int (Z.of_nat k0 + 1), t0))
                     (take (j - i) chunk))
                  (str_of_int
                     (Z.of_nat (length (take (j - i) chunk) + 0) + 1), t)
                  (imap ((fun n t0 =>
                            (str_of_int
                               (Z.of_nat (length (take (j - i) chunk) + n) + 1),
                             t0)) ∘ S)
                     (drop (S (j - i)) chunk))
                  st j sub) as (sub' & Hl & Htt & Hf).
      * rewrite length_take, Nat.min_l, Nat.add_0_r by lia.
        rewrite numbered_pair_position by done. f_equal. lia.
      * intros q Hq%list_elem_of_In.
        apply elem_of_lookup_imap_1 in Hq as (n & y & -> & _).
        unfold compose. rewrite length_take, Nat.min_l by lia.
        replace j with (i + Z.to_nat ((Z.of_nat (j - i) + 1) - 1)) at 2 by lia.
        apply other_marker_position; [lia|]. cbn [fst].
        rewrite int_of_str_of_int by lia. lia.
      * done.
      * rewrite Hl, Hsub. cbn [fmap option_fmap option_map]. f_equal.
        apply with_translation_eta; [|done].
        assert (Htj : translations !! j = Some t).
        { rewrite <- Ht, Hck by lia. f_equal. lia. }
        rewrite Htt. cbn [snd]. unfold clean_segment, translation_at.
        unfold str, char in *. rewrite Htj. cbn [default from_option].
        rewrite Forall_forall in Hplain.
        destruct (Hplain t) as [Htr _]; [by eapply list_elem_of_lookup_2|].
        by rewrite strip_fixed.
    + unfold apply_pairs. apply fold_apply_pair_untouched.
      intros p _ Hp%marker_position_range. apply Hj.
      apply list_elem_of_In, in_seq. lia.
  - rewrite !total_wait_app, total_wait_call_events.
    change (total_wait [Log INFO; Sleep 500]) with 500%N. lia.
Qed.

Lemma batch_starts_lookup total batch_size :
  forall fuel i k s,
    batch_starts fuel total batch_size i !! k = Some s ->
    s = i + k * batch_size /\ s < total.
Proof.
  induction fuel as [|fuel IH]; intros i k s; [done|].
  cbn [batch_starts]. destruct (Nat.ltb_spec i total) as [Hlt|Hge]; [|done].
  destruct k as [|k]; simpl.
  - intros [= <-]. lia.
  - intros Hk%IH. lia.
Qed.

Lemma translated_at_positions_app translations p1 p2
    (l l1 : list SubtitleBlock) j :
  l1 !! j = translated_at_positions translations p1 l j ->
  translated_at_positions translations p2 l1 j
  = translated_at_positions translations (p1 ++ p2) l j.
Proof.
  unfold translated_at_positions. intros ->.
  destruct (decide (j ∈ p1)) as [H1|H1]; destruct (decide (j ∈ p2)) as [H2|H2].
  - rewrite !bool_decide_eq_true_2 by (try apply elem_of_app; auto).
    by destruct (l !! j).
  - rewrite (bool_decide_eq_true_2 (j ∈ p1)) by done.
    rewrite (bool_decide_eq_false_2 (j ∈ p2)) by done.
    rewrite bool_decide_eq_true_2 by (apply elem_of_app; auto). done.
  - rewrite (bool_decide_eq_false_2 (j ∈ p1)) by done.
    rewrite (bool_decide_eq_true_2 (j ∈ p2)) by done.
    rewrite bool_decide_eq_true_2 by (apply elem_of_app; auto). done.
  - rewrite (bool_decide_eq_false_2 (j ∈ p1)) by done.
    rewrite (bool_decide_eq_false_2 (j ∈ p2)) by done.
    rewrite bool_decide_eq_false_2; [done|].
    by intros [?|?]%elem_of_app.
Qed.

Lemma numbered_batches_run backend batch_size translations starts :
  forall st w,
    Forall plain_segment translations ->
    length translations = length (fst st) ->
    (forall k i request,
       starts !! k = Some i ->
       i < length (fst st)
       /\ usable (api_result backend (calls w + k) request)
          = Some (numbered_lines (take batch_size (drop i translations)))) ->
    0 < batch_size ->
    (forall j,
       fst (fst (translate_batches backend batch_size starts st w)) !! j
       = translated_at_positions translations
           (batch_positions (length (fst st)) batch_size starts) (fst st) j)
    /\ costs (translate_batches backend batch_size starts st) w
         (length starts) (length starts)
         (500 * N.of_nat (length starts)) (500 * N.of_nat (length starts)).
Proof.
  induction starts as [|i starts IH]; intros st w Hall Hlen Hans Hbs.
  - split; [|apply costs_ret]. intros j. reflexivity.
  - cbn [translate_batches].
    destruct (Hans 0 i (batch_request (fst st) batch_size i) eq_refl)
      as [Hi Hr].
    rewrite Nat.add_0_r in Hr.
    destruct (numbered_batch_run backend batch_size i st w translations)
      as [Hb Hcb]; try done.
    { rewrite Hr. do 2 f_equal. rewrite batch_length_min.
      destruct (Nat.min_spec batch_size (length (fst st) - i))
        as [[_ ->]|[Hm ->]]; [done|].
      rewrite !take_ge; [done|rewrite length_drop; lia..]. }
    { rewrite batch_length_min. lia. }
    pose proof (translate_one_batch_length backend batch_size i st w) as Hl1.
    destruct (IH (fst (translate_one_batch backend batch_size i st w))
                 (snd (translate_one_batch backend batch_size i st w)))
      as [Hrest Hcr]; try done.
    { by rewrite Hl1. }
    { intros k i' request Hk. rewrite Hl1.
      destruct (Hans (S k) i' request Hk) as [Hi' Hr'].
      split; [done|]. rewrite <- Hr'. do 2 f_equal.
      destruct Hcb as [Hc _]. lia. }
    split.
    + intros j. rewrite bind_run, Hrest, Hl1.
      unfold batch_positions. cbn [map concat].
      rewrite <- batch_length_min.
      apply translated_at_positions_app, Hb.
    + eapply costs_weaken; [eapply costs_bind; [exact Hcb|exact Hcr]|..];
        cbn [length]; lia.
Qed.

Lemma translated_at_all translations (subtitles : list SubtitleBlock) :
  length translations = length subtitles ->
  forall j,
    translated_at_positions translations (seq 0 (length subtitles)) subtitles j
    = zip_with with_translation (map (collapse_newlines 0) translations)
        subtitles !! j.
Proof.
  intros Hlen j. unfold translated_at_positions, translation_at.
  rewrite lookup_zip_with. change map with (@fmap list _).
  rewrite list_lookup_fmap.
  destruct (decide (j < length subtitles)) as [Hj|Hj].
  - rewrite bool_decide_eq_true_2 by (apply list_elem_of_In, in_seq; lia).
    destruct (lookup_lt_is_Some_2 translations j) as [t Ht]; [lia|].
    unfold str, char in *. rewrite Ht.
    by destruct (subtitles !! j).
  - rewrite bool_decide_eq_false_2
      by (intros H%list_elem_of_In%in_seq; lia).
    rewrite (lookup_ge_None_2 subtitles) by lia.
    by destruct (collapse_newlines 0 <$> translations !! j).
Qed.

Lemma numbered_run backend subtitles (batch_size : positive) translations w :
  length translations = length subtitles ->
  Forall plain_segment translations ->
  (forall k request,
     k < batch_count (length subtitles) (Pos.to_nat batch_size) ->
     usable (api_result backend (calls w + k) request)
     = Some (numbered_lines
               (take (Pos.to_nat batch_size)
                  (drop (k * Pos.to_nat batch_size) translations)))) ->
  let batches := batch_count (length subtitles) (Pos.to_nat batch_size) in
  fst (translate_batch backend subtitles (Zpos batch_size) w)
  = Some (zip_with with_translation (map (collapse_newlines 0) translations)
            subtitles)
  /\ costs (translate_batch backend subtitles (Zpos batch_size)) w
       batches batches (500 * N.of_nat batches) (500 * N.of_nat batches).
Proof.
  intros Hlen Hall Hans batches.
  set (p := Pos.to_nat batch_size) in *.
  set (n := length subtitles) in *.
  assert (Hbs : 0 < p) by (subst p; lia).
  destruct (numbered_batches_run backend p translations
              (batch_starts n n p 0) (subtitles, 0) w) as [Hr Hc]; try done.
  { intros k i request Hk. cbn [fst]. fold n.
    pose proof (lookup_lt_Some _ _ _ Hk) as Hklen.
    rewrite batch_starts_length in Hklen by lia.
    rewrite Nat.sub_0_r in Hklen.
    apply batch_starts_lookup in Hk as [-> Hlt]. split; [done|].
    by rewrite Hans. }
  cbn [fst] in Hr, Hc. fold n in Hr.
  rewrite batch_positions_all in Hr by done.
  rewrite batch_starts_length, Nat.sub_0_r in Hc by lia.
  fold batches in Hc.
  unfold translate_batch. fold p n. split.
  - rewrite bind_run. unfold ret. cbn [fst]. f_equal.
    apply list_eq. intros j. rewrite Hr. by apply translated_at_all.
  - unfold costs in *. rewrite bind_run. unfold ret. cbn [snd]. exact Hc.
Qed.

Lemma plain_segment_kept t :
  plain_segment t -> truthy (collapse_newlines 0 t) = true.
Proof.
  intros [(Hne & Hh & _) _]. destruct t as [|c t]; [done|].
  cbn [head_fails] in Hh. rewrite collapse_newlines_other; [done|].
  destruct (is_lf c) eqn:Hc; [|done].
  apply lf_is_space in Hc. congruence.
Qed.

Lemma success_count_all translations : forall subtitles,
  Forall plain_segment translations ->
  length translations = length subtitles ->
  success_count (zip_with with_translation
                   (map (collapse_newlines 0) translations) subtitles)
  = length subtitles.
Proof.
  unfold success_count.
  induction translations as [|t ts IH]; intros [|sub subs] Hall Hlen;
    try done.
  apply Forall_cons in Hall as [Ht Hall].
  cbn [map zip_with List.filter with_translation translated_text truthy_opt].
  rewrite (plain_segment_kept t Ht). cbn [length]. f_equal.
  apply IH; [done|]. simpl in Hlen. lia.
Qed.

(** X26. When every batch is answered in the format that the prompt asks
    for, one line [[k] text] per block of the batch, [translate_batch]
    returns the blocks in their order, each with the line of its position
    as its translation (runs of three or more newlines collapsed to two)
    and its other fields as they were; it makes one call per batch, no
    call for a block on its own, and waits half a second per batch. *)
Theorem numbered_responses_translate_all
    (backend : Backend) (subtitles : list SubtitleBlock) (batch_size : positive)
    (translations : list str) (w : World) :
  let size := Pos.to_nat batch_size in
  let batches := batch_count (length subtitles) size in
  length translations = length subtitles ->
  Forall plain_segment translations ->
  (forall k request,
     k < batches ->
     usable (api_result backend (calls w + k) request)
     = Some (numbered_lines (take size (drop (k * size) translations)))) ->
  let run := translate_batch backend subtitles (Zpos batch_size) w in
  fst run
  = Some (zip_with with_translation (map (collapse_newlines 0) translations)
            subtitles)
  /\ calls (snd run) = calls w + batches
  /\ total_wait (events (snd run))
     = (total_wait (events w) + 500 * N.of_nat batches)%N.
Proof.
  intros size batches Hlen Hall Hans run. subst run size.
  destruct (numbered_run backend subtitles batch_size translations w
              Hlen Hall Hans) as [Hr Hc].
  split; [exact Hr|]. unfold costs in Hc. fold batches in Hc. lia.
Qed.

Lemma numbered_responses_translate_all_witness :
  let run := translate_batch
               (scripted_backend [lit "[1] A" ++ [LF] ++ lit "[2] B";
                                  lit "[1] C"])
               three_blocks 2 initial_world in
  fst run = Some translated_blocks /\ calls (snd run) = 2.
Proof.
  destruct (numbered_responses_translate_all
              (scripted_backend [lit "[1] A" ++ [LF] ++ lit "[2] B";
                                 lit "[1] C"])
              three_blocks 2 [lit "A"; lit "B"; lit "C"] initial_world)
    as (Hr & Hc & _).
  - reflexivity.
  - repeat constructor; try discriminate; reflexivity.
  - intros k request Hk.
    assert (Hcases : k = 0 \/ k = 1) by (vm_compute in Hk; lia).
    destruct Hcases as [->| ->]; reflexivity.
  - split; [exact Hr|exact Hc].
Defined.

(** X27. When the document has blocks and every batch is answered in the
    format that the prompt asks for, [translate_file] writes the blocks
    with the lines of the answers as their translations, and its summary
    counts every block as translated; it makes one call per batch. *)
Theorem numbered_responses_translate_file
    (backend : Backend) (content : str) (batch_size : positive)
    (translations : list str) (w : World) :
  let subtitles := parse_content content in
  let size := Pos.to_nat batch_size in
  let batches := batch_count (length subtitles) size in
  subtitles <> [] ->
  length translations = length subtitles ->
  Forall plain_segment translations ->
  (forall k request,
     k < batches ->
     usable (api_result backend (calls w + k) request)
     = Some (numbered_lines (take size (drop (k * size) translations)))) ->
  let run := translate_file backend (Content content) (Zpos batch_size) w in
  fst run
  = Some {| written :=
              write_srt (zip_with with_translation
                           (map (collapse_newlines 0) translations) subtitles);
            summary_count := length subtitles;
            summary_total := length subtitles |}
  /\ calls (snd run) = calls w + batches.
Proof.
  intros subtitles size batches Hne Hlen Hall Hans run. subst run size.
  unfold translate_file, parse_srt. fold subtitles.
  rewrite bool_decide_eq_false_2 by done.
  set (log := emit_all _).
  rewrite !bind_run.
  set (w0 := snd (log _)).
  assert (Hw0 : calls w0 = calls w).
  { subst w0 log. unfold emit. cbn [snd].
    destruct (length subtitles <? 5); reflexivity. }
  destruct (numbered_run backend subtitles batch_size translations w0
              Hlen Hall) as [Hr Hc].
  { intros k request Hk. rewrite Hw0. by apply Hans. }
  rewrite Hr. rewrite !bind_run. unfold ret. cbn [fst snd].
  rewrite success_count_all by done. split; [done|].
  unfold costs in Hc. fold batches in Hc.
  rewrite Nat.ltb_irrefl. unfold emit, ret. cbn [snd calls]. lia.
Qed.

Lemma numbered_responses_translate_file_witness :
  let run := translate_file
               (scripted_backend [lit "[1] A" ++ [LF] ++ lit "[2] B";
                                  lit "[1] C"])
               (Content shuffled_document) 2 initial_world in
  (written <$> fst run)
  = Some (lit "1" ++ [LF] ++ lit "00:00:01,000 --> 00:00:02,500" ++ [LF]
          ++ lit "B" ++ [LF; LF]
          ++ lit "2" ++ [LF] ++ lit "00:00:03,000 --> 00:00:04,000" ++ [LF]
          ++ lit "C" ++ [LF; LF]
          ++ lit "3" ++ [LF] ++ lit "00:00:05,000 --> 00:00:06,000" ++ [LF]
          ++ lit "A" ++ [LF; LF])
  /\ (summary_count <$> fst run) = Some 3
  /\ calls (snd run) = 2.
Proof.
  destruct (numbered_responses_translate_file
              (scripted_backend [lit "[1] A" ++ [LF] ++ lit "[2] B";
                                 lit "[1] C"])
              shuffled_document 2 [lit "A"; lit "B"; lit "C"] initial_world)
    as (Hr & Hc).
  - vm_compute. discriminate.
  - reflexivity.
  - repeat constructor; try discriminate; reflexivity.
  - intros k request Hk.
    assert (Hcases : k = 0 \/ k = 1) by (vm_compute in Hk; lia).
    destruct Hcases as [->| ->]; reflexivity.
  - cbv zeta. rewrite Hr. split; [|split; [|exact Hc]]; vm_compute; reflexivity.
Defined.
